(** * Verification of the unitary-synthesis core of qiskit-terra

    Four components are embedded:
    - [Synthesis]: qiskit/transpiler/passes/synthesis/unitary_synthesis.py
      (basis selection, natural direction, basis fidelity, node substitution);
    - [UCG]: qiskit/extensions/quantum_initializer/ucg.py
      (input validation, isometry check, circuit assembly);
    - [UGate]: qiskit/circuit/library/standard_gates/u.py
      (matrix and inverse of the U gate);
    - [Timeline]: qiskit/visualization/timeline/events.py, the event table
      of qiskit/visualization/timeline_visualization.py and the container
      of qiskit/visualization/timeline/core_drawer.py.

    Python floats are idealised: rationals ([Q]) where the code only compares,
    subtracts and selects, real numbers ([R]) where it takes roots and
    exponentials. *)

From Stdlib Require Import List String Ascii Bool Arith NArith ZArith QArith Qminmax Qabs Lia.
From Stdlib Require Import Permutation.
From Stdlib Require Import Reals Lra RNsatz.
Import ListNotations.

(* ================================================================== *)
(** * The synthesis pass (unitary_synthesis.py) *)
(* ================================================================== *)

Module Synthesis.

Local Close Scope Q_scope.
Local Open Scope string_scope.
Local Open Scope list_scope.

(** ** Python values used by the pass *)

(** A Python [set] of strings, kept as a duplicate-free list.  The order of
    the list stands for the (unspecified) order of the hash table. *)
Definition pyset := list string.

Definition py_set (l : list string) : pyset := nodup string_dec l.

Definition set_mem (x : string) (s : pyset) : bool := existsb (String.eqb x) s.

Definition intersection (s : pyset) (keys : list string) : pyset :=
  filter (fun x => set_mem x keys) s.

Definition issubset (s t : pyset) : bool := forallb (fun x => set_mem x t) s.

(** [basis_gates or []] *)
Definition or_empty (basis_gates : option (list string)) : list string :=
  match basis_gates with
  | Some l => l
  | None => []
  end.

(** Lookup in a dict written as an ordered list of items. *)
Fixpoint dict_get {V : Type} (d : list (string * V)) (k : string) : option V :=
  match d with
  | [] => None
  | (k', v) :: rest => if String.eqb k k' then Some v else dict_get rest k
  end.

(** Truth value of an optional float: [None] and [0.0] are false. *)
Definition truthy (x : option Q) : bool :=
  match x with
  | None => false
  | Some q => negb (Qeq_bool q 0%Q)
  end.

(** Python's [a or b] on optional floats. *)
Definition py_or (a b : option Q) : option Q := if truthy a then a else b.

(** A float that may be [math.inf]. *)
Inductive ext : Type :=
| Fin (q : Q)
| Inf.

(** [x < y] on such floats. *)
Definition ext_ltb (x y : ext) : bool :=
  match x, y with
  | Fin a, Fin b => negb (Qle_bool b a)
  | Fin _, Inf => true
  | Inf, _ => false
  end.

(** ** Basis selection *)

Inductive kak_gate : Type :=
| CXGate
| CZGate
| iSwapGate
| RXXGate_half_pi
| ECRGate.

Definition kak_gate_names : list (string * kak_gate) :=
  [ ("cx", CXGate);
    ("cz", CZGate);
    ("iswap", iSwapGate);
    ("rxx", RXXGate_half_pi);
    ("ecr", ECRGate) ].

Definition euler_basis_names : list (string * list string) :=
  [ ("U3", ["u3"]);
    ("U1X", ["u1"; "rx"]);
    ("RR", ["r"]);
    ("ZYZ", ["rz"; "ry"]);
    ("ZXZ", ["rz"; "rx"]);
    ("XYX", ["rx"; "ry"]) ].

(** The loop of [_choose_euler_basis] over the items of the table. *)
Fixpoint first_euler_basis (items : list (string * list string))
         (basis_set : pyset) : option string :=
  match items with
  | [] => None
  | (basis, gates) :: rest =>
      if issubset (py_set gates) basis_set then Some basis
      else first_euler_basis rest basis_set
  end.

Definition _choose_euler_basis (basis_gates : option (list string)) : option string :=
  let basis_set := py_set (or_empty basis_gates) in
  first_euler_basis euler_basis_names basis_set.

(** What the specification asks of the two-qubit choice: the first entry of
    the table, in its order, whose name is requested. *)
Fixpoint first_kak_gate (items : list (string * kak_gate))
         (basis_set : pyset) : option kak_gate :=
  match items with
  | [] => None
  | (nm, g) :: rest =>
      if set_mem nm basis_set then Some g else first_kak_gate rest basis_set
  end.

(** ** Exceptions, calibration queries and the monad of the pass *)

Inductive exn : Type :=
| BackendPropertyError
| IndexError.

(** What the pass asks of its collaborators: a lookup in the calibration
    data, or a call of the two-qubit decomposer with a basis fidelity. *)
Inductive event : Type :=
| CalQuery (method gate : string) (qubits : list nat)
| Call2q (basis_fidelity : option Q).

(** A computation may raise, and records the events in the order they
    happen. *)
Definition M (A : Type) : Type := list event -> (exn + A) * list event.

Definition ret {A} (a : A) : M A := fun log => (inr a, log).

Definition raise {A} (e : exn) : M A := fun log => (inl e, log).

Definition bind {A B} (m : M A) (k : A -> M B) : M B :=
  fun log =>
    match m log with
    | (inl e, log') => (inl e, log')
    | (inr a, log') => k a log'
    end.

Definition tell (e : event) : M unit := fun log => (inr tt, log ++ [e]).

(** [try: m except BackendPropertyError: pass], the variable keeping [dflt]. *)
Definition try_except {A} (m : M A) (dflt : A) : M A :=
  fun log =>
    match m log with
    | (inl BackendPropertyError, log') => (inr dflt, log')
    | r => r
    end.

Notation "x <- m ;; k" := (bind m (fun x => k))
  (at level 61, m at next level, right associativity).

(** Modelled from the spec: [BackendProperties] (qiskit.providers.models) is
    not part of the sources.  The calibration is "a read-only map from (gate
    name, ordered qubit-index tuple) to {duration, error}" that "may raise a
    no-data signal for an unmeasured direction". *)
Record cal_entry : Type := mkCal {
  duration : Q;
  error : Q
}.

Definition BackendProperties := string -> list nat -> option cal_entry.

Definition gate_length (props : BackendProperties) (gate : string)
           (qubits : list nat) : M Q :=
  _ <- tell (CalQuery "gate_length" gate qubits) ;;
  match props gate qubits with
  | Some e => ret (duration e)
  | None => raise BackendPropertyError
  end.

Definition gate_error (props : BackendProperties) (gate : string)
           (qubits : list nat) : M Q :=
  _ <- tell (CalQuery "gate_error" gate qubits) ;;
  match props gate qubits with
  | Some e => ret (error e)
  | None => raise BackendPropertyError
  end.

(** ** The pass *)

Section Pass.

(** Entries of the matrices, circuits, graphs and layouts are those of the
    collaborators of the pass. *)
Variable C : Type.
Variable QuantumCircuit : Type.
Variable DAGCircuit : Type.
Variable Layout : Type.
Variable Wire : Type.

Definition matrix := nat -> nat -> C.

Record DAGNode : Type := mkNode {
  name : string;
  qargs : list nat;      (* the index of each qubit argument *)
  to_matrix : matrix     (* node.op.to_matrix() *)
}.

(** [set.pop()]: removes and returns an arbitrary element. *)
Variable set_pop : pyset -> option string.

(** The decomposers and the graph operations. *)
Variable OneQubitEulerDecomposer : string -> matrix -> QuantumCircuit.
Variable TwoQubitBasisDecomposer :
  kak_gate -> option string -> bool -> matrix -> option Q -> QuantumCircuit.
Variable Isometry_definition : matrix -> QuantumCircuit.
Variable circuit_to_dag : QuantumCircuit -> DAGCircuit.
Variable named_nodes : DAGCircuit -> list string -> list DAGNode.
Variable two_qubit_ops : DAGCircuit -> list DAGNode.
Variable wires : DAGCircuit -> list Wire.
Variable substitute_node_with_dag :
  DAGCircuit -> DAGNode -> DAGCircuit -> option (list Wire) -> DAGCircuit.

Definition _choose_kak_gate (basis_gates : option (list string)) : option kak_gate :=
  let kak_gates := intersection (py_set (or_empty basis_gates))
                                (map fst kak_gate_names) in
  match kak_gates with
  | [] => None
  | _ :: _ =>
      match set_pop kak_gates with
      | Some k => dict_get kak_gate_names k
      | None => None
      end
  end.

Record UnitarySynthesis : Type := mkPass {
  _basis_gates : option (list string);
  _fidelity : option Q;
  _backend_props : option BackendProperties;
  property_set_layout : option Layout   (* None also for a layout that is false *)
}.

(** [isinstance(kak_gate, (CXGate, ECRGate)) and self._backend_props] *)
Definition pulse_optimize_flag (kak : option kak_gate)
           (props : option BackendProperties) : bool :=
  match kak, props with
  | Some CXGate, Some _ => true
  | Some ECRGate, Some _ => true
  | _, _ => false
  end.

(** Lines 135-158: the natural direction of a two-qubit node on the qubits
    [q0], [q1], and the fidelity of the gate in that direction. *)
Definition natural_direction_of (self : UnitarySynthesis) (q0 q1 : nat)
  : M (option (list nat) * option Q) :=
  match property_set_layout self, _backend_props self with
  | Some _, Some props =>
      len_0_1 <- try_except
                   (l <- gate_length props "cx" [q0; q1] ;; ret (Fin l)) Inf ;;
      len_1_0 <- try_except
                   (l <- gate_length props "cx" [q1; q0] ;; ret (Fin l)) Inf ;;
      let natural_direction :=
        if ext_ltb len_0_1 len_1_0 then Some [0; 1]
        else if ext_ltb len_1_0 len_0_1 then Some [1; 0]
        else None in
      match natural_direction with
      | Some d =>
          e <- gate_error props "cx" (map (fun i => nth i [q0; q1] 0) d) ;;
          ret (Some d, Some (1 - e)%Q)
      | None => ret (None, None)
      end
  | _, _ => ret (None, None)
  end.

(** [self._fidelity or physical_gate_fidelity] *)
Definition basis_fidelity_of (self : UnitarySynthesis)
           (physical_gate_fidelity : option Q) : option Q :=
  py_or (_fidelity self) physical_gate_fidelity.

(** Exchange of the indices 1 and 2. *)
Definition swap12 (i : nat) : nat :=
  match i with
  | 1 => 2
  | 2 => 1
  | _ => i
  end.

(** [m[[1, 2]] = m[[2, 1]]] followed by [m[:, [1, 2]] = m[:, [2, 1]]]. *)
Definition mirror (m : matrix) : matrix := fun i j => m (swap12 i) (swap12 j).

(** [decomposer2q(mat, basis_fidelity=basis_fidelity)] *)
Definition call2q (dec : matrix -> option Q -> QuantumCircuit) (mat : matrix)
           (basis_fidelity : option Q) : M QuantumCircuit :=
  _ <- tell (Call2q basis_fidelity) ;;
  ret (dec mat basis_fidelity).

Definition list_eqb (a b : list nat) : bool :=
  if list_eq_dec Nat.eq_dec a b then true else false.

(** The body of the loop up to the substitution: [None] stands for
    [continue], [Some (synth_dag, wires)] for the arguments of the
    substitution.  The bases and the decomposers are those [run] builds
    before the loop (lines 109-121); they depend on [self] only. *)
Definition synthesize (self : UnitarySynthesis) (node : DAGNode)
  : M (option (DAGCircuit * option (list Wire))) :=
  let euler_basis := _choose_euler_basis (_basis_gates self) in
  let kak_gate := _choose_kak_gate (_basis_gates self) in
  let pulse_optimize := pulse_optimize_flag kak_gate (_backend_props self) in
  let decomposer1q := option_map OneQubitEulerDecomposer euler_basis in
  let decomposer2q :=
    option_map (fun g => TwoQubitBasisDecomposer g euler_basis pulse_optimize)
               kak_gate in
  match qargs node with
  | [_] =>
      match decomposer1q with
      | None => ret None
      | Some dec => ret (Some (circuit_to_dag (dec (to_matrix node)), None))
      end
  | [q0; q1] =>
      match decomposer2q with
      | None => ret None
      | Some dec =>
          dir <- natural_direction_of self q0 q1 ;;
          let '(natural_direction, physical_gate_fidelity) := dir in
          let basis_fidelity := basis_fidelity_of self physical_gate_fidelity in
          let su4_mat := to_matrix node in
          circ <- call2q dec su4_mat basis_fidelity ;;
          let synth_dag := circuit_to_dag circ in
          match natural_direction with
          | Some d =>
              match two_qubit_ops synth_dag with
              | [] => raise IndexError
              | op0 :: _ =>
                  if negb (list_eqb (qargs op0) d) then
                    let su4_mat_mm := mirror su4_mat in
                    circ' <- call2q dec su4_mat_mm basis_fidelity ;;
                    let synth_dag' := circuit_to_dag circ' in
                    ret (Some (synth_dag', Some (rev (wires synth_dag'))))
                  else ret (Some (synth_dag, None))
              end
          | None => ret (Some (synth_dag, None))
          end
      end
  | _ =>
      ret (Some (circuit_to_dag (Isometry_definition (to_matrix node)), None))
  end.

(** One iteration of the loop of [run]. *)
Definition run_node (self : UnitarySynthesis) (dag : DAGCircuit)
           (node : DAGNode) : M DAGCircuit :=
  r <- synthesize self node ;;
  match r with
  | None => ret dag
  | Some (synth_dag, ws) => ret (substitute_node_with_dag dag node synth_dag ws)
  end.

Fixpoint run_nodes (self : UnitarySynthesis) (nodes : list DAGNode)
         (dag : DAGCircuit) : M DAGCircuit :=
  match nodes with
  | [] => ret dag
  | node :: rest =>
      dag' <- run_node self dag node ;;
      run_nodes self rest dag'
  end.

Definition run (self : UnitarySynthesis) (dag : DAGCircuit) : M DAGCircuit :=
  run_nodes self (named_nodes dag ["unitary"; "swap"]) dag.

(** ** Pure descriptions of what the pass computes on a two-qubit node *)

(** The calibrated duration of "cx" on the ordered pair, infinite when the
    pair has no entry. *)
Definition calibrated_length (props : BackendProperties) (a b : nat) : ext :=
  match props "cx" [a; b] with
  | Some e => Fin (duration e)
  | None => Inf
  end.

Definition ext_lt (x y : ext) : Prop :=
  match x, y with
  | Fin a, Fin b => (a < b)%Q
  | Fin _, Inf => True
  | Inf, _ => False
  end.

Definition direction (self : UnitarySynthesis) (q0 q1 : nat) : option (list nat) :=
  match property_set_layout self, _backend_props self with
  | Some _, Some props =>
      if ext_ltb (calibrated_length props q0 q1) (calibrated_length props q1 q0)
      then Some [0; 1]
      else if ext_ltb (calibrated_length props q1 q0) (calibrated_length props q0 q1)
           then Some [1; 0]
           else None
  | _, _ => None
  end.

(** The qubits of the gate in the natural direction. *)
Definition directed (q0 q1 : nat) (d : list nat) : list nat :=
  map (fun i => nth i [q0; q1] 0) d.

Definition calibrated_error (props : BackendProperties) (qubits : list nat) : Q :=
  match props "cx" qubits with
  | Some e => error e
  | None => 0%Q
  end.

Definition physical (self : UnitarySynthesis) (q0 q1 : nat) : option Q :=
  match direction self q0 q1, _backend_props self with
  | Some d, Some props => Some (1 - calibrated_error props (directed q0 q1 d))%Q
  | _, _ => None
  end.

Definition queries (self : UnitarySynthesis) (q0 q1 : nat) : list event :=
  match property_set_layout self, _backend_props self with
  | Some _, Some _ =>
      [CalQuery "gate_length" "cx" [q0; q1];
       CalQuery "gate_length" "cx" [q1; q0]] ++
      match direction self q0 q1 with
      | Some d => [CalQuery "gate_error" "cx" (directed q0 q1 d)]
      | None => []
      end
  | _, _ => []
  end.

(** The requested fidelity when it is set and not zero, else the fidelity of
    the gate in the natural direction, else nothing. *)
Definition requested_else_physical (self : UnitarySynthesis) (q0 q1 : nat)
  : option Q :=
  match _fidelity self with
  | Some r => if Qeq_bool r 0%Q then physical self q0 q1 else Some r
  | None => physical self q0 q1
  end.

(** The decomposer a two-qubit node is given to, when there is one. *)
Definition decomposer2q_of (self : UnitarySynthesis) (g : kak_gate)
  : matrix -> option Q -> QuantumCircuit :=
  TwoQubitBasisDecomposer g (_choose_euler_basis (_basis_gates self))
    (pulse_optimize_flag (Some g) (_backend_props self)).

(** Whether the first synthesis of the node comes out against the natural
    direction, so that the mirrored matrix is synthesized as well. *)
Definition flipped (self : UnitarySynthesis) (q0 q1 : nat) (mat : matrix)
           (g : kak_gate) : bool :=
  match direction self q0 q1 with
  | Some d =>
      match two_qubit_ops
              (circuit_to_dag
                 (decomposer2q_of self g mat (requested_else_physical self q0 q1)))
      with
      | op0 :: _ => negb (list_eqb (qargs op0) d)
      | [] => false
      end
  | None => false
  end.

(** Everything a two-qubit node makes the pass ask of its collaborators. *)
Definition events_2q (self : UnitarySynthesis) (q0 q1 : nat) (mat : matrix)
  : list event :=
  match _choose_kak_gate (_basis_gates self) with
  | None => []
  | Some g =>
      queries self q0 q1 ++
      Call2q (requested_else_physical self q0 q1) ::
      (if flipped self q0 q1 mat g
       then [Call2q (requested_else_physical self q0 q1)]
       else [])
  end.

Definition one_or_two (node : DAGNode) : bool :=
  match qargs node with
  | [_] => true
  | [_; _] => true
  | _ => false
  end.

Definition isometry_dag (node : DAGNode) : DAGCircuit :=
  circuit_to_dag (Isometry_definition (to_matrix node)).

Definition isometry_substitute (dag : DAGCircuit) (node : DAGNode) : DAGCircuit :=
  substitute_node_with_dag dag node (isometry_dag node) None.

(** [basis_gates] is empty when it is [None] or the empty list. *)
Definition empty_basis (none : bool) : option (list string) :=
  if none then None else Some [].

Definition is_cal_query (e : event) : bool :=
  match e with
  | CalQuery _ _ _ => true
  | Call2q _ => false
  end.

Definition queries_cx (e : event) : Prop :=
  match e with
  | CalQuery _ gate _ => gate = "cx"
  | Call2q _ => True
  end.

Definition passes_fidelity (f : option Q) (e : event) : Prop :=
  match e with
  | Call2q bf => bf = f
  | CalQuery _ _ _ => True
  end.

(** ** Lemmas *)

Lemma ext_ltb_lt (x y : ext) : ext_ltb x y = true <-> ext_lt x y.
Proof.
  destruct x as [a|], y as [b|]; simpl; try (split; congruence || tauto).
  rewrite negb_true_iff. split.
  - intros H. apply Qnot_le_lt. intros Hle.
    apply Qle_bool_iff in Hle. congruence.
  - intros H. destruct (Qle_bool b a) eqn:E; [|reflexivity].
    apply Qle_bool_iff in E. exfalso. exact (Qlt_not_le _ _ H E).
Qed.

Lemma ext_lt_asym (x y : ext) : ext_lt x y -> ~ ext_lt y x.
Proof.
  destruct x as [a|], y as [b|]; simpl; try tauto.
  intros H1 H2. exact (Qlt_irrefl _ (Qlt_trans _ _ _ H1 H2)).
Qed.

(** The lookups of the natural direction never raise: a missing entry makes
    the duration infinite, and the error is only read on a pair whose
    duration was found. *)
Lemma natural_direction_of_eval (self : UnitarySynthesis) (q0 q1 : nat)
      (log : list event) :
  natural_direction_of self q0 q1 log =
  (inr (direction self q0 q1, physical self q0 q1), log ++ queries self q0 q1).
Proof.
  unfold natural_direction_of, direction, physical, queries, direction,
    calibrated_length, calibrated_error, directed.
  destruct (property_set_layout self) as [lay|];
    [|unfold ret; rewrite app_nil_r; reflexivity].
  destruct (_backend_props self) as [props|];
    [|unfold ret; rewrite app_nil_r; reflexivity].
  unfold bind, try_except, gate_length, gate_error, tell, ret, raise, bind.
  destruct (props "cx" [q0; q1]) as [e01|] eqn:E01;
    destruct (props "cx" [q1; q0]) as [e10|] eqn:E10; simpl.
  - destruct (Qle_bool (duration e10) (duration e01)) eqn:L1; simpl.
    + destruct (Qle_bool (duration e01) (duration e10)) eqn:L2; simpl.
      * rewrite <- !app_assoc. reflexivity.
      * rewrite E10. rewrite <- !app_assoc. reflexivity.
    + rewrite E01. rewrite <- !app_assoc. reflexivity.
  - rewrite E01. rewrite <- !app_assoc. reflexivity.
  - rewrite E10. rewrite <- !app_assoc. reflexivity.
  - rewrite <- !app_assoc. reflexivity.
Qed.

Lemma basis_fidelity_of_physical (self : UnitarySynthesis) (q0 q1 : nat) :
  basis_fidelity_of self (physical self q0 q1) = requested_else_physical self q0 q1.
Proof.
  unfold basis_fidelity_of, requested_else_physical, py_or, truthy.
  destruct (_fidelity self) as [r|]; [|reflexivity].
  destruct (Qeq_bool r 0); reflexivity.
Qed.

Lemma synthesize_2q_events (self : UnitarySynthesis) (nm : string)
      (q0 q1 : nat) (mat : matrix) (log : list event) :
  snd (synthesize self (mkNode nm [q0; q1] mat) log) =
  log ++ events_2q self q0 q1 mat.
Proof.
  unfold synthesize, events_2q, flipped, decomposer2q_of. cbv zeta.
  cbn [qargs to_matrix].
  destruct (_choose_kak_gate (_basis_gates self)) as [g|]; cbn [option_map].
  2: { unfold ret. simpl. now rewrite app_nil_r. }
  unfold bind at 1. rewrite natural_direction_of_eval.
  rewrite basis_fidelity_of_physical.
  unfold call2q, bind, tell, ret, raise.
  destruct (direction self q0 q1) as [d|]; simpl.
  - destruct (two_qubit_ops _) as [|op0 rest]; simpl.
    + now rewrite <- !app_assoc.
    + destruct (negb (list_eqb (qargs op0) d)); simpl;
        now rewrite <- !app_assoc.
  - now rewrite <- !app_assoc.
Qed.

Lemma synthesize_not_property_error (self : UnitarySynthesis) (node : DAGNode)
      (log : list event) :
  fst (synthesize self node log) <> inl BackendPropertyError.
Proof.
  unfold synthesize. cbv zeta.
  destruct (qargs node) as [|q0 [|q1 [|q2 rest]]]; try (simpl; discriminate).
  - destruct (option_map _ _); simpl; discriminate.
  - destruct (option_map _ (_choose_kak_gate _)) as [dec|]; [|simpl; discriminate].
    unfold bind at 1. rewrite natural_direction_of_eval.
    unfold call2q, bind, tell, ret, raise.
    destruct (direction self q0 q1) as [d|]; simpl; try discriminate.
    destruct (two_qubit_ops _) as [|op0 r]; simpl; try discriminate.
    destruct (negb (list_eqb (qargs op0) d)); simpl; discriminate.
Qed.

Lemma run_nodes_not_property_error (self : UnitarySynthesis)
      (nodes : list DAGNode) (dag : DAGCircuit) (log : list event) :
  fst (run_nodes self nodes dag log) <> inl BackendPropertyError.
Proof.
  revert dag log. induction nodes as [|n rest IH]; intros dag log; simpl.
  - discriminate.
  - unfold bind at 1. unfold run_node. unfold bind at 1.
    pose proof (synthesize_not_property_error self n log) as Hn.
    destruct (synthesize self n log) as [[e|r] log1]; simpl in *.
    + congruence.
    + destruct r as [[sd ws]|]; unfold ret; apply IH.
Qed.

(** ** An empty set of basis gates *)

Lemma synthesize_empty_basis (none : bool) (fid : option Q)
      (props : option BackendProperties) (layout : option Layout)
      (node : DAGNode) (log : list event) :
  synthesize (mkPass (empty_basis none) fid props layout) node log =
  (inr (if one_or_two node then None else Some (isometry_dag node, None)), log).
Proof.
  unfold synthesize, one_or_two, isometry_dag. cbv zeta.
  assert (He : _choose_euler_basis (empty_basis none) = None)
    by (destruct none; reflexivity).
  assert (Hk : _choose_kak_gate (empty_basis none) = None)
    by (destruct none; reflexivity).
  cbn [_basis_gates]. rewrite He, Hk. cbn [option_map].
  destruct (qargs node) as [|q0 [|q1 [|q2 rest]]]; reflexivity.
Qed.

Lemma run_nodes_empty_basis (none : bool) (fid : option Q)
      (props : option BackendProperties) (layout : option Layout)
      (nodes : list DAGNode) (dag : DAGCircuit) (log : list event) :
  run_nodes (mkPass (empty_basis none) fid props layout) nodes dag log =
  (inr (fold_left isometry_substitute
                  (filter (fun n => negb (one_or_two n)) nodes) dag), log).
Proof.
  revert dag log. induction nodes as [|n rest IH]; intros dag log.
  - reflexivity.
  - simpl run_nodes. unfold bind at 1. unfold run_node. unfold bind at 1.
    rewrite synthesize_empty_basis. simpl filter.
    destruct (one_or_two n); simpl; unfold ret; apply IH.
Qed.

(** ** Properties of the pass *)

Lemma queries_all_cx (self : UnitarySynthesis) (q0 q1 : nat) :
  Forall queries_cx (queries self q0 q1).
Proof.
  unfold queries.
  destruct (property_set_layout self); [|constructor].
  destruct (_backend_props self); [|constructor].
  repeat constructor.
  destruct (direction self q0 q1); repeat constructor.
Qed.

Lemma queries_only_cal (self : UnitarySynthesis) (q0 q1 : nat) :
  filter is_cal_query (queries self q0 q1) = queries self q0 q1.
Proof.
  unfold queries.
  destruct (property_set_layout self); [|reflexivity].
  destruct (_backend_props self); [|reflexivity].
  destruct (direction self q0 q1); reflexivity.
Qed.

(** C8.  With a layout and backend properties, the natural direction of a
    two-qubit node on [q0], [q1] is [[0, 1]] exactly when the calibrated
    duration on (q0, q1) is strictly below the one on (q1, q0), [[1, 0]]
    exactly in the opposite case, and absent on a tie; an ordered pair
    without entry counts as an infinite duration in that direction only,
    the selection returns, and no [BackendPropertyError] leaves the pass. *)
Theorem natural_direction_by_duration
        (bg : option (list string)) (fid : option Q)
        (props : BackendProperties) (layout : Layout) (q0 q1 : nat)
        (log : list event) :
  let self := mkPass bg fid (Some props) (Some layout) in
  let len_0_1 := calibrated_length props q0 q1 in
  let len_1_0 := calibrated_length props q1 q0 in
  exists d phys log',
    natural_direction_of self q0 q1 log = (inr (d, phys), log') /\
    (d = Some [0; 1] <-> ext_lt len_0_1 len_1_0) /\
    (d = Some [1; 0] <-> ext_lt len_1_0 len_0_1) /\
    (d = None <-> ~ ext_lt len_0_1 len_1_0 /\ ~ ext_lt len_1_0 len_0_1) /\
    (forall dag, fst (run self dag log) <> inl BackendPropertyError).
Proof.
  intros self len_0_1 len_1_0.
  exists (direction self q0 q1), (physical self q0 q1), (log ++ queries self q0 q1).
  split; [apply natural_direction_of_eval|].
  assert (Hd : direction self q0 q1 =
               if ext_ltb len_0_1 len_1_0 then Some [0; 1]
               else if ext_ltb len_1_0 len_0_1 then Some [1; 0] else None)
    by reflexivity.
  rewrite Hd. clear Hd.
  pose proof (ext_ltb_lt len_0_1 len_1_0) as H01.
  pose proof (ext_ltb_lt len_1_0 len_0_1) as H10.
  pose proof (ext_lt_asym len_0_1 len_1_0) as Hasym.
  destruct (ext_ltb len_0_1 len_1_0); destruct (ext_ltb len_1_0 len_0_1);
    repeat split; try discriminate; try tauto;
    try (intros _; apply H01; reflexivity);
    try (intros _; apply H10; reflexivity);
    try (intros ?; exfalso; intuition congruence);
    try (intros [? ?]; exfalso; intuition congruence);
    try (intros ? ?; intuition congruence);
    try (intros dag; apply run_nodes_not_property_error).
Qed.

(** C10.  On every two-qubit node the lookups of the duration and of the
    error are made under the gate name "cx", whichever two-qubit gate was
    chosen for the decomposition: the queries are exactly those of [queries],
    which are written with "cx". *)
Theorem calibration_queries_use_cx (self : UnitarySynthesis) (nm : string)
        (q0 q1 : nat) (mat : matrix) (log : list event) :
  exists extra,
    snd (synthesize self (mkNode nm [q0; q1] mat) log) = log ++ extra /\
    Forall queries_cx extra /\
    match _choose_kak_gate (_basis_gates self) with
    | Some _ => filter is_cal_query extra = queries self q0 q1
    | None => extra = []
    end.
Proof.
  exists (events_2q self q0 q1 mat).
  split; [apply synthesize_2q_events|].
  unfold events_2q.
  destruct (_choose_kak_gate (_basis_gates self)) as [g|].
  - split.
    + apply Forall_app. split; [apply queries_all_cx|].
      destruct (flipped self q0 q1 mat g); repeat constructor.
    + rewrite filter_app, queries_only_cal.
      destruct (flipped self q0 q1 mat g); simpl; now rewrite app_nil_r.
  - split; [constructor | reflexivity].
Qed.

(** C4, amended.  Every call of the two-qubit decomposer on a two-qubit node
    receives the requested synthesis fidelity when one is set and is not
    zero, whatever the fidelity of the physical gate; it receives
    1 - (calibrated error of the natural-direction gate) only when no
    fidelity is requested and a natural direction exists, and nothing
    (None) when neither is available.  With a decomposer there is such a
    call. *)
Theorem basis_fidelity_requested_first (self : UnitarySynthesis) (nm : string)
        (q0 q1 : nat) (mat : matrix) (log : list event) :
  exists extra,
    snd (synthesize self (mkNode nm [q0; q1] mat) log) = log ++ extra /\
    Forall (passes_fidelity (requested_else_physical self q0 q1)) extra /\
    match _choose_kak_gate (_basis_gates self) with
    | Some _ => In (Call2q (requested_else_physical self q0 q1)) extra
    | None => extra = []
    end.
Proof.
  exists (events_2q self q0 q1 mat).
  split; [apply synthesize_2q_events|].
  unfold events_2q.
  destruct (_choose_kak_gate (_basis_gates self)) as [g|].
  - split.
    + apply Forall_app. split.
      * unfold queries.
        destruct (property_set_layout self); [|constructor].
        destruct (_backend_props self); [|constructor].
        destruct (direction self q0 q1); repeat constructor.
      * destruct (flipped self q0 q1 mat g); repeat constructor.
    + apply in_or_app. right. left. reflexivity.
  - split; [constructor | reflexivity].
Qed.

(** C9, amended.  With an empty set of basis gates no node on one or two
    qubits is substituted, while every unitary or swap node on any other
    number of qubits is substituted by the isometry synthesis; the graph
    returned is the input with exactly these substitutions, and nothing is
    asked of the calibration data. *)
Theorem empty_basis_substitutes_only_wide_nodes
        (none : bool) (fid : option Q) (props : option BackendProperties)
        (layout : option Layout) (dag : DAGCircuit) (log : list event) :
  let self := mkPass (empty_basis none) fid props layout in
  (forall node,
      synthesize self node log =
      (inr (if one_or_two node then None else Some (isometry_dag node, None)),
       log)) /\
  run self dag log =
  (inr (fold_left isometry_substitute
                  (filter (fun n => negb (one_or_two n))
                          (named_nodes dag ["unitary"; "swap"])) dag), log).
Proof.
  intros self. split.
  - intros node. apply synthesize_empty_basis.
  - apply run_nodes_empty_basis.
Qed.

(** With an empty set of basis gates a graph whose unitary and swap nodes
    all act on one or two qubits is returned unchanged. *)
Lemma empty_basis_narrow_graph_unchanged
      (none : bool) (fid : option Q) (props : option BackendProperties)
      (layout : option Layout) (dag : DAGCircuit) (log : list event) :
  forallb one_or_two (named_nodes dag ["unitary"; "swap"]) = true ->
  run (mkPass (empty_basis none) fid props layout) dag log = (inr dag, log).
Proof.
  intros H. unfold run. rewrite run_nodes_empty_basis.
  induction (named_nodes dag ["unitary"; "swap"]) as [|n rest IH].
  - reflexivity.
  - simpl in H. apply andb_true_iff in H. destruct H as [Hn Hr].
    simpl. rewrite Hn. simpl. apply IH, Hr.
Qed.

(* ------------------------------------------------------------------ *)
(** ** Further properties of the pass *)
(* ------------------------------------------------------------------ *)

(** The fidelity passed when nothing is known of the physical gate. *)
Definition requested_only (self : UnitarySynthesis) : option Q :=
  py_or (_fidelity self) None.

Definition is_call2q_with (f : option Q) (e : event) : Prop := e = Call2q f.

Lemma directed_swap (q0 q1 : nat) (d : list nat) :
  d = [0; 1] \/ d = [1; 0] -> directed q1 q0 (rev d) = directed q0 q1 d.
Proof. intros [-> | ->]; reflexivity. Qed.

(** X13.  The natural direction does not depend on the order in which the
    node lists its two qubits: with the qubits exchanged the direction is
    reversed, so that it names the same physical pair, and the physical gate
    fidelity is the same; the lookup returns in both orders. *)
Theorem natural_direction_follows_the_qubits
        (self : UnitarySynthesis) (q0 q1 : nat) (log : list event) :
  exists d phys,
    fst (natural_direction_of self q0 q1 log) = inr (d, phys) /\
    fst (natural_direction_of self q1 q0 log) = inr (option_map (@rev nat) d, phys) /\
    (d = None \/ d = Some [0; 1] \/ d = Some [1; 0]).
Proof.
  exists (direction self q0 q1), (physical self q0 q1).
  rewrite !natural_direction_of_eval. cbn [fst].
  split; [reflexivity|].
  assert (Hd : direction self q1 q0 = option_map (@rev nat) (direction self q0 q1) /\
               (direction self q0 q1 = None \/ direction self q0 q1 = Some [0; 1] \/
                direction self q0 q1 = Some [1; 0])).
  { unfold direction.
    destruct (property_set_layout self); [|auto].
    destruct (_backend_props self) as [props|]; [|auto].
    pose proof (ext_ltb_lt (calibrated_length props q0 q1)
                           (calibrated_length props q1 q0)) as H01.
    pose proof (ext_ltb_lt (calibrated_length props q1 q0)
                           (calibrated_length props q0 q1)) as H10.
    pose proof (ext_lt_asym (calibrated_length props q0 q1)
                            (calibrated_length props q1 q0)) as Hasym.
    destruct (ext_ltb (calibrated_length props q0 q1)
                      (calibrated_length props q1 q0));
      destruct (ext_ltb (calibrated_length props q1 q0)
                        (calibrated_length props q0 q1)); simpl; auto.
    exfalso. apply Hasym; [apply H01 | apply H10]; reflexivity. }
  destruct Hd as [Hswap Hcases]. split; [|exact Hcases].
  f_equal. f_equal; [exact Hswap|].
  unfold physical. rewrite Hswap.
  destruct Hcases as [-> | [-> | ->]]; simpl option_map;
    destruct (_backend_props self); reflexivity.
Qed.

Lemma swap12_involutive (i : nat) : swap12 (swap12 i) = i.
Proof. destruct i as [|[|[|i]]]; reflexivity. Qed.

(** X14.  When a two-qubit node has a natural direction and the first
    two-qubit operation of its synthesis acts on other qubits than that
    direction, the node is synthesized again from the matrix with rows and
    columns 1 and 2 exchanged, with the same basis fidelity, and substituted
    with the wires of the new graph in reverse order; when the operation
    acts in the natural direction the first synthesis is kept, with the
    wires as they are.  Exchanging rows and columns twice gives the matrix
    back. *)
Theorem direction_correction
        (self : UnitarySynthesis) (nm : string) (q0 q1 : nat) (mat : matrix)
        (log : list event) (g : kak_gate) (d : list nat)
        (op0 : DAGNode) (rest : list DAGNode)
        (Hkak : _choose_kak_gate (_basis_gates self) = Some g)
        (Hdir : direction self q0 q1 = Some d)
        (Hops : two_qubit_ops
                  (circuit_to_dag
                     (decomposer2q_of self g mat
                        (requested_else_physical self q0 q1))) = op0 :: rest) :
  let bf := requested_else_physical self q0 q1 in
  let first := circuit_to_dag (decomposer2q_of self g mat bf) in
  let second := circuit_to_dag (decomposer2q_of self g (mirror mat) bf) in
  synthesize self (mkNode nm [q0; q1] mat) log =
  (if list_eqb (qargs op0) d
   then (inr (Some (first, None)), log ++ queries self q0 q1 ++ [Call2q bf])
   else (inr (Some (second, Some (rev (wires second)))),
         log ++ queries self q0 q1 ++ [Call2q bf; Call2q bf])) /\
  (forall i j, mirror (mirror mat) i j = mat i j).
Proof.
  intros bf first second. subst bf first second.
  unfold decomposer2q_of in *. split.
  - unfold synthesize. cbv zeta. cbn [qargs to_matrix].
    rewrite Hkak. cbn [option_map].
    unfold bind at 1. rewrite natural_direction_of_eval.
    rewrite basis_fidelity_of_physical. rewrite Hdir.
    unfold call2q, bind, tell, ret, raise. rewrite Hops.
    destruct (list_eqb (qargs op0) d); cbn [negb]; cbv beta iota;
      rewrite <- !app_assoc; reflexivity.
  - intros i j. unfold mirror. now rewrite !swap12_involutive.
Qed.

(** X15.  When a two-qubit node has a natural direction and its synthesis
    holds no two-qubit operation, reading the first of them fails: the loop
    body raises [IndexError], after one call of the decomposer, and so does
    [run] on a graph whose first unitary or swap node is this one. *)
Theorem no_two_qubit_operation_raises
        (self : UnitarySynthesis) (nm : string) (q0 q1 : nat) (mat : matrix)
        (dag : DAGCircuit) (others : list DAGNode)
        (log : list event) (g : kak_gate) (d : list nat)
        (Hkak : _choose_kak_gate (_basis_gates self) = Some g)
        (Hdir : direction self q0 q1 = Some d)
        (Hops : two_qubit_ops
                  (circuit_to_dag
                     (decomposer2q_of self g mat
                        (requested_else_physical self q0 q1))) = [])
        (Hnodes : named_nodes dag ["unitary"; "swap"] =
                  mkNode nm [q0; q1] mat :: others) :
  synthesize self (mkNode nm [q0; q1] mat) log =
    (inl IndexError,
     log ++ queries self q0 q1 ++ [Call2q (requested_else_physical self q0 q1)]) /\
  fst (run self dag log) = inl IndexError.
Proof.
  assert (Hs : synthesize self (mkNode nm [q0; q1] mat) log =
               (inl IndexError,
                log ++ queries self q0 q1 ++
                [Call2q (requested_else_physical self q0 q1)])).
  { unfold synthesize. cbv zeta. cbn [qargs to_matrix].
    rewrite Hkak. cbn [option_map].
    unfold bind at 1. rewrite natural_direction_of_eval.
    rewrite basis_fidelity_of_physical. rewrite Hdir.
    unfold call2q, bind, tell, ret, raise.
    unfold decomposer2q_of in Hops. rewrite Hops.
    rewrite <- !app_assoc. reflexivity. }
  split; [exact Hs|].
  unfold run. rewrite Hnodes. cbn [run_nodes].
  unfold bind at 1. unfold run_node. unfold bind at 1. rewrite Hs. reflexivity.
Qed.

Lemma direction_without_calibration (self : UnitarySynthesis) (q0 q1 : nat) :
  property_set_layout self = None \/ _backend_props self = None ->
  direction self q0 q1 = None /\ physical self q0 q1 = None /\
  queries self q0 q1 = [].
Proof.
  unfold physical, queries, direction.
  intros [H|H]; rewrite H; destruct (property_set_layout self); auto.
Qed.

Lemma synthesize_without_calibration (self : UnitarySynthesis)
      (node : DAGNode) (log : list event) :
  property_set_layout self = None \/ _backend_props self = None ->
  exists r calls,
    synthesize self node log = (inr r, log ++ calls) /\
    Forall (is_call2q_with (requested_only self)) calls.
Proof.
  intros H. unfold synthesize. cbv zeta.
  destruct (qargs node) as [|q0 [|q1 [|q2 rest]]].
  - eexists. exists []. rewrite app_nil_r. split; [reflexivity | constructor].
  - destruct (option_map _ _); eexists; exists []; rewrite app_nil_r;
      (split; [reflexivity | constructor]).
  - destruct (option_map _ (_choose_kak_gate _)) as [dec|].
    2: { eexists. exists []. rewrite app_nil_r.
         split; [reflexivity | constructor]. }
    destruct (direction_without_calibration self q0 q1 H) as [Hd [Hp Hq]].
    unfold bind at 1. rewrite natural_direction_of_eval, Hd, Hp, Hq.
    unfold call2q, bind, tell, ret. rewrite app_nil_r.
    eexists. exists [Call2q (requested_only self)].
    split; [reflexivity|]. repeat constructor.
  - eexists. exists []. rewrite app_nil_r. split; [reflexivity | constructor].
Qed.

(** X16.  Without a layout or without backend properties the pass never
    raises and never reads the calibration data: whatever the graph, [run]
    returns a graph, no gate length or gate error is looked up, and every
    call of the two-qubit decomposer is given the requested fidelity (None
    when the requested fidelity is unset or zero). *)
Theorem run_without_calibration
        (self : UnitarySynthesis) (dag : DAGCircuit) (log : list event)
        (H : property_set_layout self = None \/ _backend_props self = None) :
  exists dag' calls,
    run self dag log = (inr dag', log ++ calls) /\
    Forall (is_call2q_with (requested_only self)) calls.
Proof.
  unfold run. generalize (named_nodes dag ["unitary"; "swap"]) as nodes.
  intros nodes. revert dag log.
  induction nodes as [|n rest IH]; intros dag log.
  - exists dag, []. rewrite app_nil_r. split; [reflexivity | constructor].
  - cbn [run_nodes]. unfold bind at 1. unfold run_node. unfold bind at 1.
    destruct (synthesize_without_calibration self n log H)
      as [r [calls [Hs Hc]]].
    rewrite Hs.
    destruct r as [[sd ws]|]; unfold ret;
      match goal with
      | |- exists _ _, run_nodes _ _ ?d _ = _ /\ _ =>
          destruct (IH d (log ++ calls)) as [dag' [calls' [Hr Hc']]]
      end;
      exists dag', (calls ++ calls'); rewrite Hr, app_assoc;
      (split; [reflexivity | apply Forall_app; split; assumption]).
Qed.

End Pass.

(** [set.pop()] returns some element of a set that is not empty; nothing
    else is known of it. *)
Definition pop_admissible (pop : pyset -> option string) : Prop :=
  forall s, match pop s with
            | Some x => In x s
            | None => s = []
            end.

(** Two behaviours of [set.pop()]: the element met first and the one met
    last in the table of the set. *)
Definition pop_first (s : pyset) : option string := hd_error s.

Definition pop_last (s : pyset) : option string := hd_error (rev s).

(** ** A concrete graph and concrete decomposers

    Graphs and circuits are lists of nodes; a decomposer returns one gate of
    its kind, and the substitution replaces the node by the nodes given. *)

Definition node0 := DAGNode unit.
Definition list_dag := list node0.

Definition mat0 : matrix unit := fun _ _ => tt.

Definition same_node (a b : node0) : bool :=
  String.eqb (name _ a) (name _ b) &&
  (if list_eq_dec Nat.eq_dec (qargs _ a) (qargs _ b) then true else false).

Definition list_named_nodes (dag : list_dag) (names : list string) : list node0 :=
  filter (fun n => existsb (String.eqb (name _ n)) names) dag.

Definition list_two_qubit_ops (dag : list_dag) : list node0 :=
  filter (fun n => Nat.eqb (List.length (qargs _ n)) 2) dag.

Definition list_substitute (dag : list_dag) (node : node0) (input : list_dag)
           (ws : option (list nat)) : list_dag :=
  flat_map (fun n => if same_node n node then input else [n]) dag.

Definition euler_gate (basis : string) (m : matrix unit) : list_dag :=
  [mkNode unit "u3" [0] m].

Definition kak_circuit (g : kak_gate) (eb : option string) (po : bool)
           (m : matrix unit) (bf : option Q) : list_dag :=
  [mkNode unit "cx" [0; 1] m].

Definition isometry_circuit (m : matrix unit) : list_dag :=
  [mkNode unit "isometry" [0; 1; 2] m].

Definition list_synthesize :=
  synthesize unit list_dag list_dag unit nat pop_first
             euler_gate kak_circuit isometry_circuit (fun c => c)
             list_two_qubit_ops (fun _ => [0; 1]).

Definition list_run :=
  run unit list_dag list_dag unit nat pop_first
      euler_gate kak_circuit isometry_circuit (fun c => c)
      list_named_nodes list_two_qubit_ops (fun _ => [0; 1]) list_substitute.

(** A calibration with "cx" on (0, 1) only, of error 1/2. *)
Definition one_way_cx : BackendProperties :=
  fun gate qubits =>
    if String.eqb gate "cx" &&
       (if list_eq_dec Nat.eq_dec qubits [0; 1] then true else false)
    then Some (mkCal (3 # 10) (1 # 2))
    else None.

(** The basis fidelity in the words of the claim: the minimum when both are
    available, the available one, else 1. *)
Definition min_fidelity (requested physical : option Q) : Q :=
  match requested, physical with
  | Some r, Some p => Qmin r p
  | Some r, None => r
  | None, Some p => p
  | None, None => 1%Q
  end.

(** ** The choice of the bases *)

Lemma set_mem_In (x : string) (s : pyset) : set_mem x s = true <-> In x s.
Proof.
  unfold set_mem. rewrite existsb_exists. split.
  - intros [y [Hy E]]. apply String.eqb_eq in E. now subst.
  - intros H. exists x. split; [exact H | apply String.eqb_refl].
Qed.

Lemma set_mem_py_set (x : string) (l : list string) :
  set_mem x (py_set l) = true <-> In x l.
Proof. rewrite set_mem_In. apply nodup_In. Qed.

Lemma issubset_incl (s t : pyset) :
  issubset s t = true <-> (forall x, In x s -> In x t).
Proof.
  unfold issubset. rewrite forallb_forall. split; intros H x Hx.
  - apply set_mem_In, H, Hx.
  - apply set_mem_In, H, Hx.
Qed.

Lemma issubset_same_members (s t t' : pyset) :
  (forall x, In x t <-> In x t') -> issubset s t = issubset s t'.
Proof.
  intros H. apply eq_true_iff_eq. rewrite !issubset_incl.
  split; intros Hs x Hx; apply H, Hs, Hx.
Qed.

(** The Euler basis is a function of the set of the requested names: order
    and repetitions in [basis_gates] do not matter. *)
Lemma choose_euler_basis_same_members (l1 l2 : list string) :
  (forall x, In x l1 <-> In x l2) ->
  _choose_euler_basis (Some l1) = _choose_euler_basis (Some l2).
Proof.
  intros H. unfold _choose_euler_basis. simpl or_empty.
  assert (Hs : forall x, In x (py_set l1) <-> In x (py_set l2)).
  { intros x. unfold py_set. rewrite !nodup_In. apply H. }
  induction euler_basis_names as [|[b gates] rest IH]; simpl.
  - reflexivity.
  - rewrite (issubset_same_members _ _ _ Hs), IH. reflexivity.
Qed.

(** The Euler basis chosen is the first entry of the table, in its order,
    all of whose gates are requested; there is none exactly when no entry
    has all its gates requested. *)
Lemma first_euler_basis_first (items : list (string * list string))
      (s : pyset) :
  match first_euler_basis items s with
  | Some b =>
      exists pre gates post,
        items = pre ++ (b, gates) :: post /\
        (forall g, In g gates -> In g s) /\
        Forall (fun it => ~ (forall g, In g (snd it) -> In g s)) pre
  | None => Forall (fun it => ~ (forall g, In g (snd it) -> In g s)) items
  end.
Proof.
  induction items as [|[b gates] rest IH]; simpl.
  - constructor.
  - destruct (issubset (py_set gates) s) eqn:E.
    + exists [], gates, rest. split; [reflexivity|]. split; [|constructor].
      intros g Hg. apply (proj1 (issubset_incl _ _) E).
      unfold py_set. now apply nodup_In.
    + assert (Hno : ~ (forall g, In g gates -> In g s)).
      { intros H. assert (issubset (py_set gates) s = true); [|congruence].
        apply issubset_incl. intros x Hx. apply H.
        unfold py_set in Hx. now apply nodup_In in Hx. }
      destruct (first_euler_basis rest s) as [b'|].
      * destruct IH as [pre [gs [post [-> [Hin Hpre]]]]].
        exists ((b, gates) :: pre), gs, post.
        split; [reflexivity|]. split; [exact Hin|].
        constructor; assumption.
      * constructor; assumption.
Qed.

Lemma dict_get_In {V : Type} (d : list (string * V)) (k : string) (v : V) :
  dict_get d k = Some v -> In (k, v) d.
Proof.
  induction d as [|[k' v'] rest IH]; simpl; [discriminate|].
  destruct (String.eqb k k') eqn:E.
  - intros [= ->]. apply String.eqb_eq in E. subst. now left.
  - intros H. right. apply IH, H.
Qed.

(** Whatever element [pop] takes, the two-qubit gate chosen is one of the
    table whose name is requested, and there is none exactly when no name of
    the table is requested. *)
Lemma choose_kak_gate_requested (pop : pyset -> option string)
      (basis_gates : option (list string)) :
  pop_admissible pop ->
  match _choose_kak_gate pop basis_gates with
  | Some g => exists k, In (k, g) kak_gate_names /\ In k (or_empty basis_gates)
  | None => forall k g, In (k, g) kak_gate_names -> ~ In k (or_empty basis_gates)
  end.
Proof.
  intros Hpop. unfold _choose_kak_gate.
  set (kak_gates := intersection _ _).
  assert (Hmem : forall x, In x kak_gates <->
                           In x (or_empty basis_gates) /\
                           In x (map fst kak_gate_names)).
  { intros x. unfold kak_gates, intersection. rewrite filter_In.
    unfold py_set. rewrite nodup_In, set_mem_In. tauto. }
  destruct kak_gates as [|k0 rest] eqn:Ek.
  - intros k g Hin Hk. apply (proj2 (Hmem k)).
    split; [exact Hk|]. apply (in_map fst) in Hin. exact Hin.
  - specialize (Hpop (k0 :: rest)).
    destruct (pop (k0 :: rest)) as [k|]; [|discriminate].
    apply Hmem in Hpop. destruct Hpop as [Hreq Hkey].
    destruct (dict_get kak_gate_names k) as [g|] eqn:Eg.
    + exists k. split; [apply dict_get_In, Eg | exact Hreq].
    + exfalso. simpl in Hkey.
      repeat (destruct Hkey as [<-|Hkey]; [discriminate Eg|]). exact Hkey.
Qed.

Lemma pop_first_admissible : pop_admissible pop_first.
Proof. intros [|x s]; simpl; auto. Qed.

Lemma pop_last_admissible : pop_admissible pop_last.
Proof.
  intros s. unfold pop_last.
  destruct (rev s) as [|x r] eqn:E; simpl.
  - apply (f_equal (@rev string)) in E. now rewrite rev_involutive in E.
  - apply in_rev. rewrite E. now left.
Qed.

(** C7 (the code departs from the claim).  On the requested names
    ["cx"; "cz"] the gate returned by [_choose_kak_gate] is the one
    [set.pop()] happens to take: CX under one admissible behaviour of [pop],
    CZ under another, whereas the first entry of the table is CX. *)
Theorem choose_kak_gate_follows_pop :
  pop_admissible pop_first /\
  pop_admissible pop_last /\
  _choose_kak_gate pop_first (Some ["cx"; "cz"]) = Some CXGate /\
  _choose_kak_gate pop_last (Some ["cx"; "cz"]) = Some CZGate /\
  first_kak_gate kak_gate_names (py_set ["cx"; "cz"]) = Some CXGate.
Proof.
  split; [apply pop_first_admissible|].
  split; [apply pop_last_admissible|].
  repeat split; reflexivity.
Qed.

(** C4, counterexample.  Requested fidelity 1 (the default), "cx" calibrated
    on (0, 1) with error 1/2: the natural direction is [[0, 1]], the physical
    fidelity is 1 - 1/2, the minimum of the two is 1/2, and the decomposer is
    called with 1. *)
Lemma basis_fidelity_is_not_the_minimum :
  let self := mkPass unit (Some ["cx"]) (Some 1%Q) (Some one_way_cx) (Some tt) in
  let node := mkNode unit "unitary" [0; 1] mat0 in
  snd (list_synthesize self node []) =
    [CalQuery "gate_length" "cx" [0; 1];
     CalQuery "gate_length" "cx" [1; 0];
     CalQuery "gate_error" "cx" [0; 1];
     Call2q (Some 1%Q)] /\
  physical unit self 0 1 = Some (1 - (1 # 2))%Q /\
  ~ (1 == min_fidelity (_fidelity _ self) (physical unit self 0 1))%Q.
Proof.
  cbv zeta. split; [reflexivity|]. split; [reflexivity|].
  vm_compute. intros H. discriminate H.
Qed.

(** C9, counterexample.  With an empty set of basis gates a unitary node on
    three qubits is substituted, and the graph returned differs from the
    input. *)
Lemma empty_basis_wide_node_substituted :
  let self := mkPass unit (Some []) (Some 1%Q) None None in
  let node := mkNode unit "unitary" [0; 1; 2] mat0 in
  fst (list_synthesize self node []) = inr (Some (isometry_circuit mat0, None)) /\
  fst (list_run self [node] []) = inr (isometry_circuit mat0) /\
  fst (list_run self [node] []) <> inr [node].
Proof.
  cbv zeta. split; [reflexivity|]. split; [reflexivity|].
  intros H. vm_compute in H. discriminate H.
Qed.

(** On a node calibrated in one direction only, with the basis gate "cz",
    the pass still asks for "cx", and a missing entry for (1, 0) does not
    stop the selection. *)
Example cz_basis_queries_cx :
  let self := mkPass unit (Some ["cz"]) None (Some one_way_cx) (Some tt) in
  let node := mkNode unit "unitary" [0; 1] mat0 in
  _choose_kak_gate pop_first (_basis_gates _ self) = Some CZGate /\
  snd (list_synthesize self node []) =
    [CalQuery "gate_length" "cx" [0; 1];
     CalQuery "gate_length" "cx" [1; 0];
     CalQuery "gate_error" "cx" [0; 1];
     Call2q (Some (1 - (1 # 2))%Q)].
Proof. cbv zeta. split; reflexivity. Qed.

(* ------------------------------------------------------------------ *)
(** ** Further properties of the choice of the bases *)
(* ------------------------------------------------------------------ *)

(** All the gates of an entry of the Euler table are requested. *)
Definition entry_requested (basis_gates : option (list string))
           (entry : string * list string) : Prop :=
  forall g, In g (snd entry) -> In g (or_empty basis_gates).

(** X17.  [_choose_euler_basis] returns the first entry of its table, in the
    order U3, U1X, RR, ZYZ, ZXZ, XYX, all of whose gates are requested, and
    None exactly when no entry has all its gates requested; the result only
    depends on which names are requested, not on their order or
    repetitions. *)
Theorem choose_euler_basis_first_match (basis_gates : option (list string)) :
  match _choose_euler_basis basis_gates with
  | Some b =>
      exists pre gates post,
        euler_basis_names = pre ++ (b, gates) :: post /\
        entry_requested basis_gates (b, gates) /\
        Forall (fun entry => ~ entry_requested basis_gates entry) pre
  | None =>
      Forall (fun entry => ~ entry_requested basis_gates entry) euler_basis_names
  end /\
  (forall l, (forall x, In x (or_empty basis_gates) <-> In x l) ->
             _choose_euler_basis (Some l) = _choose_euler_basis basis_gates).
Proof.
  assert (Hin : forall g, In g (py_set (or_empty basis_gates)) <->
                          In g (or_empty basis_gates))
    by (intros g; apply nodup_In).
  assert (Hent : forall entry : string * list string,
             ~ (forall g, In g (snd entry) -> In g (py_set (or_empty basis_gates))) ->
             ~ entry_requested basis_gates entry).
  { intros entry Hno Hreq. apply Hno. intros g Hg. apply Hin, Hreq, Hg. }
  split.
  - unfold _choose_euler_basis. cbv zeta.
    pose proof (first_euler_basis_first euler_basis_names
                  (py_set (or_empty basis_gates))) as H.
    destruct (first_euler_basis euler_basis_names (py_set (or_empty basis_gates)))
      as [b|].
    + destruct H as [pre [gates [post [E [Hreq Hpre]]]]].
      exists pre, gates, post. split; [exact E|]. split.
      * intros g Hg. apply Hin, Hreq, Hg.
      * eapply Forall_impl; [|exact Hpre]. exact Hent.
    + eapply Forall_impl; [|exact H]. exact Hent.
  - intros l Hl. destruct basis_gates as [l0|].
    + apply choose_euler_basis_same_members. intros x. symmetry. apply Hl.
    + destruct l as [|x l]; [reflexivity|].
      exfalso. apply (proj2 (Hl x)). now left.
Qed.

Lemma kak_gate_names_functional (k : string) (g g' : kak_gate) :
  In (k, g) kak_gate_names -> In (k, g') kak_gate_names -> g = g'.
Proof.
  unfold kak_gate_names. simpl.
  intros [H|[H|[H|[H|[H|[]]]]]] [H'|[H'|[H'|[H'|[H'|[]]]]]]; congruence.
Qed.

(** X18.  Whatever element [set.pop()] takes, [_choose_kak_gate] returns a
    gate of its table whose name is requested, and None exactly when no name
    of the table is requested; when a single name of the table is requested,
    the gate of that name is returned. *)
Theorem choose_kak_gate_among_requested
        (pop : pyset -> option string) (basis_gates : option (list string))
        (Hpop : pop_admissible pop) :
  match _choose_kak_gate pop basis_gates with
  | Some g => exists k, In (k, g) kak_gate_names /\ In k (or_empty basis_gates)
  | None => forall k g, In (k, g) kak_gate_names -> ~ In k (or_empty basis_gates)
  end /\
  (forall k g,
      In (k, g) kak_gate_names -> In k (or_empty basis_gates) ->
      (forall k' g', In (k', g') kak_gate_names ->
                     In k' (or_empty basis_gates) -> k' = k) ->
      _choose_kak_gate pop basis_gates = Some g).
Proof.
  pose proof (choose_kak_gate_requested pop basis_gates Hpop) as H.
  split; [exact H|].
  intros k g Hk Hreq Hone.
  destruct (_choose_kak_gate pop basis_gates) as [g'|].
  - destruct H as [k' [Hk' Hreq']].
    rewrite (Hone k' g' Hk' Hreq') in Hk'.
    f_equal. eapply kak_gate_names_functional; eassumption.
  - exfalso. exact (H k g Hk Hreq).
Qed.

(** ** The further properties on concrete graphs *)

(** A calibration with "cx" on (1, 0) only. *)
Definition reverse_cx : BackendProperties :=
  fun gate qubits =>
    if String.eqb gate "cx" &&
       (if list_eq_dec Nat.eq_dec qubits [1; 0] then true else false)
    then Some (mkCal (3 # 10) (1 # 100))
    else None.

(** A two-qubit decomposer that only returns single-qubit gates. *)
Definition local_circuit (g : kak_gate) (eb : option string) (po : bool)
           (m : matrix unit) (bf : option Q) : list_dag :=
  [mkNode unit "u3" [0] m; mkNode unit "u3" [1] m].

Lemma choose_kak_gate_among_requested_witness :
  _choose_kak_gate pop_last (Some ["rz"; "sx"; "ecr"; "rz"]) = Some ECRGate.
Proof.
  apply (proj2 (choose_kak_gate_among_requested
                  pop_last (Some ["rz"; "sx"; "ecr"; "rz"]) pop_last_admissible)
               "ecr").
  - simpl. auto 10.
  - simpl. auto.
  - intros k' g' Hk' Hr. simpl in Hk', Hr.
    repeat (destruct Hk' as [Hk'|Hk']; [injection Hk' as <- <-|]);
      try contradiction; try reflexivity;
      repeat (destruct Hr as [Hr|Hr]; [discriminate Hr|]); contradiction.
Defined.

Lemma direction_correction_witness :
  let self := mkPass unit (Some ["cx"]) (Some 1%Q) (Some reverse_cx) (Some tt) in
  let node := mkNode unit "unitary" [0; 1] mat0 in
  fst (list_synthesize self node []) =
  inr (Some ([mkNode unit "cx" [0; 1] (mirror unit mat0)], Some [1; 0])).
Proof.
  exact (f_equal fst
           (proj1 (direction_correction
                     unit list_dag list_dag unit nat pop_first
                     euler_gate kak_circuit isometry_circuit (fun c => c)
                     list_two_qubit_ops (fun _ => [0; 1])
                     (mkPass unit (Some ["cx"]) (Some 1%Q) (Some reverse_cx)
                             (Some tt))
                     "unitary" 0 1 mat0 [] CXGate [1; 0]
                     (mkNode unit "cx" [0; 1] mat0) []
                     eq_refl eq_refl eq_refl))).
Defined.

Lemma no_two_qubit_operation_raises_witness :
  let self := mkPass unit (Some ["cx"]) (Some 1%Q) (Some one_way_cx) (Some tt) in
  let node := mkNode unit "unitary" [0; 1] mat0 in
  fst (run unit list_dag list_dag unit nat pop_first
           euler_gate local_circuit isometry_circuit (fun c => c)
           list_named_nodes list_two_qubit_ops (fun _ => [0; 1]) list_substitute
           self [node] []) = inl IndexError.
Proof.
  exact (proj2 (no_two_qubit_operation_raises
                  unit list_dag list_dag unit nat pop_first
                  euler_gate local_circuit isometry_circuit (fun c => c)
                  list_named_nodes list_two_qubit_ops (fun _ => [0; 1])
                  list_substitute
                  (mkPass unit (Some ["cx"]) (Some 1%Q) (Some one_way_cx)
                          (Some tt))
                  "unitary" 0 1 mat0 [mkNode unit "unitary" [0; 1] mat0] []
                  [] CXGate [0; 1] eq_refl eq_refl eq_refl eq_refl)).
Defined.

Lemma run_without_calibration_witness :
  let self := mkPass unit (Some ["cx"; "u3"]) (Some (99 # 100)%Q) None (Some tt) in
  exists dag' calls,
    list_run self [mkNode unit "unitary" [0; 1] mat0;
                   mkNode unit "swap" [1; 2] mat0] [] = (inr dag', [] ++ calls) /\
    Forall (is_call2q_with (requested_only unit self)) calls.
Proof.
  exact (run_without_calibration
           unit list_dag list_dag unit nat pop_first
           euler_gate kak_circuit isometry_circuit (fun c => c)
           list_named_nodes list_two_qubit_ops (fun _ => [0; 1]) list_substitute
           (mkPass unit (Some ["cx"; "u3"]) (Some (99 # 100)%Q) None (Some tt))
           [mkNode unit "unitary" [0; 1] mat0; mkNode unit "swap" [1; 2] mat0]
           [] (or_intror eq_refl)).
Defined.

End Synthesis.

(* ================================================================== *)
(** * Uniformly controlled gates (ucg.py) *)
(* ================================================================== *)

(** ** Complex numbers and arrays *)

Module Complex.

Local Open Scope R_scope.

Definition C : Type := R * R.

Definition Cre (z : C) : R := fst z.
Definition Cim (z : C) : R := snd z.

Definition RtoC (x : R) : C := (x, 0).
Definition C0 : C := (0, 0).
Definition C1 : C := (1, 0).
Definition Ci : C := (0, 1).     (* 1j *)

Definition Cadd (z w : C) : C := (Cre z + Cre w, Cim z + Cim w).
Definition Csub (z w : C) : C := (Cre z - Cre w, Cim z - Cim w).
Definition Copp (z : C) : C := (- Cre z, - Cim z).
Definition Cmul (z w : C) : C :=
  (Cre z * Cre w - Cim z * Cim w, Cre z * Cim w + Cim z * Cre w).
Definition Cconj (z : C) : C := (Cre z, - Cim z).

(** Squared modulus and modulus ([abs]). *)
Definition Cnorm2 (z : C) : R := Cre z * Cre z + Cim z * Cim z.
Definition Cmod (z : C) : R := sqrt (Cnorm2 z).

Definition Cinv (z : C) : C := (Cre z / Cnorm2 z, - Cim z / Cnorm2 z).
Definition Cdiv (z w : C) : C := Cmul z (Cinv w).

(** [cmath.exp] *)
Definition Cexp (z : C) : C := (exp (Cre z) * cos (Cim z), exp (Cre z) * sin (Cim z)).

(** [math.atan2] *)
Definition atan2 (y x : R) : R :=
  if Rlt_dec 0 x then atan (y / x)
  else if Rlt_dec x 0 then
         (if Rle_dec 0 y then atan (y / x) + PI else atan (y / x) - PI)
       else if Rlt_dec 0 y then PI / 2
            else if Rlt_dec y 0 then - PI / 2 else 0.

(** [cmath.phase], in (-pi, pi]. *)
Definition Cphase (z : C) : R := atan2 (Cim z) (Cre z).

(** [cmath.sqrt] and [numpy.sqrt] on a complex number: the principal root. *)
Definition Csqrt (z : C) : C :=
  Cmul (RtoC (sqrt (Cmod z))) (Cexp (Cmul Ci (RtoC (Cphase z / 2)))).

(** Sum of [f 0], ..., [f (n - 1)]. *)
Fixpoint Rsum (n : nat) (f : nat -> R) : R :=
  match n with
  | O => 0
  | S k => Rsum k f + f k
  end.

Fixpoint Csum (n : nat) (f : nat -> C) : C :=
  match n with
  | O => C0
  | S k => Cadd (Csum k f) (f k)
  end.

Definition Rleb (x y : R) : bool := if Rle_dec x y then true else false.
Definition Rltb (x y : R) : bool := if Rlt_dec x y then true else false.

End Complex.

Module UCG.

Import Complex.
Local Close Scope Q_scope.
Local Open Scope string_scope.
Local Open Scope list_scope.

(** A two-dimensional numpy array: its shape and its entries. *)
Record ndarray : Type := mkArray {
  shape0 : nat;
  shape1 : nat;
  item : nat -> nat -> C
}.

(** [np.array([[a, b], [c, d]])] *)
Definition array2 (a b c d : C) : ndarray :=
  mkArray 2 2 (fun i j =>
    match i, j with
    | 0, 0 => a
    | 0, 1 => b
    | 1, 0 => c
    | 1, 1 => d
    | _, _ => C0
    end).

Definition dot (a b : ndarray) : ndarray :=
  mkArray (shape0 a) (shape1 b)
          (fun i j => Csum (shape1 a) (fun k => Cmul (item a i k) (item b k j))).

(** [m * c] for a scalar [c]. *)
Definition scale (m : ndarray) (c : C) : ndarray :=
  mkArray (shape0 m) (shape1 m) (fun i j => Cmul (item m i j) c).

Definition sub (a b : ndarray) : ndarray :=
  mkArray (shape0 a) (shape1 a) (fun i j => Csub (item a i j) (item b i j)).

(** [np.eye(n, m)] *)
Definition eye (n m : nat) : ndarray :=
  mkArray n m (fun i j => if Nat.eqb i j then C1 else C0).

(** [np.linalg.norm] of a matrix: the Frobenius norm. *)
Definition norm (m : ndarray) : R :=
  sqrt (Rsum (shape0 m) (fun i => Rsum (shape1 m) (fun j => Cnorm2 (item m i j)))).

(** [np.linalg.det] of a 2 x 2 matrix. *)
Definition det (x : ndarray) : C :=
  Csub (Cmul (item x 0 0) (item x 1 1)) (Cmul (item x 0 1) (item x 1 0)).

(** [np.diag] of a vector. *)
Definition diag_matrix (d : list C) : ndarray :=
  mkArray (List.length d) (List.length d)
          (fun i j => if Nat.eqb i j then nth i d C0 else C0).

(** [np.flip(u, 1)]: the columns in reverse order. *)
Definition flip_columns (u : ndarray) : ndarray :=
  mkArray (shape0 u) (shape1 u) (fun i j => item u i (shape1 u - 1 - j)).

(** ** The helpers of ucg.py *)

Definition _EPS : R := 1e-10.

Definition _ct (m : ndarray) : ndarray :=
  mkArray (shape1 m) (shape0 m) (fun i j => Cconj (item m j i)).

Definition _h : ndarray :=
  scale (array2 C1 C1 C1 (Copp C1)) (RtoC (1 / sqrt 2)).

Definition _rz (alpha : R) : ndarray :=
  array2 (Cexp (Cmul Ci (RtoC (alpha / 2)))) C0
         C0 (Cexp (Cmul (Copp Ci) (RtoC (alpha / 2)))).

(** [math.isclose(a, b, abs_tol=abs_tol)], with the default [rel_tol]. *)
Definition rel_tol : R := 1e-9.

Definition math_isclose (a b abs_tol : R) : bool :=
  if Req_dec_T a b then true
  else
    let diff := Rabs (b - a) in
    Rleb diff (Rabs (rel_tol * b)) || Rleb diff (Rabs (rel_tol * a))
    || Rleb diff abs_tol.

(** The error measured by [_is_isometry]. *)
Definition isometry_error (m : ndarray) : R :=
  norm (sub (dot (_ct m) m) (eye (shape1 m) (shape1 m))).

Definition _is_isometry (m : ndarray) (eps : R) : bool :=
  let err := isometry_error m in
  math_isclose err 0 eps.

(** ** Exceptions *)

Inductive exn : Type :=
| QiskitError (msg : string)
| ValueError (msg : string)
| IndexError.

Definition E (A : Type) : Type := (exn + A)%type.

Definition ebind {A B} (m : E A) (k : A -> E B) : E B :=
  match m with
  | inl e => inl e
  | inr a => k a
  end.

Notation "x <- m ;; k" := (ebind m (fun x => k))
  (at level 61, m at next level, right associativity).
Notation "' pat <- m ;; k" := (ebind m (fun x => let 'pat := x in k))
  (at level 61, pat pattern, m at next level, right associativity).

(** [l[i]] and [l[i] = v] on a Python list or a one-dimensional array. *)
Definition get {A} (l : list A) (i : nat) : E A :=
  match nth_error l i with
  | Some a => inr a
  | None => inl IndexError
  end.

Fixpoint update {A} (l : list A) (i : nat) (v : A) : list A :=
  match l, i with
  | [], _ => []
  | _ :: t, O => v :: t
  | a :: t, S j => a :: update t j v
  end.

Definition set {A} (l : list A) (i : nat) (v : A) : E (list A) :=
  if Nat.ltb i (List.length l) then inr (update l i v) else inl IndexError.

(** [for i in range(start, start + count)], the body threading a state. *)
Fixpoint for_range_from {S : Type} (start count : nat)
         (body : nat -> S -> E S) (s : S) : E S :=
  match count with
  | O => inr s
  | Datatypes.S c =>
      s' <- body start s ;;
      for_range_from (Datatypes.S start) c body s'
  end.

Definition for_range {S : Type} (n : nat) (body : nat -> S -> E S) (s : S) : E S :=
  for_range_from 0 n body s.

(** ** Construction of the gate *)

(** [math.log2] of the length of a list.  Of the float only two things are
    used: whether it is an integer, which it is exactly for a power of two
    (the double is exact on powers of two, and for the lengths a list can
    have, below 2^48, not an integer otherwise), and its integer part.
    The logarithm of 0 raises. *)
Record log2_value : Type := mkLog2 {
  is_integer : bool;
  to_int : nat
}.

Definition math_log2 (n : nat) : E log2_value :=
  if Nat.eqb n 0 then inl (ValueError "math domain error")
  else inr (mkLog2 (Nat.eqb (2 ^ Nat.log2 n) n) (Nat.log2 n)).

(** The argument [gate_list]: a list of arrays, or something else. *)
Inductive gate_list_arg : Type :=
| PyList (l : list ndarray)
| NotAList.

Record UCGate : Type := mkUCG {
  num_qubits : nat;
  params : list ndarray;
  up_to_diagonal : bool
}.

Definition shape_is_2_2 (gate : ndarray) : bool :=
  Nat.eqb (shape0 gate) 2 && Nat.eqb (shape1 gate) 2.

Definition msg_not_a_list := "The single-qubit unitaries are not provided in a list.".
Definition msg_dimension := "The dimension of a controlled gate is not equal to (2,2).".
Definition msg_empty := "The gate list cannot be empty.".
Definition msg_power_of_2 :=
  "The number of controlled single-qubit gates is not a non negative power of 2.".
Definition msg_not_unitary := "A controlled gate is not unitary.".
Definition msg_controls_not_a_list :=
  "The control qubits must be provided as a list (also if there is only one control qubit).".
Definition msg_target_register :=
  "The target qubit is a QuantumRegister containing more than one qubits.".
Definition msg_control_count :=
  "Number of controlled gates does not correspond to the number of control-qubits.".

(** [UCG.__init__] *)
Definition UCG_init (gate_list : gate_list_arg) (up_to_diag : bool) : E UCGate :=
  match gate_list with
  | NotAList => inl (QiskitError msg_not_a_list)
  | PyList gates =>
      if negb (forallb shape_is_2_2 gates) then inl (QiskitError msg_dimension)
      else if Nat.eqb (List.length gates) 0 then inl (QiskitError msg_empty)
      else
        num_contr <- math_log2 (List.length gates) ;;
        if negb (is_integer num_contr) then inl (QiskitError msg_power_of_2)
        else if negb (forallb (fun gate => _is_isometry gate _EPS) gates)
             then inl (QiskitError msg_not_unitary)
             else inr (mkUCG (to_int num_contr + 1) gates up_to_diag)
  end.

(** The arguments [q_controls] and [q_target] of [ucg]. *)
Inductive controls_arg : Type :=
| ControlRegister (qubits : list nat)
| ControlList (qubits : list nat)
| ControlOther.

Inductive target_arg : Type :=
| TargetRegister (qubits : list nat)
| TargetQubit (qubit : nat).

(** A circuit, for [ucg]: the gates appended with their qubits. *)
Definition circuit_data := list (UCGate * list nat).

(** [QuantumCircuit.ucg]: the result and the circuit afterwards. *)
Definition ucg (self : circuit_data) (gate_list : gate_list_arg)
           (q_controls : controls_arg) (q_target : target_arg)
           (up_to_diag : bool) : E unit * circuit_data :=
  let q_controls' :=
    match q_controls with
    | ControlRegister qs => ControlList qs
    | other => other
    end in
  let checked : E (UCGate * list nat) :=
    q_target' <- match q_target with
                 | TargetRegister [q] => inr q
                 | TargetRegister _ => inl (QiskitError msg_target_register)
                 | TargetQubit q => inr q
                 end ;;
    controls <- match q_controls' with
                | ControlList qs => inr qs
                | _ => inl (QiskitError msg_controls_not_a_list)
                end ;;
    gates <- match gate_list with
             | PyList gates => inr gates
             | NotAList => inl (QiskitError msg_not_a_list)
             end ;;
    num_contr <- math_log2 (List.length gates) ;;
    if negb (is_integer num_contr) then inl (QiskitError msg_power_of_2)
    else if negb (Nat.eqb (to_int num_contr) (List.length controls))
         then inl (QiskitError msg_control_count)
         else
           gate <- UCG_init gate_list up_to_diag ;;
           inr (gate, q_target' :: controls) in
  match checked with
  | inl e => (inl e, self)
  | inr instruction => (inr tt, self ++ [instruction])
  end.

(** ** The decomposition *)

(** The instructions [_dec_ucg] appends to its circuit.  The register [q]
    has the qubits 0, ..., [num_qubits - 1]. *)
Inductive instruction : Type :=
| U3 (theta phi lam : R) (qubits : list nat)
| Squ (u : ndarray) (target : nat)
| Cx (control target : nat)
| Diag (d : list C) (qubits : list nat).

(** The matrix of the gate [u3]: [UGate.to_matrix] of standard_gates/u.py,
    which is defined as an alias of U3. *)
Definition u3_matrix (theta phi lam : R) : ndarray :=
  array2
    (RtoC (cos (theta / 2)))
    (Cmul (Copp (Cexp (Cmul Ci (RtoC lam)))) (RtoC (sin (theta / 2))))
    (Cmul (Cexp (Cmul Ci (RtoC phi))) (RtoC (sin (theta / 2))))
    (Cmul (Cexp (Cmul Ci (RtoC (phi + lam)))) (RtoC (cos (theta / 2)))).

(** [np.binary_repr] of a positive integer, most significant digit first. *)
Fixpoint binary_digits (p : positive) (acc : string) : string :=
  match p with
  | xH => String "1" acc
  | xO p' => binary_digits p' (String "0" acc)
  | xI p' => binary_digits p' (String "1" acc)
  end.

Definition binary_repr (n : nat) : string :=
  match N.of_nat n with
  | N0 => "0"
  | Npos p => binary_digits p ""
  end.

(** [s.rstrip('0')] *)
Fixpoint rstrip_0 (s : string) : string :=
  match s with
  | EmptyString => EmptyString
  | String c rest =>
      match rstrip_0 rest with
      | EmptyString => if Ascii.eqb c "0" then EmptyString else String c EmptyString
      | t => String c t
      end
  end.

(** [len(binary_rep) - len(binary_rep.rstrip('0'))] *)
Definition num_trailing_zeros (i : nat) : nat :=
  let binary_rep := binary_repr (i + 1) in
  String.length binary_rep - String.length (rstrip_0 binary_rep).

(** [[1.0] * n], the value of [np.ones(n)]. *)
Definition ones (n : nat) : list C := repeat C1 n.

(** ** Notions the properties are stated with *)

(** The projector on the second basis vector. *)
Definition second_projector : ndarray := array2 C0 C0 C0 C1.

Definition power_of_two (n : nat) : Prop := exists k, n = 2 ^ k.

(** A gate list no gate can be built from. *)
Definition malformed (gates : list ndarray) : Prop :=
  gates = [] \/
  (exists g, In g gates /\ (shape0 g, shape1 g) <> (2, 2)) \/
  ~ power_of_two (List.length gates) \/
  (exists g, In g gates /\ _is_isometry g _EPS = false).

(** The control qubits [ucg] counts, when they come as a register or list. *)
Definition controls_of (q_controls : controls_arg) : option (list nat) :=
  match q_controls with
  | ControlRegister qs => Some qs
  | ControlList qs => Some qs
  | ControlOther => None
  end.

(** The number of gates is not 2 to the number of control qubits. *)
Definition count_mismatch (gates : list ndarray) (q_controls : controls_arg) : Prop :=
  match controls_of q_controls with
  | Some qs => List.length gates <> 2 ^ List.length qs
  | None => True
  end.

(** Three identity matrices: a length that is not a power of two. *)
Definition three_identities : list ndarray := [eye 2 2; eye 2 2; eye 2 2].

(** The number of trailing zero bits of a positive binary number. *)
Fixpoint ctz (p : positive) : nat :=
  match p with
  | xO p' => S (ctz p')
  | _ => 0
  end.

Definition trailing_zero_bits (n : nat) : nat :=
  match N.of_nat n with
  | N0 => 0
  | Npos p => ctz p
  end.

Definition stripped_length (s : string) : nat :=
  String.length s - String.length (rstrip_0 s).

(** The unitary [1j * I]. *)
Definition phase_gate : ndarray := array2 Ci C0 C0 Ci.

Definition pauli_x : ndarray := array2 C0 C1 C1 C0.

(** An eigensolver and Euler angles to run the decomposition with. *)
Definition eig_i (m : ndarray) : (C * C) * ndarray := ((Ci, Copp Ci), eye 2 2).

Definition angles_0 (m : ndarray) : R * R * R := (0%R, 0%R, 0%R).

Section Decomposition.

(** [np.linalg.eig] on a 2 x 2 matrix: the two eigenvalues and the matrix of
    the eigenvectors.  [_demultiplex_single_uc] calls it on [r.x.r], which
    has the shape of [r], that is (2, 2). *)
Variable eig : ndarray -> (C * C) * ndarray.

(** [euler_angles_1q] of qiskit.quantum_info.synthesis: theta, phi, lambda. *)
Variable euler_angles_1q : ndarray -> R * R * R.

(** [_demultiplex_single_uc] *)
Definition _demultiplex_single_uc (a b : ndarray) : ndarray * ndarray * ndarray :=
  let x := dot a (_ct b) in
  let det_x := det x in
  let x11 := Cdiv (item x 0 0) (Csqrt det_x) in
  let phi := Cphase det_x in
  let r1 := Cexp (Cmul (Cdiv Ci (RtoC 2))
                       (RtoC (PI / 2 - phi / 2 - Cphase x11))) in
  let r2 := Cexp (Cmul (Cdiv Ci (RtoC 2))
                       (RtoC (PI / 2 - phi / 2 + Cphase x11 + PI))) in
  let r := array2 r1 C0 C0 r2 in
  let '((d0, d1), u) := eig (dot (dot r x) r) in
  let '((d0, d1), u) :=
    if Rltb (Cmod (Cadd d0 Ci)) _EPS
    then ((d1, d0), flip_columns u)
    else ((d0, d1), u) in
  let d := diag_matrix [Csqrt d0; Csqrt d1] in
  let v := dot (dot (dot d (_ct u)) (_ct r)) b in
  (v, u, r).

(** The state of the loops of [_dec_ucg_help]. *)
Definition help_state : Type := list ndarray * list C.

(** The innermost loop, over [ucg_index_2], merging [r] into the diagonal. *)
Definition merge_into_diag (num_ucgs len_ucg i : nat) (r : ndarray)
           (diag : list C) : E (list C) :=
  for_range num_ucgs (fun ucg_index_2 diag =>
    let shift_2 := ucg_index_2 * len_ucg in
    let k := 2 * (i + shift_2) in
    dk <- get diag k ;;
    diag <- set diag k
              (Cmul (Cmul dk (item (_ct r) 0 0)) (item (_rz (PI / 2)) 0 0)) ;;
    dk1 <- get diag (k + 1) ;;
    diag <- set diag (k + 1)
              (Cmul (Cmul dk1 (item (_ct r) 1 1)) (item (_rz (PI / 2)) 0 0)) ;;
    let k := len_ucg + k in
    dk <- get diag k ;;
    diag <- set diag k (Cmul dk (Cmul (item r 0 0) (item (_rz (PI / 2)) 1 1))) ;;
    dk1 <- get diag (k + 1) ;;
    set diag (k + 1) (Cmul dk1 (Cmul (item r 1 1) (item (_rz (PI / 2)) 1 1)))
  ) diag.

(** The body of the loop over [i]. *)
Definition demultiplex_step (num_ucgs ucg_index len_ucg i : nat)
           (st : help_state) : E help_state :=
  let '(single_qubit_gates, diag) := st in
  let shift := ucg_index * len_ucg in
  a <- get single_qubit_gates (shift + i) ;;
  b <- get single_qubit_gates (shift + len_ucg / 2 + i) ;;
  let '(v, u, r) := _demultiplex_single_uc a b in
  single_qubit_gates <- set single_qubit_gates (shift + i) v ;;
  single_qubit_gates <- set single_qubit_gates (shift + len_ucg / 2 + i) u ;;
  if Nat.ltb ucg_index (num_ucgs - 1) then
    let k := shift + len_ucg + i in
    gk <- get single_qubit_gates k ;;
    single_qubit_gates <- set single_qubit_gates k
      (scale (dot gk (_ct r)) (item (_rz (PI / 2)) 0 0)) ;;
    let k := k + len_ucg / 2 in
    gk <- get single_qubit_gates k ;;
    single_qubit_gates <- set single_qubit_gates k
      (scale (dot gk r) (item (_rz (PI / 2)) 1 1)) ;;
    inr (single_qubit_gates, diag)
  else
    diag <- merge_into_diag num_ucgs len_ucg i r diag ;;
    inr (single_qubit_gates, diag).

(** [_dec_ucg_help] *)
Definition _dec_ucg_help (self : UCGate) : E help_state :=
  let single_qubit_gates := params self in
  let diag := ones (2 ^ num_qubits self) in
  let num_contr := num_qubits self - 1 in
  for_range num_contr (fun dec_step st =>
    let num_ucgs := 2 ^ dec_step in
    for_range num_ucgs (fun ucg_index st =>
      let len_ucg := 2 ^ (num_contr - dec_step) in
      for_range (len_ucg / 2) (demultiplex_step num_ucgs ucg_index len_ucg) st
    ) st
  ) (single_qubit_gates, diag).

(** The gate placed for the leaf [i], with the Hadamard and Rz(pi/2) gates
    absorbed. *)
Definition absorb (n i : nat) (gate : ndarray) : ndarray :=
  if Nat.eqb i 0 then dot _h gate
  else if Nat.eqb i (n - 1) then dot (dot gate (_rz (PI / 2))) _h
  else dot (dot _h (dot gate (_rz (PI / 2)))) _h.

(** The body of the loop of [_dec_ucg]. *)
Definition place_leaf (single_qubit_gates : list ndarray)
           (q_controls : list nat) (q_target : nat) (i : nat)
           (circuit : list instruction) : E (list instruction) :=
  gate <- get single_qubit_gates i ;;
  let squ := absorb (List.length single_qubit_gates) i gate in
  let circuit := circuit ++ [Squ squ q_target] in
  let q_contr_index := num_trailing_zeros i in
  if negb (Nat.eqb i (List.length single_qubit_gates - 1)) then
    control <- get q_controls q_contr_index ;;
    inr (circuit ++ [Cx control q_target])
  else inr circuit.

(** [_dec_ucg]: the circuit and the diagonal. *)
Definition _dec_ucg (self : UCGate) : E (list instruction * list C) :=
  let diag := ones (2 ^ num_qubits self) in
  let q := seq 0 (num_qubits self) in
  let q_controls := tl q in
  q_target <- get q 0 ;;
  let circuit := [] in
  if Nat.eqb (List.length q_controls) 0 then
    gate <- get (params self) 0 ;;
    let '(theta, phi, lamb) := euler_angles_1q gate in
    inr (circuit ++ [U3 theta phi lamb q], diag)
  else
    '(single_qubit_gates, diag) <- _dec_ucg_help self ;;
    circuit <- for_range (List.length single_qubit_gates)
                 (place_leaf single_qubit_gates q_controls q_target) circuit ;;
    if negb (up_to_diagonal self)
    then inr (circuit ++ [Diag diag q], diag)
    else inr (circuit, diag).

Definition help_inv (T : nat) (st : help_state) : Prop :=
  List.length (fst st) = T /\ List.length (snd st) = 2 * T.

(** The leaf [i] with its absorbed gates on the target, followed, except for
    the last leaf, by the CNOT whose control is the control qubit of index
    [trailing_zero_bits (i + 1)]. *)
Definition leaf_and_cnot (leaves : list ndarray) (q_controls : list nat)
           (q_target : nat) (i : nat) : list instruction :=
  Squ (absorb (List.length leaves) i (nth i leaves (eye 2 2))) q_target ::
  (if Nat.eqb i (List.length leaves - 1) then []
   else [Cx (nth (trailing_zero_bits (i + 1)) q_controls 0) q_target]).

(** ** The isometry check *)

Local Open Scope R_scope.

Ltac Csimpl :=
  unfold Cadd, Csub, Cmul, Copp, Cconj, Cnorm2, RtoC, C0, C1, Ci, Cre, Cim;
  simpl fst; simpl snd.

Lemma norm_nonneg (m : ndarray) : 0 <= norm m.
Proof. apply sqrt_pos. Qed.

Lemma isometry_error_nonneg (m : ndarray) : 0 <= isometry_error m.
Proof. apply norm_nonneg. Qed.

Lemma Rleb_le (x y : R) : Rleb x y = true <-> x <= y.
Proof. unfold Rleb. destruct (Rle_dec x y); split; auto; discriminate. Qed.

(** Against 0 the relative tolerance of [math.isclose] plays no part: the
    test is [a <= abs_tol], or [a = 0]. *)
Lemma math_isclose_0 (a abs_tol : R) :
  0 <= a -> (math_isclose a 0 abs_tol = true <-> a <= abs_tol \/ a = 0).
Proof.
  intros Ha. unfold math_isclose.
  destruct (Req_dec_T a 0) as [E|NE]; [tauto|].
  cbv zeta. rewrite !orb_true_iff, !Rleb_le.
  replace (0 - a) with (- a) by ring.
  rewrite Rabs_Ropp, (Rabs_pos_eq a Ha).
  replace (rel_tol * 0) with 0 by ring. rewrite Rabs_R0.
  rewrite Rabs_pos_eq by (unfold rel_tol; nra).
  unfold rel_tol. split.
  - intros [[H|H]|H]; [lra | nra | now left].
  - intros [H|H]; [now right | contradiction].
Qed.

Lemma Rsum_0 (n : nat) (f : nat -> R) :
  (forall i, (i < n)%nat -> f i = 0) -> Rsum n f = 0.
Proof.
  induction n as [|n IH]; intros H; simpl.
  - reflexivity.
  - rewrite IH by (intros i Hi; apply H; lia).
    rewrite H by lia. ring.
Qed.

(** Row [i] of the identity times its column [j]. *)
Lemma Csum_eye (n i j : nat) :
  Csum n (fun k => Cmul (Cconj (if Nat.eqb k i then C1 else C0))
                        (if Nat.eqb k j then C1 else C0)) =
  if Nat.ltb i n && Nat.eqb i j then C1 else C0.
Proof.
  induction n as [|n IH].
  - reflexivity.
  - simpl Csum. rewrite IH.
    destruct (Nat.eqb_spec n i) as [->|Hni].
    + replace (Nat.ltb i i) with false by (symmetry; apply Nat.ltb_irrefl).
      replace (Nat.ltb i (S i)) with true
        by (symmetry; apply Nat.ltb_lt; lia).
      simpl andb. destruct (Nat.eqb i j); Csimpl; f_equal; ring.
    + assert (Hlt : Nat.ltb i (S n) = Nat.ltb i n).
      { destruct (Nat.ltb_spec i n), (Nat.ltb_spec i (S n)); try reflexivity; lia. }
      rewrite Hlt.
      destruct (Nat.ltb i n && Nat.eqb i j), (Nat.eqb n j);
        Csimpl; f_equal; ring.
Qed.

Lemma isometry_error_eye (n : nat) : isometry_error (eye n n) = 0.
Proof.
  unfold isometry_error, norm. cbn [shape0 shape1 sub dot _ct eye item].
  rewrite Rsum_0; [apply sqrt_0|].
  intros i Hi. apply Rsum_0. intros j Hj.
  rewrite Csum_eye.
  replace (Nat.ltb i n) with true by (symmetry; apply Nat.ltb_lt; exact Hi).
  simpl andb. destruct (Nat.eqb i j); Csimpl; ring.
Qed.

Lemma is_isometry_spec (m : ndarray) (eps : R) :
  _is_isometry m eps = true <-> isometry_error m <= eps \/ isometry_error m = 0.
Proof.
  unfold _is_isometry. cbv zeta.
  apply math_isclose_0, isometry_error_nonneg.
Qed.


Lemma isometry_error_second_projector : isometry_error second_projector = 1.
Proof.
  unfold isometry_error, norm, second_projector.
  cbn [shape0 shape1 sub dot _ct eye item array2 Rsum Csum Nat.eqb].
  rewrite <- sqrt_1 at 1. f_equal. Csimpl. ring.
Qed.



(** ** Rejection of malformed input *)

Local Close Scope R_scope.

Lemma log2_exact_power_of_two (n : nat) :
  Nat.eqb (2 ^ Nat.log2 n) n = true <-> power_of_two n.
Proof.
  rewrite Nat.eqb_eq. split.
  - intros H. exists (Nat.log2 n). now symmetry.
  - intros [k ->]. rewrite Nat.log2_pow2 by lia. reflexivity.
Qed.

Lemma shape_is_2_2_spec (g : ndarray) :
  shape_is_2_2 g = true <-> (shape0 g, shape1 g) = (2, 2).
Proof.
  unfold shape_is_2_2. rewrite andb_true_iff, !Nat.eqb_eq. split.
  - intros [-> ->]. reflexivity.
  - intros [= -> ->]. split; reflexivity.
Qed.

Lemma UCG_init_rejects (gates : list ndarray) (utd : bool) :
  malformed gates ->
  exists msg,
    UCG_init (PyList gates) utd = inl (QiskitError msg) /\
    In msg [msg_dimension; msg_empty; msg_power_of_2; msg_not_unitary].
Proof.
  intros Hbad. unfold UCG_init.
  destruct (forallb shape_is_2_2 gates) eqn:Hshape; simpl negb; cbv iota.
  2: { exists msg_dimension. split; [reflexivity | simpl; auto]. }
  destruct (Nat.eqb (List.length gates) 0) eqn:Hlen.
  { exists msg_empty. split; [reflexivity | simpl; auto]. }
  unfold math_log2. rewrite Hlen. cbn [ebind is_integer to_int].
  destruct (Nat.eqb (2 ^ Nat.log2 (List.length gates)) (List.length gates)) eqn:Hpow;
    simpl negb; cbv iota.
  2: { exists msg_power_of_2. split; [reflexivity | simpl; auto]. }
  destruct (forallb (fun gate => _is_isometry gate _EPS) gates) eqn:Hiso;
    simpl negb; cbv iota.
  2: { exists msg_not_unitary. split; [reflexivity | simpl; auto]. }
  exfalso. destruct Hbad as [-> | [[g [Hg Hs]] | [Hp | [g [Hg Hi]]]]].
  - discriminate Hlen.
  - rewrite forallb_forall in Hshape. apply Hs, shape_is_2_2_spec, Hshape, Hg.
  - apply Hp, log2_exact_power_of_two, Hpow.
  - rewrite forallb_forall in Hiso. rewrite (Hiso g Hg) in Hi. discriminate Hi.
Qed.

(** A gate list that is not malformed gives a gate on [k + 1] qubits. *)
Lemma UCG_init_accepts (gates : list ndarray) (utd : bool) (k : nat) :
  List.length gates = 2 ^ k ->
  forallb shape_is_2_2 gates = true ->
  forallb (fun gate => _is_isometry gate _EPS) gates = true ->
  UCG_init (PyList gates) utd = inr (mkUCG (k + 1) gates utd).
Proof.
  intros Hlen Hshape Hiso. unfold UCG_init, math_log2.
  rewrite Hshape, Hiso, Hlen. simpl negb. cbv iota.
  assert (Hnz : Nat.eqb (2 ^ k) 0 = false)
    by (apply Nat.eqb_neq, Nat.pow_nonzero; lia).
  rewrite Hnz. cbn [ebind is_integer to_int].
  rewrite Nat.log2_pow2 by lia. rewrite Nat.eqb_refl. reflexivity.
Qed.

(** With a register or list of control qubits whose number does not match a
    (non-empty, power of two) number of gates, [ucg] raises its own error
    before any gate is built. *)
Lemma ucg_rejects_control_count
      (self : circuit_data) (gates : list ndarray) (q_controls : controls_arg)
      (controls : list nat) (q : nat) (utd : bool) :
  controls_of q_controls = Some controls ->
  power_of_two (List.length gates) ->
  List.length gates <> 2 ^ List.length controls ->
  ucg self (PyList gates) q_controls (TargetQubit q) utd =
  (inl (QiskitError msg_control_count), self).
Proof.
  intros Hc Hpow Hne. unfold ucg.
  assert (Hctl : match q_controls with
                 | ControlRegister qs => ControlList qs
                 | other => other
                 end = ControlList controls)
    by (destruct q_controls; simpl in Hc; congruence).
  rewrite Hctl. cbn [ebind]. unfold math_log2.
  destruct Hpow as [k Hk].
  assert (Hnz : Nat.eqb (List.length gates) 0 = false)
    by (apply Nat.eqb_neq; rewrite Hk; apply Nat.pow_nonzero; lia).
  rewrite Hnz. cbn [ebind is_integer to_int].
  rewrite Hk, Nat.log2_pow2 by lia. rewrite Nat.eqb_refl. simpl negb. cbv iota.
  destruct (Nat.eqb_spec k (List.length controls)) as [->|Hk'].
  - exfalso. apply Hne. rewrite Hk. reflexivity.
  - reflexivity.
Qed.


Lemma three_not_power_of_two : ~ power_of_two 3.
Proof.
  intros [k Hk]. destruct k as [|[|k]]; simpl in Hk; lia.
Qed.


(** ** The control qubit of each CNOT *)

Lemma rstrip_0_length (s : string) :
  String.length (rstrip_0 s) <= String.length s.
Proof.
  induction s as [|c s IH]; simpl; [lia|].
  destruct (rstrip_0 s) as [|c' t]; simpl in *.
  - destruct (Ascii.eqb c "0"); simpl; lia.
  - lia.
Qed.

Lemma stripped_length_cons (c : ascii) (s : string) :
  stripped_length (String c s) =
  match rstrip_0 s with
  | EmptyString => if Ascii.eqb c "0" then S (String.length s) else String.length s
  | String _ _ => stripped_length s
  end.
Proof.
  unfold stripped_length. simpl.
  pose proof (rstrip_0_length s) as Hle.
  destruct (rstrip_0 s) as [|c' t]; simpl in *.
  - destruct (Ascii.eqb c "0"); simpl; lia.
  - lia.
Qed.

(** The digits of [p] written before [acc] end in as many zeros as [acc]
    does, and in [ctz p] more when [acc] is made of zeros only. *)
Lemma stripped_length_binary_digits (p : positive) :
  forall acc,
    stripped_length (binary_digits p acc) =
    match rstrip_0 acc with
    | EmptyString => ctz p + String.length acc
    | String _ _ => stripped_length acc
    end.
Proof.
  induction p as [p IH|p IH|]; intros acc; simpl binary_digits.
  - rewrite IH. simpl rstrip_0.
    rewrite stripped_length_cons.
    destruct (rstrip_0 acc); reflexivity.
  - rewrite IH. simpl rstrip_0.
    rewrite stripped_length_cons.
    destruct (rstrip_0 acc); simpl; [lia | reflexivity].
  - rewrite stripped_length_cons.
    destruct (rstrip_0 acc); reflexivity.
Qed.

(** What the code counts on the binary string of [i + 1] is the number of
    trailing zero bits of [i + 1]. *)
Lemma num_trailing_zeros_ctz (i : nat) :
  num_trailing_zeros i = trailing_zero_bits (i + 1).
Proof.
  unfold num_trailing_zeros, trailing_zero_bits, binary_repr. cbv zeta.
  destruct (N.of_nat (i + 1)) as [|p] eqn:E; [lia|].
  fold (stripped_length (binary_digits p "")).
  rewrite stripped_length_binary_digits. simpl. lia.
Qed.

(** [2 ^ ctz p] divides [p], with an odd quotient. *)
Lemma ctz_odd_part (p : positive) :
  exists q, Pos.to_nat p = 2 ^ ctz p * (2 * q + 1).
Proof.
  induction p as [p _|p [q Hq]|].
  - exists (Pos.to_nat p). rewrite Pos2Nat.inj_xI. simpl. lia.
  - exists q. rewrite Pos2Nat.inj_xO, Hq. simpl. lia.
  - exists 0. reflexivity.
Qed.

Lemma trailing_zero_bits_odd_part (n : nat) :
  n <> 0 -> exists q, n = 2 ^ trailing_zero_bits n * (2 * q + 1).
Proof.
  intros Hn. unfold trailing_zero_bits.
  destruct (N.of_nat n) as [|p] eqn:E; [lia|].
  destruct (ctz_odd_part p) as [q Hq]. exists q.
  rewrite <- Hq. apply (f_equal N.to_nat) in E.
  rewrite Nat2N.id in E. subst n. reflexivity.
Qed.

(** Below [2 ^ k] a positive number has fewer than [k] trailing zeros. *)
Lemma trailing_zero_bits_lt (n k : nat) :
  n <> 0 -> n < 2 ^ k -> trailing_zero_bits n < k.
Proof.
  intros Hn Hlt.
  destruct (trailing_zero_bits_odd_part n Hn) as [q Hq].
  apply (Nat.pow_lt_mono_r_iff 2); [lia|].
  assert (2 ^ trailing_zero_bits n <= n) by (rewrite Hq at 2; nia).
  lia.
Qed.

(** ** The loops of the decomposition stay inside their arrays *)

Lemma get_lt {A} (l : list A) (i : nat) (d : A) :
  i < List.length l -> get l i = inr (nth i l d).
Proof.
  intros H. unfold get.
  destruct (nth_error l i) as [a|] eqn:E.
  - now rewrite (nth_error_nth l i d E).
  - apply nth_error_None in E. lia.
Qed.

Lemma set_lt {A} (l : list A) (i : nat) (v : A) :
  i < List.length l -> set l i v = inr (update l i v).
Proof.
  intros H. unfold set.
  destruct (Nat.ltb_spec i (List.length l)); [reflexivity | lia].
Qed.

Lemma update_length {A} (l : list A) (i : nat) (v : A) :
  List.length (update l i v) = List.length l.
Proof.
  revert i. induction l as [|a l IH]; intros [|i]; simpl; auto.
Qed.

(** A loop whose body returns and keeps an invariant returns and keeps it. *)
Lemma for_range_from_inv {S : Type} (Inv : S -> Prop)
      (body : nat -> S -> E S) (count : nat) :
  forall start s,
    Inv s ->
    (forall i s, start <= i < start + count -> Inv s ->
                 exists s', body i s = inr s' /\ Inv s') ->
    exists s', for_range_from start count body s = inr s' /\ Inv s'.
Proof.
  induction count as [|c IH]; intros start s Hs Hbody; simpl.
  - exists s. auto.
  - destruct (Hbody start s) as [s1 [E1 H1]]; [lia | exact Hs |].
    rewrite E1. cbn [ebind].
    apply IH; [exact H1|].
    intros i s2 Hi H2. apply Hbody; [lia | exact H2].
Qed.

Ltac step_get d :=
  match goal with
  | |- context [ebind (get ?l ?i) _] =>
      rewrite (get_lt l i d) by (rewrite ?update_length; nia)
  end; cbn [ebind].

Ltac step_set :=
  match goal with
  | |- context [ebind (set ?l ?i ?v) _] =>
      rewrite (set_lt l i v) by (rewrite ?update_length; nia)
  end; cbn [ebind].

Lemma merge_into_diag_total (N L h i T : nat) (r : ndarray) (diag : list C) :
  L = 2 * h -> i < h -> N * L = T -> List.length diag = 2 * T ->
  exists diag',
    merge_into_diag N L i r diag = inr diag' /\ List.length diag' = 2 * T.
Proof.
  intros HL Hi HT Hd. unfold merge_into_diag, for_range.
  apply (for_range_from_inv (fun d => List.length d = 2 * T)); [exact Hd|].
  intros u2 d [_ Hu] Hlen. simpl in Hu.
  assert (Hbound : 2 * (i + u2 * L) + L + 1 < 2 * T) by nia.
  step_get C0. step_set. step_get C0. step_set. step_get C0. step_set.
  step_get C0.
  rewrite set_lt by (rewrite ?update_length; nia).
  eexists. split; [reflexivity|]. now rewrite !update_length.
Qed.

Lemma demultiplex_step_total (N u L h i T : nat) (st : help_state) :
  L = 2 * h -> L / 2 = h -> i < h -> u < N -> N * L = T ->
  help_inv T st ->
  exists st', demultiplex_step N u L i st = inr st' /\ help_inv T st'.
Proof.
  intros HL Hdiv Hi Hu HT [Hg Hd]. destruct st as [g d]. simpl in Hg, Hd.
  unfold demultiplex_step. rewrite Hdiv.
  assert (Hbound : u * L + h + i < T) by nia.
  step_get (eye 2 2). step_get (eye 2 2).
  destruct (_demultiplex_single_uc _ _) as [[v u'] r].
  step_set. step_set.
  destruct (Nat.ltb_spec u (N - 1)) as [Hlt|Hge].
  - assert (Hbound' : u * L + L + i + h < T) by nia.
    step_get (eye 2 2). step_set. step_get (eye 2 2). step_set.
    eexists. split; [reflexivity|].
    split; simpl; [now rewrite !update_length | exact Hd].
  - destruct (merge_into_diag_total N L h i T r d HL Hi HT Hd) as [d' [-> Hd']].
    cbn [ebind]. eexists. split; [reflexivity|].
    split; simpl; [now rewrite !update_length | exact Hd'].
Qed.

(** [_dec_ucg_help] returns, with as many gates as it was given and a
    diagonal of twice that length. *)
Lemma dec_ucg_help_total (k : nat) (gates : list ndarray) (utd : bool) :
  List.length gates = 2 ^ k ->
  exists leaves diag,
    _dec_ucg_help (mkUCG (S k) gates utd) = inr (leaves, diag) /\
    List.length leaves = 2 ^ k /\
    List.length diag = 2 ^ S k.
Proof.
  intros Hlen. unfold _dec_ucg_help. cbn [num_qubits params].
  replace (S k - 1) with k by lia. cbv zeta.
  assert (Hinv : help_inv (2 ^ k) (gates, ones (2 ^ S k))).
  { split; simpl; [exact Hlen|]. unfold ones. rewrite repeat_length. lia. }
  destruct (for_range_from_inv (help_inv (2 ^ k))
              (fun dec_step st =>
                 for_range (2 ^ dec_step)
                   (fun ucg_index st0 =>
                      for_range (2 ^ (k - dec_step) / 2)
                        (demultiplex_step (2 ^ dec_step) ucg_index
                                          (2 ^ (k - dec_step))) st0) st)
              k 0 _ Hinv) as [[leaves diag] [Hrun [Hl Hd]]].
  - intros dec_step st [_ Hstep] Hst. simpl in Hstep.
    destruct (k - dec_step) as [|e] eqn:He; [lia|].
    assert (HL : 2 ^ S e = 2 * 2 ^ e) by (simpl; lia).
    assert (Hdiv : 2 ^ S e / 2 = 2 ^ e).
    { rewrite HL, Nat.mul_comm. apply Nat.div_mul. lia. }
    assert (HT : 2 ^ dec_step * 2 ^ S e = 2 ^ k).
    { rewrite <- Nat.pow_add_r. f_equal. lia. }
    unfold for_range.
    apply (for_range_from_inv (help_inv (2 ^ k))); [exact Hst|].
    intros ucg_index st0 [_ Hu] Hst0. simpl in Hu.
    unfold for_range. rewrite Hdiv.
    apply (for_range_from_inv (help_inv (2 ^ k))); [exact Hst0|].
    intros i st1 [_ Hi] Hst1. simpl in Hi.
    apply (demultiplex_step_total _ _ _ (2 ^ e)); assumption.
  - exists leaves, diag. unfold for_range in *. rewrite Hrun.
    split; [reflexivity|]. simpl in Hl, Hd. split; [exact Hl|].
    rewrite Hd. simpl. lia.
Qed.

(** ** The circuit assembled by [_dec_ucg] *)

Lemma place_leaf_eval (leaves : list ndarray) (k q_target i : nat)
      (circuit : list instruction) :
  List.length leaves = 2 ^ k -> i < 2 ^ k ->
  place_leaf leaves (seq 1 k) q_target i circuit =
  inr (circuit ++ leaf_and_cnot leaves (seq 1 k) q_target i).
Proof.
  intros Hlen Hi. unfold place_leaf, leaf_and_cnot.
  rewrite (get_lt leaves i (eye 2 2)) by lia. cbn [ebind].
  rewrite num_trailing_zeros_ctz.
  destruct (Nat.eqb_spec i (List.length leaves - 1)) as [Hlast|Hmid]; simpl negb; cbv iota.
  - reflexivity.
  - assert (Htz : trailing_zero_bits (i + 1) < k)
      by (apply trailing_zero_bits_lt; lia).
    rewrite (get_lt (seq 1 k) _ 0) by (rewrite length_seq; exact Htz).
    cbn [ebind]. rewrite <- app_assoc. reflexivity.
Qed.

Lemma place_leaves_eval (leaves : list ndarray) (k q_target : nat) (count : nat) :
  List.length leaves = 2 ^ k ->
  forall start circuit,
    start + count <= 2 ^ k ->
    for_range_from start count (place_leaf leaves (seq 1 k) q_target) circuit =
    inr (circuit ++
         flat_map (leaf_and_cnot leaves (seq 1 k) q_target) (seq start count)).
Proof.
  intros Hlen. induction count as [|c IH]; intros start circuit Hle.
  - simpl. now rewrite app_nil_r.
  - simpl for_range_from. rewrite place_leaf_eval by (assumption || lia).
    cbn [ebind]. rewrite IH by lia. simpl seq. simpl flat_map.
    now rewrite <- app_assoc.
Qed.

(** C3.  With [k + 1 >= 1] controls and [2 ^ (k + 1)] gates, [_dec_ucg]
    returns; its circuit is, for [i] from 0 to [2 ^ (k + 1) - 1], the leaf
    [i] on the target followed, for every [i] but the last, by the CNOT whose
    control is the control qubit of index the number of trailing zero bits of
    [i + 1], an index that one of the [k + 1] controls has.  The first leaf
    is multiplied by a Hadamard on the left, the last by Rz(pi/2) H on the
    right, the leaves between by both. *)
Theorem dec_ucg_gray_code_controls
        (k : nat) (gates : list ndarray) (utd : bool)
        (Hlen : List.length gates = 2 ^ S k) :
  let self := mkUCG (S (S k)) gates utd in
  let n := 2 ^ S k in
  let q := seq 0 (S (S k)) in
  let q_controls := seq 1 (S k) in
  exists leaves diag,
    _dec_ucg_help self = inr (leaves, diag) /\
    List.length leaves = n /\
    _dec_ucg self =
      inr (flat_map (leaf_and_cnot leaves q_controls 0) (seq 0 n) ++
           (if utd then [] else [Diag diag q]), diag) /\
    (forall i, i < n - 1 ->
       trailing_zero_bits (i + 1) < List.length q_controls /\
       leaf_and_cnot leaves q_controls 0 i =
       [Squ (absorb n i (nth i leaves (eye 2 2))) 0;
        Cx (nth (trailing_zero_bits (i + 1)) q_controls 0) 0]) /\
    leaf_and_cnot leaves q_controls 0 (n - 1) =
      [Squ (absorb n (n - 1) (nth (n - 1) leaves (eye 2 2))) 0] /\
    (forall g, absorb n 0 g = dot _h g) /\
    (forall g, absorb n (n - 1) g = dot (dot g (_rz (PI / 2))) _h) /\
    (forall i g, 0 < i < n - 1 ->
       absorb n i g = dot (dot _h (dot g (_rz (PI / 2)))) _h).
Proof.
  intros self n q q_controls.
  destruct (dec_ucg_help_total (S k) gates utd Hlen) as [leaves [diag [Hhelp [Hl Hd]]]].
  assert (Hn : 2 <= n) by (unfold n; simpl; pose proof (Nat.pow_nonzero 2 k); lia).
  exists leaves, diag.
  split; [exact Hhelp|]. split; [exact Hl|]. split.
  - unfold _dec_ucg. subst self. cbn [num_qubits up_to_diagonal]. cbv zeta.
    change (tl (seq 0 (S (S k)))) with (seq 1 (S k)).
    rewrite length_seq. cbn [get nth_error seq ebind Nat.eqb].
    rewrite Hhelp. cbn [ebind].
    unfold for_range. rewrite (place_leaves_eval leaves (S k) 0) by (fold n; lia).
    cbn [ebind app]. rewrite Hl. fold n. fold q.
    destruct utd; simpl negb; cbv iota; [now rewrite app_nil_r | reflexivity].
  - split; [|split; [|split; [|split]]].
    + intros i Hi. unfold q_controls. rewrite length_seq. split.
      * apply trailing_zero_bits_lt; fold n; lia.
      * unfold leaf_and_cnot. rewrite Hl. fold n.
        destruct (Nat.eqb_spec i (n - 1)); [lia | reflexivity].
    + unfold leaf_and_cnot. rewrite Hl. fold n. now rewrite Nat.eqb_refl.
    + intros g. reflexivity.
    + intros g. unfold absorb.
      destruct (Nat.eqb_spec (n - 1) 0); [lia|].
      now rewrite Nat.eqb_refl.
    + intros i g Hi. unfold absorb.
      destruct (Nat.eqb_spec i 0); [lia|].
      destruct (Nat.eqb_spec i (n - 1)); [lia | reflexivity].
Qed.

(** ** A gate without control *)

Local Open Scope R_scope.

Lemma isometry_error_phase_gate : isometry_error phase_gate = 0.
Proof.
  unfold isometry_error, norm, phase_gate.
  cbn [shape0 shape1 sub dot _ct eye item array2 Rsum Csum Nat.eqb].
  match goal with
  | |- sqrt ?x = 0 => replace x with 0; [apply sqrt_0 | Csimpl; ring]
  end.
Qed.

Lemma phase_gate_accepted (utd : bool) :
  UCG_init (PyList [phase_gate]) utd = inr (mkUCG 1 [phase_gate] utd).
Proof.
  apply (UCG_init_accepts [phase_gate] utd 0); try reflexivity.
  simpl. rewrite andb_true_r. apply is_isometry_spec.
  right. apply isometry_error_phase_gate.
Qed.

(** The entry (0, 0) of the matrix of a [u3] gate is real, so it is at
    distance at least 1 from [1j]. *)
Lemma u3_entry_far_from_i (theta phi lam : R) :
  1 <= Cmod (Csub (item (u3_matrix theta phi lam) 0 0) Ci).
Proof.
  unfold Cmod. rewrite <- sqrt_1 at 1. apply sqrt_le_1_alt.
  cbn [u3_matrix array2 item]. Csimpl.
  nra.
Qed.

(** C1 (the code departs from the claim).  The list made of the single gate
    [1j * I] is accepted by [UCG.__init__]; [_dec_ucg] returns for it one
    [u3] gate, with the angles of [euler_angles_1q], and a diagonal of ones,
    whatever [up_to_diagonal] is.  The entry (0, 0) of the matrix of that
    circuit, also when multiplied by the diagonal, is real, while the entry
    of the target is [1j]: the two matrices differ by at least 1 in that
    entry, hence in operator norm. *)
Theorem dec_ucg_without_control_drops_phase (utd : bool) :
  UCG_init (PyList [phase_gate]) utd = inr (mkUCG 1 [phase_gate] utd) /\
  exists theta phi lam,
    _dec_ucg (mkUCG 1 [phase_gate] utd) =
      inr ([U3 theta phi lam [0%nat]], [C1; C1]) /\
    1 <= Cmod (Csub (item (u3_matrix theta phi lam) 0 0)
                    (item phase_gate 0 0)) /\
    1 <= Cmod (Csub (item (dot (diag_matrix [C1; C1])
                               (u3_matrix theta phi lam)) 0 0)
                    (item phase_gate 0 0)).
Proof.
  split; [apply phase_gate_accepted|].
  destruct (euler_angles_1q phase_gate) as [[theta phi] lam] eqn:E.
  exists theta, phi, lam. split; [|split].
  - unfold _dec_ucg. cbn. rewrite E. reflexivity.
  - apply u3_entry_far_from_i.
  - pose proof (u3_entry_far_from_i theta phi lam) as H.
    replace (item (dot (diag_matrix [C1; C1]) (u3_matrix theta phi lam)) 0 0)
      with (item (u3_matrix theta phi lam) 0 0); [exact H|].
    cbn [dot diag_matrix u3_matrix array2 item shape0 shape1 Csum
         List.length Nat.eqb nth].
    Csimpl. f_equal; ring.
Qed.

Local Close Scope R_scope.

(* ------------------------------------------------------------------ *)
(** ** Further properties of ucg.py *)
(* ------------------------------------------------------------------ *)

Local Open Scope R_scope.

(** A complex number of modulus 1. *)
Definition unit_modulus (z : C) : Prop := Cnorm2 z = 1.

(** The gate read from [get_diagonal]: the diagonal of [_dec_ucg]. *)
Definition get_diagonal (self : UCGate) : E (list C) :=
  '(_, diag) <- _dec_ucg self ;;
  inr diag.

Definition is_squ (g : instruction) : bool :=
  match g with Squ _ _ => true | _ => false end.

Definition is_cx (g : instruction) : bool :=
  match g with Cx _ _ => true | _ => false end.

Definition is_diag (g : instruction) : bool :=
  match g with Diag _ _ => true | _ => false end.

Definition is_u3 (g : instruction) : bool :=
  match g with U3 _ _ _ _ => true | _ => false end.

Definition count (p : instruction -> bool) (circuit : list instruction) : nat :=
  List.length (filter p circuit).

(** A CNOT from one of the control qubits 1, ..., [k] to the target 0. *)
Definition cx_on_controls (k : nat) (g : instruction) : Prop :=
  match g with
  | Cx control target => target = 0%nat /\ (1 <= control <= k)%nat
  | _ => True
  end.

Lemma Cnorm2_mul (z w : C) : Cnorm2 (Cmul z w) = Cnorm2 z * Cnorm2 w.
Proof. destruct z, w. Csimpl. ring. Qed.

Lemma Cnorm2_conj (z : C) : Cnorm2 (Cconj z) = Cnorm2 z.
Proof. destruct z. Csimpl. ring. Qed.

Lemma Cnorm2_exp (z : C) : Cnorm2 (Cexp z) = exp (Cre z) * exp (Cre z).
Proof.
  destruct z as [x y]. unfold Cexp, Cnorm2, Cre, Cim. simpl fst. simpl snd.
  pose proof (sin2_cos2 y) as H. unfold Rsqr in H.
  transitivity (exp x * exp x * (sin y * sin y + cos y * cos y)); [ring|].
  rewrite H. ring.
Qed.

(** The exponential of an imaginary number has modulus 1. *)
Lemma unit_modulus_exp (z : C) : Cre z = 0 -> unit_modulus (Cexp z).
Proof.
  intros H. unfold unit_modulus. rewrite Cnorm2_exp, H, exp_0. ring.
Qed.

Lemma unit_modulus_mul (z w : C) :
  unit_modulus z -> unit_modulus w -> unit_modulus (Cmul z w).
Proof.
  unfold unit_modulus. intros Hz Hw. rewrite Cnorm2_mul, Hz, Hw. ring.
Qed.

Lemma unit_modulus_conj (z : C) : unit_modulus z -> unit_modulus (Cconj z).
Proof. unfold unit_modulus. now rewrite Cnorm2_conj. Qed.

Lemma unit_modulus_C1 : unit_modulus C1.
Proof. unfold unit_modulus. Csimpl. ring. Qed.

Lemma rz_entries_unit (alpha : R) :
  unit_modulus (item (_rz alpha) 0 0) /\ unit_modulus (item (_rz alpha) 1 1).
Proof.
  split; cbn [_rz array2 item]; apply unit_modulus_exp; Csimpl; ring.
Qed.

(** A diagonal 2 x 2 matrix with entries of modulus 1 has no isometry
    error. *)
Lemma isometry_error_diag_unit (z1 z2 : C) :
  unit_modulus z1 -> unit_modulus z2 ->
  isometry_error (array2 z1 C0 C0 z2) = 0.
Proof.
  unfold unit_modulus. destruct z1 as [x1 y1], z2 as [x2 y2].
  unfold Cnorm2, Cre, Cim. simpl fst. simpl snd. intros H1 H2.
  unfold isometry_error, norm.
  cbn [shape0 shape1 sub dot _ct eye item array2 Rsum Csum Nat.eqb].
  match goal with
  | |- sqrt ?x = 0 =>
      replace x with ((x1 * x1 + y1 * y1 - 1) * (x1 * x1 + y1 * y1 - 1) +
                      (x2 * x2 + y2 * y2 - 1) * (x2 * x2 + y2 * y2 - 1));
        [rewrite H1, H2;
         replace ((1 - 1) * (1 - 1) + (1 - 1) * (1 - 1)) with 0 by ring;
         apply sqrt_0
        | Csimpl; ring]
  end.
Qed.

(** [1j / 2 * t] is imaginary for a real [t]. *)
Lemma half_i_times_real (t : R) : Cre (Cmul (Cdiv Ci (RtoC 2)) (RtoC t)) = 0.
Proof.
  unfold Cdiv, Cinv, Cmul, Ci, RtoC, Cnorm2, Cre, Cim. simpl fst. simpl snd.
  unfold Rdiv. ring.
Qed.

(** The matrix [r] of [_demultiplex_single_uc] is diagonal with entries of
    modulus 1, whatever the gates and the eigensolver. *)
Lemma demultiplex_r_diagonal (a b v u r : ndarray) :
  _demultiplex_single_uc a b = (v, u, r) ->
  exists r1 r2,
    r = array2 r1 C0 C0 r2 /\ unit_modulus r1 /\ unit_modulus r2.
Proof.
  unfold _demultiplex_single_uc. cbv zeta.
  destruct (eig _) as [[d0 d1] u0].
  destruct (Rltb _ _); intros [= _ _ <-];
    (eexists; eexists; split; [reflexivity|]; split;
     apply unit_modulus_exp, half_i_times_real).
Qed.


Local Close Scope R_scope.

Lemma ebind_inr {A B} (m : E A) (k : A -> E B) (b : B) :
  ebind m k = inr b -> exists a, m = inr a /\ k a = inr b.
Proof. destruct m as [e|a]; simpl; [discriminate|]. intros H. now exists a. Qed.

Lemma get_inr_In {A} (l : list A) (i : nat) (a : A) : get l i = inr a -> In a l.
Proof.
  unfold get. destruct (nth_error l i) as [x|] eqn:E; [|discriminate].
  intros [= <-]. eapply nth_error_In, E.
Qed.

Lemma set_inr {A} (l : list A) (i : nat) (v : A) (l' : list A) :
  set l i v = inr l' -> l' = update l i v.
Proof.
  unfold set. destruct (Nat.ltb i (List.length l)); [|discriminate].
  now intros [= <-].
Qed.

Lemma Forall_update {A} (P : A -> Prop) (l : list A) (i : nat) (v : A) :
  Forall P l -> P v -> Forall P (update l i v).
Proof.
  intros Hl Hv. revert i. induction Hl as [|a l Ha Hl IH]; intros [|i]; simpl;
    constructor; auto.
Qed.

(** What every iteration keeps when it returns, the loop keeps when it
    returns. *)
Lemma for_range_from_preserves {S : Type} (Inv : S -> Prop)
      (body : nat -> S -> E S) (count : nat) :
  (forall i s s', body i s = inr s' -> Inv s -> Inv s') ->
  forall start s s',
    for_range_from start count body s = inr s' -> Inv s -> Inv s'.
Proof.
  intros Hbody. induction count as [|c IH]; intros start s s' H Hs; simpl in H.
  - now injection H as <-.
  - apply ebind_inr in H as [s1 [H1 H2]].
    eapply IH; [exact H2|]. eapply Hbody; eassumption.
Qed.

Lemma merge_into_diag_unit (N L i : nat) (r : ndarray) (diag diag' : list C) :
  unit_modulus (item r 0 0) -> unit_modulus (item r 1 1) ->
  merge_into_diag N L i r diag = inr diag' ->
  Forall unit_modulus diag -> Forall unit_modulus diag'.
Proof.
  intros Hr0 Hr1 H Hd. unfold merge_into_diag, for_range in H.
  revert H Hd. apply for_range_from_preserves.
  clear diag diag'. intros u2 d d' H Hd. cbv zeta in H.
  pose proof (rz_entries_unit (PI / 2)) as [Hz0 Hz1].
  assert (Hc0 : unit_modulus (item (_ct r) 0 0))
    by (cbn [_ct item]; now apply unit_modulus_conj).
  assert (Hc1 : unit_modulus (item (_ct r) 1 1))
    by (cbn [_ct item]; now apply unit_modulus_conj).
  apply ebind_inr in H as [x1 [G1 H]]. apply get_inr_In in G1.
  apply ebind_inr in H as [l1 [S1 H]]. apply set_inr in S1.
  assert (F1 : Forall unit_modulus l1).
  { subst l1. apply Forall_update; [exact Hd|].
    repeat apply unit_modulus_mul; try assumption.
    eapply Forall_forall; eassumption. }
  apply ebind_inr in H as [x2 [G2 H]]. apply get_inr_In in G2.
  apply ebind_inr in H as [l2 [S2 H]]. apply set_inr in S2.
  assert (F2 : Forall unit_modulus l2).
  { subst l2. apply Forall_update; [exact F1|].
    repeat apply unit_modulus_mul; try assumption.
    eapply Forall_forall; eassumption. }
  apply ebind_inr in H as [x3 [G3 H]]. apply get_inr_In in G3.
  apply ebind_inr in H as [l3 [S3 H]]. apply set_inr in S3.
  assert (F3 : Forall unit_modulus l3).
  { subst l3. apply Forall_update; [exact F2|].
    repeat apply unit_modulus_mul; try assumption.
    eapply Forall_forall; eassumption. }
  apply ebind_inr in H as [x4 [G4 H]]. apply get_inr_In in G4.
  apply set_inr in H. subst d'.
  apply Forall_update; [exact F3|].
  repeat apply unit_modulus_mul; try assumption.
  eapply Forall_forall; eassumption.
Qed.

Lemma demultiplex_step_unit (N u L i : nat) (st st' : help_state) :
  demultiplex_step N u L i st = inr st' ->
  Forall unit_modulus (snd st) -> Forall unit_modulus (snd st').
Proof.
  destruct st as [g d], st' as [g' d']. cbn [snd].
  unfold demultiplex_step. intros H Hd.
  apply ebind_inr in H as [a [_ H]].
  apply ebind_inr in H as [b [_ H]].
  destruct (_demultiplex_single_uc a b) as [[v u0] r] eqn:E.
  destruct (demultiplex_r_diagonal a b v u0 r E) as [r1 [r2 [-> [H1 H2]]]].
  apply ebind_inr in H as [g1 [_ H]].
  apply ebind_inr in H as [g2 [_ H]].
  destruct (Nat.ltb u (N - 1)).
  - apply ebind_inr in H as [x1 [_ H]].
    apply ebind_inr in H as [g3 [_ H]].
    apply ebind_inr in H as [x2 [_ H]].
    apply ebind_inr in H as [g4 [_ H]].
    injection H as _ <-. exact Hd.
  - apply ebind_inr in H as [d1 [Hm H]].
    injection H as _ <-.
    eapply merge_into_diag_unit; [| |exact Hm|exact Hd]; assumption.
Qed.

Lemma dec_ucg_help_unit (self : UCGate) (leaves : list ndarray) (diag : list C) :
  _dec_ucg_help self = inr (leaves, diag) -> Forall unit_modulus diag.
Proof.
  unfold _dec_ucg_help, for_range. cbv zeta. intros H.
  change diag with (snd (leaves, diag)).
  assert (H0 : Forall unit_modulus
                      (snd (params self, ones (2 ^ num_qubits self)))).
  { cbn [snd]. unfold ones. apply Forall_forall.
    intros z Hz. apply repeat_spec in Hz. subst z. apply unit_modulus_C1. }
  revert H H0.
  apply (for_range_from_preserves (fun st => Forall unit_modulus (snd st))).
  intros dec_step st st'.
  apply (for_range_from_preserves (fun st => Forall unit_modulus (snd st))).
  intros ucg_index st0 st0'.
  apply (for_range_from_preserves (fun st => Forall unit_modulus (snd st))).
  intros i st1 st1'. apply demultiplex_step_unit.
Qed.

Lemma unit_modulus_Cmod (z : C) : unit_modulus z -> Complex.Cmod z = 1%R.
Proof. unfold unit_modulus, Complex.Cmod. intros ->. apply sqrt_1. Qed.


(** [_dec_ucg] with at least one control, given what [_dec_ucg_help]
    returned. *)
Lemma dec_ucg_eval (k : nat) (gates : list ndarray) (utd : bool)
      (leaves : list ndarray) (diag : list C) :
  List.length leaves = 2 ^ S k ->
  _dec_ucg_help (mkUCG (S (S k)) gates utd) = inr (leaves, diag) ->
  _dec_ucg (mkUCG (S (S k)) gates utd) =
  inr (flat_map (leaf_and_cnot leaves (seq 1 (S k)) 0) (seq 0 (2 ^ S k)) ++
       (if utd then [] else [Diag diag (seq 0 (S (S k)))]), diag).
Proof.
  intros Hl Hhelp. unfold _dec_ucg. cbn [num_qubits up_to_diagonal]. cbv zeta.
  change (tl (seq 0 (S (S k)))) with (seq 1 (S k)).
  rewrite length_seq. cbn [get nth_error seq ebind Nat.eqb].
  rewrite Hhelp. cbn [ebind].
  unfold for_range. rewrite (place_leaves_eval leaves (S k) 0) by lia.
  cbn [ebind app]. rewrite Hl.
  destruct utd; simpl negb; cbv iota; [now rewrite app_nil_r | reflexivity].
Qed.

(** [_dec_ucg] without control: one [u3] gate and a diagonal of ones. *)
Lemma dec_ucg_no_control (gate : ndarray) (utd : bool) :
  _dec_ucg (mkUCG 1 [gate] utd) =
  inr ([U3 (fst (fst (euler_angles_1q gate))) (snd (fst (euler_angles_1q gate)))
           (snd (euler_angles_1q gate)) [0]], [C1; C1]).
Proof.
  unfold _dec_ucg. cbn.
  destruct (euler_angles_1q gate) as [[theta phi] lam]. reflexivity.
Qed.

Lemma count_app (p : instruction -> bool) (c1 c2 : list instruction) :
  count p (c1 ++ c2) = count p c1 + count p c2.
Proof. unfold count. now rewrite filter_app, length_app. Qed.

Lemma count_leaves_squ (leaves : list ndarray) (qc : list nat) (t : nat)
      (l : list nat) :
  count is_squ (flat_map (leaf_and_cnot leaves qc t) l) = List.length l.
Proof.
  induction l as [|i l IH]; [reflexivity|].
  cbn [flat_map]. rewrite count_app, IH. unfold leaf_and_cnot.
  destruct (Nat.eqb i (List.length leaves - 1)); reflexivity.
Qed.

Lemma count_leaves_other (p : instruction -> bool) (leaves : list ndarray)
      (qc : list nat) (t : nat) (l : list nat) :
  (forall m q, p (Squ m q) = false) -> (forall c q, p (Cx c q) = false) ->
  count p (flat_map (leaf_and_cnot leaves qc t) l) = 0.
Proof.
  intros Hs Hc. induction l as [|i l IH]; [reflexivity|].
  cbn [flat_map]. rewrite count_app, IH. unfold leaf_and_cnot, count.
  destruct (Nat.eqb i (List.length leaves - 1)); simpl; rewrite ?Hs, ?Hc;
    reflexivity.
Qed.

(** A CNOT follows every leaf but the last. *)
Lemma count_leaves_cx (leaves : list ndarray) (qc : list nat) (t : nat)
      (l : list nat) :
  count is_cx (flat_map (leaf_and_cnot leaves qc t) l) =
  List.length (filter (fun i => negb (Nat.eqb i (List.length leaves - 1))) l).
Proof.
  induction l as [|i l IH]; [reflexivity|].
  cbn [flat_map filter]. rewrite count_app, IH. unfold leaf_and_cnot, count.
  destruct (Nat.eqb i (List.length leaves - 1)); reflexivity.
Qed.

Lemma filter_all {A} (p : A -> bool) (l : list A) :
  (forall x, In x l -> p x = true) -> filter p l = l.
Proof.
  induction l as [|a l IH]; intros H; simpl; [reflexivity|].
  rewrite (H a) by now left. f_equal. apply IH. intros x Hx. apply H. now right.
Qed.

Lemma all_but_last (n : nat) :
  1 <= n ->
  List.length (filter (fun i => negb (Nat.eqb i (n - 1))) (seq 0 n)) = n - 1.
Proof.
  intros Hn.
  assert (Hs : seq 0 (n - 1 + 1) = seq 0 (n - 1) ++ [n - 1])
    by (rewrite seq_app; reflexivity).
  replace (n - 1 + 1) with n in Hs by lia.
  rewrite Hs, filter_app, length_app. cbn [seq filter Nat.add].
  rewrite Nat.eqb_refl. simpl negb. cbv iota. cbn [List.length].
  rewrite filter_all, length_seq; [lia|].
  intros i Hi. apply in_seq in Hi.
  destruct (Nat.eqb_spec i (n - 1)); [lia | reflexivity].
Qed.

Lemma leaves_cx_on_controls (leaves : list ndarray) (k : nat) (l : list nat) :
  List.length leaves = 2 ^ k ->
  (forall i, In i l -> i < 2 ^ k) ->
  Forall (cx_on_controls k) (flat_map (leaf_and_cnot leaves (seq 1 k) 0) l).
Proof.
  intros Hl Hin. apply Forall_flat_map, Forall_forall. intros i Hi.
  unfold leaf_and_cnot. constructor; [exact I|].
  destruct (Nat.eqb_spec i (List.length leaves - 1)) as [E|NE]; constructor;
    [|constructor].
  cbn [cx_on_controls]. split; [reflexivity|].
  assert (Htz : trailing_zero_bits (i + 1) < k).
  { apply trailing_zero_bits_lt; [lia|]. specialize (Hin i Hi). lia. }
  rewrite seq_nth by exact Htz. lia.
Qed.

Lemma count_by_kind (circuit : list instruction) :
  List.length circuit =
  count is_squ circuit + count is_cx circuit + count is_diag circuit +
  count is_u3 circuit.
Proof.
  unfold count. induction circuit as [|g c IH]; [reflexivity|].
  destruct g; simpl; lia.
Qed.

(** X7.  With [k + 1 >= 1] controls and [2 ^ (k + 1)] gates the circuit of
    [_dec_ucg] has [2 ^ (k + 1)] single-qubit gates, [2 ^ (k + 1) - 1] CNOT
    gates, no [u3] gate, and one diagonal gate exactly when the gate is not
    taken up to a diagonal; every CNOT goes from one of the control qubits
    1, ..., [k + 1] of the register to the target qubit 0. *)
Theorem dec_ucg_gate_counts
        (k : nat) (gates : list ndarray) (utd : bool)
        (Hlen : List.length gates = 2 ^ S k) :
  exists circuit diag,
    _dec_ucg (mkUCG (S (S k)) gates utd) = inr (circuit, diag) /\
    count is_squ circuit = 2 ^ S k /\
    count is_cx circuit = 2 ^ S k - 1 /\
    count is_diag circuit = (if utd then 0 else 1) /\
    count is_u3 circuit = 0 /\
    List.length circuit = 2 * 2 ^ S k - (if utd then 1 else 0) /\
    Forall (cx_on_controls (S k)) circuit.
Proof.
  destruct (dec_ucg_help_total (S k) gates utd Hlen)
    as [leaves [diag [Hhelp [Hl Hd]]]].
  assert (Hn : 2 <= 2 ^ S k)
    by (simpl; pose proof (Nat.pow_nonzero 2 k); lia).
  eexists. exists diag.
  split; [apply (dec_ucg_eval k gates utd leaves diag Hl Hhelp)|].
  assert (Hsq : count is_squ
                  (flat_map (leaf_and_cnot leaves (seq 1 (S k)) 0)
                            (seq 0 (2 ^ S k))) = 2 ^ S k)
    by (rewrite count_leaves_squ; apply length_seq).
  assert (Hcx : count is_cx
                  (flat_map (leaf_and_cnot leaves (seq 1 (S k)) 0)
                            (seq 0 (2 ^ S k))) = 2 ^ S k - 1).
  { rewrite count_leaves_cx, Hl. apply all_but_last. lia. }
  assert (Hd0 : forall p, count p (@nil instruction) = 0) by reflexivity.
  assert (Hd1 : forall p, count p [Diag diag (seq 0 (S (S k)))] =
                          if p (Diag diag (seq 0 (S (S k)))) then 1 else 0).
  { intros p. unfold count. cbn [filter].
    destruct (p (Diag diag (seq 0 (S (S k))))); reflexivity. }
  repeat split.
  - rewrite count_app, Hsq. destruct utd; rewrite ?Hd0, ?Hd1; cbn [is_squ]; lia.
  - rewrite count_app, Hcx. destruct utd; rewrite ?Hd0, ?Hd1; cbn [is_cx]; lia.
  - rewrite count_app, count_leaves_other by reflexivity.
    destruct utd; rewrite ?Hd0, ?Hd1; reflexivity.
  - rewrite count_app, count_leaves_other by reflexivity.
    destruct utd; rewrite ?Hd0, ?Hd1; reflexivity.
  - rewrite count_by_kind, !count_app, Hsq, Hcx.
    rewrite !count_leaves_other by reflexivity.
    destruct utd; rewrite ?Hd0, ?Hd1; cbn [is_squ is_cx is_diag is_u3]; lia.
  - apply Forall_app. split.
    + apply leaves_cx_on_controls; [exact Hl|].
      intros i Hi. apply in_seq in Hi. lia.
    + destruct utd; repeat constructor.
Qed.

Lemma dec_ucg_help_flag (n : nat) (gates : list ndarray) :
  _dec_ucg_help (mkUCG n gates true) = _dec_ucg_help (mkUCG n gates false).
Proof. reflexivity. Qed.


(** X10.  What [_dec_ucg] counts on the binary string of [i + 1] is the
    exponent of the largest power of two dividing [i + 1]: [i + 1] is
    [2 ^ num_trailing_zeros i] times an odd number. *)
Theorem num_trailing_zeros_is_the_power_of_two_in (i : nat) :
  exists q, i + 1 = 2 ^ num_trailing_zeros i * (2 * q + 1).
Proof.
  rewrite num_trailing_zeros_ctz.
  apply trailing_zero_bits_odd_part. lia.
Qed.

Lemma forallb_false_exists {A} (f : A -> bool) (l : list A) :
  forallb f l = false -> exists x, In x l /\ f x = false.
Proof.
  induction l as [|a l IH]; simpl; [discriminate|].
  destruct (f a) eqn:E.
  - intros H. destruct (IH H) as [x [Hx Hf]]. exists x. auto.
  - intros _. exists a. auto.
Qed.

(** [UCG.__init__] either rejects a malformed list or builds the gate. *)
Lemma UCG_init_dichotomy (gates : list ndarray) (utd : bool) :
  (malformed gates /\
   exists msg, UCG_init (PyList gates) utd = inl (QiskitError msg)) \/
  (~ malformed gates /\
   exists k, List.length gates = 2 ^ k /\
             UCG_init (PyList gates) utd = inr (mkUCG (k + 1) gates utd)).
Proof.
  destruct (forallb shape_is_2_2 gates) eqn:Hshape.
  2: { left. assert (Hm : malformed gates).
       { right. left. destruct (forallb_false_exists _ _ Hshape) as [g [Hg Hs]].
         exists g. split; [exact Hg|]. intros E.
         apply shape_is_2_2_spec in E. congruence. }
       split; [exact Hm|].
       destruct (UCG_init_rejects gates utd Hm) as [msg [H _]]. now exists msg. }
  destruct (Nat.eqb_spec (2 ^ Nat.log2 (List.length gates)) (List.length gates))
    as [Hpow|Hpow].
  2: { left. assert (Hm : malformed gates).
       { right. right. left. intros Hp.
         apply log2_exact_power_of_two, Nat.eqb_eq in Hp. contradiction. }
       split; [exact Hm|].
       destruct (UCG_init_rejects gates utd Hm) as [msg [H _]]. now exists msg. }
  destruct (forallb (fun gate => _is_isometry gate _EPS) gates) eqn:Hiso.
  2: { left. assert (Hm : malformed gates).
       { right. right. right.
         destruct (forallb_false_exists _ _ Hiso) as [g [Hg Hi]]. now exists g. }
       split; [exact Hm|].
       destruct (UCG_init_rejects gates utd Hm) as [msg [H _]]. now exists msg. }
  right.
  assert (Hacc : UCG_init (PyList gates) utd =
                 inr (mkUCG (Nat.log2 (List.length gates) + 1) gates utd))
    by (apply UCG_init_accepts; [now symmetry | assumption | assumption]).
  split.
  - intros Hm. destruct (UCG_init_rejects gates utd Hm) as [msg [H _]].
    rewrite Hacc in H. discriminate H.
  - exists (Nat.log2 (List.length gates)). split; [now symmetry | exact Hacc].
Qed.

(** X1.  [UCG.__init__] accepts exactly the gate lists that are not
    malformed: a malformed list is rejected with a [QiskitError], and any
    other list, of length [2 ^ k], gives the gate on [k + 1] qubits that
    holds the list and the flag unchanged. *)
Theorem UCG_init_accepts_exactly_well_formed (gates : list ndarray) (utd : bool) :
  (malformed gates /\
   exists msg, UCG_init (PyList gates) utd = inl (QiskitError msg)) \/
  (~ malformed gates /\
   exists k, List.length gates = 2 ^ k /\
             UCG_init (PyList gates) utd = inr (mkUCG (k + 1) gates utd)).
Proof. apply UCG_init_dichotomy. Qed.

(** The target qubit [ucg] acts on, when it is a qubit or a register of one
    qubit. *)
Definition target_of (q_target : target_arg) : option nat :=
  match q_target with
  | TargetRegister [q] => Some q
  | TargetRegister _ => None
  | TargetQubit q => Some q
  end.

(** X2.  On a gate list that is not malformed, with as many control qubits
    (given as a list or as a register) as the list asks for and one target
    qubit (given as a qubit or as a register of size one), [ucg] appends
    exactly one instruction to the circuit: the gate on [k + 1] qubits
    holding the list, on the target followed by the controls.  What the
    circuit held before is kept. *)
Theorem ucg_appends_one_gate
        (self : circuit_data) (gates : list ndarray) (utd : bool)
        (q_controls : controls_arg) (controls : list nat)
        (q_target : target_arg) (q : nat)
        (Hc : controls_of q_controls = Some controls)
        (Ht : target_of q_target = Some q)
        (Hok : ~ malformed gates)
        (Hcount : List.length gates = 2 ^ List.length controls) :
  ucg self (PyList gates) q_controls q_target utd =
  (inr tt,
   self ++ [(mkUCG (List.length controls + 1) gates utd, q :: controls)]).
Proof.
  destruct (UCG_init_dichotomy gates utd) as [[Hm _]|[_ [k [Hk Hinit]]]];
    [contradiction|].
  assert (Hkc : k = List.length controls).
  { apply (Nat.pow_inj_r 2); [lia|]. rewrite <- Hk. exact Hcount. }
  subst k.
  assert (Hnz : Nat.eqb (List.length gates) 0 = false)
    by (apply Nat.eqb_neq; rewrite Hcount; apply Nat.pow_nonzero; lia).
  unfold ucg.
  destruct q_target as [[|q0 [|q1 qs]]|q0]; simpl in Ht; try discriminate Ht;
    injection Ht as ->.
  all: destruct q_controls as [cs|cs|]; simpl in Hc; try discriminate Hc;
    injection Hc as ->.
  all: cbn [ebind]; unfold math_log2; rewrite Hnz; cbn [ebind is_integer to_int];
    rewrite Hcount, Nat.log2_pow2 by lia; rewrite !Nat.eqb_refl;
    simpl negb; cbv iota; rewrite Hinit; reflexivity.
Qed.

Local Open Scope R_scope.

(** [cos x + 1j sin x] *)
Definition cis (x : R) : C := (cos x, sin x).

Lemma Cexp_i (x : R) : Cexp (Cmul Ci (RtoC x)) = cis x.
Proof.
  unfold Cexp, cis, Cmul, Ci, RtoC, Cre, Cim. simpl fst. simpl snd.
  replace (0 * x - 1 * 0) with 0 by ring.
  replace (0 * 0 + 1 * x) with x by ring.
  rewrite exp_0. f_equal; ring.
Qed.

Lemma Cexp_minus_i (x : R) : Cexp (Cmul (Copp Ci) (RtoC x)) = cis (- x).
Proof.
  unfold Cexp, cis, Cmul, Copp, Ci, RtoC, Cre, Cim. simpl fst. simpl snd.
  replace (- 0 * x - - (1) * 0) with 0 by ring.
  replace (- 0 * 0 + - (1) * x) with (- x) by ring.
  rewrite exp_0. f_equal; ring.
Qed.

Lemma cis_add (x y : R) : Cmul (cis x) (cis y) = cis (x + y).
Proof.
  unfold cis, Cmul, Cre, Cim. simpl fst. simpl snd.
  rewrite cos_plus, sin_plus. f_equal; ring.
Qed.

Lemma cis_conj (x : R) : Cconj (cis x) = cis (- x).
Proof. unfold cis, Cconj, Cre, Cim. simpl. now rewrite cos_neg, sin_neg. Qed.

Lemma rz_cis (alpha : R) :
  _rz alpha = array2 (cis (alpha / 2)) C0 C0 (cis (- (alpha / 2))).
Proof. unfold _rz. now rewrite Cexp_i, Cexp_minus_i. Qed.

(** A matrix whose product with its conjugate transpose has the entries of
    the identity has no isometry error. *)
Lemma isometry_error_0 (m : ndarray) :
  (forall i j, (i < shape1 m)%nat -> (j < shape1 m)%nat ->
               item (dot (_ct m) m) i j = item (eye (shape1 m) (shape1 m)) i j) ->
  isometry_error m = 0.
Proof.
  intros H. unfold isometry_error, norm.
  cbn [shape0 shape1 sub dot _ct].
  rewrite Rsum_0; [apply sqrt_0|].
  intros i Hi. apply Rsum_0. intros j Hj.
  cbn [item sub]. rewrite (H i j Hi Hj).
  destruct (item (eye (shape1 m) (shape1 m)) i j). Csimpl. ring.
Qed.

Lemma half_sqrt2 : 1 / sqrt 2 * (1 / sqrt 2) = 1 / 2.
Proof.
  assert (H2 : sqrt 2 * sqrt 2 = 2) by (apply sqrt_sqrt; lra).
  assert (Hpos : 0 < sqrt 2) by (apply sqrt_lt_R0; lra).
  replace (1 / sqrt 2 * (1 / sqrt 2)) with (1 / (sqrt 2 * sqrt 2))
    by (field; lra).
  rewrite H2. reflexivity.
Qed.

(** Two arrays of the same shape with the same entries. *)
Definition same_array (a b : ndarray) : Prop :=
  shape0 a = shape0 b /\ shape1 a = shape1 b /\
  forall i j, (i < shape0 a)%nat -> (j < shape1 a)%nat ->
              item a i j = item b i j.

(** To compare two 2 x 2 arrays, compare their four entries. *)
Lemma same_array_2_2 (a b : ndarray) :
  shape0 a = 2%nat -> shape1 a = 2%nat ->
  shape0 b = 2%nat -> shape1 b = 2%nat ->
  item a 0 0 = item b 0 0 -> item a 0 1 = item b 0 1 ->
  item a 1 0 = item b 1 0 -> item a 1 1 = item b 1 1 ->
  same_array a b.
Proof.
  intros Ha0 Ha1 Hb0 Hb1 H00 H01 H10 H11.
  split; [congruence|]. split; [congruence|].
  rewrite Ha0, Ha1. intros i j Hi Hj.
  destruct i as [|[|i]]; [| |lia]; destruct j as [|[|j]]; (assumption || lia).
Qed.

Lemma h_squared : same_array (dot _h _h) (eye 2 2).
Proof.
  pose proof half_sqrt2 as Hs.
  apply same_array_2_2; try reflexivity;
    cbn [dot _h scale array2 item shape0 shape1 Csum eye Nat.eqb];
    Csimpl; revert Hs; generalize (1 / sqrt 2); intros s Hs;
    f_equal; nra.
Qed.

Lemma h_hermitian : same_array (_ct _h) _h.
Proof.
  apply same_array_2_2; try reflexivity;
    cbn [_ct _h scale array2 item]; Csimpl; f_equal; ring.
Qed.

Lemma isometry_error_h : isometry_error _h = 0.
Proof.
  pose proof half_sqrt2 as Hs.
  apply isometry_error_0. change (shape1 _h) with 2%nat. intros i j Hi Hj.
  destruct i as [|[|i]]; [| |lia]; destruct j as [|[|j]]; try lia;
    cbn [dot _ct _h scale array2 item shape0 shape1 Csum eye Nat.eqb];
    Csimpl; revert Hs; generalize (1 / sqrt 2); intros s Hs;
    f_equal; nra.
Qed.



Lemma Cconj_add (z w : C) : Cconj (Cadd z w) = Cadd (Cconj z) (Cconj w).
Proof. destruct z, w. Csimpl. f_equal; ring. Qed.

Lemma Cconj_mul (z w : C) : Cconj (Cmul z w) = Cmul (Cconj w) (Cconj z).
Proof. destruct z, w. Csimpl. f_equal; ring. Qed.

Lemma Cconj_involutive (z : C) : Cconj (Cconj z) = z.
Proof. destruct z. Csimpl. f_equal; ring. Qed.

Lemma Csum_conj (n : nat) (f : nat -> C) :
  Cconj (Csum n f) = Csum n (fun k => Cconj (f k)).
Proof.
  induction n as [|n IH]; simpl.
  - Csimpl. f_equal; ring.
  - now rewrite Cconj_add, IH.
Qed.

Lemma Csum_ext (n : nat) (f g : nat -> C) :
  (forall k, f k = g k) -> Csum n f = Csum n g.
Proof. intros H. induction n as [|n IH]; simpl; [reflexivity|]. now rewrite IH, H. Qed.

(** X6.  The conjugate transpose of [_ct] exchanges the two dimensions, is an
    involution, and reverses a product: for [a] and [b] that can be
    multiplied, [_ct (a.b)] is [_ct b . _ct a]. *)
Theorem ct_reverses_products (a b : ndarray) (H : shape1 a = shape0 b) :
  (shape0 (_ct a), shape1 (_ct a)) = (shape1 a, shape0 a) /\
  same_array (_ct (_ct a)) a /\
  same_array (_ct (dot a b)) (dot (_ct b) (_ct a)).
Proof.
  split; [reflexivity|]. split.
  - split; [reflexivity|]. split; [reflexivity|].
    intros i j _ _. cbn [_ct item]. apply Cconj_involutive.
  - split; [reflexivity|]. split; [reflexivity|].
    intros i j _ _. cbn [_ct dot item shape0 shape1].
    rewrite Csum_conj, <- H. apply Csum_ext. intros k. apply Cconj_mul.
Qed.

Local Close Scope R_scope.

End Decomposition.

(** ** One control: the gates I and X *)

Lemma dec_ucg_gray_code_controls_witness :
  exists l0 l1 diag,
    _dec_ucg eig_i angles_0 (mkUCG 2 [eye 2 2; pauli_x] false) =
    inr ([Squ (dot _h l0) 0;
          Cx 1 0;
          Squ (dot (dot l1 (_rz (PI / 2))) _h) 0;
          Diag diag [0; 1]], diag).
Proof.
  destruct (dec_ucg_gray_code_controls eig_i angles_0 0 [eye 2 2; pauli_x]
              false eq_refl)
    as [leaves [diag [_ [Hl [Hdec _]]]]].
  destruct leaves as [|l0 [|l1 [|l2 rest]]]; try discriminate Hl.
  exists l0, l1, diag. exact Hdec.
Defined.

(** ** The further properties on the gates I and X, and on 1j * I *)


Lemma dec_ucg_gate_counts_witness :
  exists circuit diag,
    _dec_ucg eig_i angles_0 (mkUCG 2 [eye 2 2; pauli_x] true) =
      inr (circuit, diag) /\
    count is_squ circuit = 2 /\
    count is_cx circuit = 1 /\
    count is_diag circuit = 0 /\
    count is_u3 circuit = 0 /\
    List.length circuit = 3 /\
    Forall (cx_on_controls 1) circuit.
Proof.
  exact (dec_ucg_gate_counts eig_i angles_0 0 [eye 2 2; pauli_x] true eq_refl).
Defined.


Lemma phase_gate_not_malformed : ~ malformed [phase_gate].
Proof.
  intros Hm. destruct (UCG_init_rejects [phase_gate] false Hm) as [msg [H _]].
  rewrite phase_gate_accepted in H. discriminate H.
Qed.

Lemma ucg_appends_one_gate_witness :
  ucg [] (PyList [phase_gate]) (ControlRegister []) (TargetRegister [0]) false =
  (inr tt, [(mkUCG 1 [phase_gate] false, [0])]).
Proof.
  exact (ucg_appends_one_gate [] [phase_gate] false (ControlRegister []) []
                              (TargetRegister [0]) 0 eq_refl eq_refl
                              phase_gate_not_malformed eq_refl).
Defined.

Lemma ct_reverses_products_witness :
  (shape0 (_ct _h), shape1 (_ct _h)) = (shape1 _h, shape0 _h) /\
  same_array (_ct (_ct _h)) _h /\
  same_array (_ct (dot _h pauli_x)) (dot (_ct pauli_x) (_ct _h)).
Proof.
  exact (ct_reverses_products _h pauli_x eq_refl).
Defined.

End UCG.

(* ================================================================== *)
(** * The U gate (standard_gates/u.py) *)
(* ================================================================== *)

Module UGate.

Import Complex UCG.
Local Close Scope Q_scope.
Local Open Scope R_scope.

(** A gate [UGate(theta, phi, lam)], by its parameters. *)
Record UGate : Type := mkU {
  theta : R;
  phi : R;
  lam : R
}.

(** [UGate.inverse] *)
Definition inverse (self : UGate) : UGate :=
  mkU (- theta self) (- lam self) (- phi self).

(** [UGate.to_matrix] *)
Definition to_matrix (self : UGate) : ndarray :=
  u3_matrix (theta self) (phi self) (lam self).

Lemma to_matrix_cis (g : UGate) :
  to_matrix g =
  array2 (RtoC (cos (theta g / 2)))
         (Cmul (Copp (cis (lam g))) (RtoC (sin (theta g / 2))))
         (Cmul (cis (phi g)) (RtoC (sin (theta g / 2))))
         (Cmul (cis (phi g + lam g)) (RtoC (cos (theta g / 2)))).
Proof. unfold to_matrix, u3_matrix. now rewrite !Cexp_i. Qed.

Ltac Csimpl :=
  unfold Cadd, Csub, Cmul, Copp, Cconj, Cnorm2, RtoC, C0, C1, Ci, Cre, Cim;
  simpl fst; simpl snd.

(** The entries of the matrices of a gate and of its inverse become
    polynomials in the sines and cosines of theta / 2, phi and lam. *)
Ltac trig_normal g :=
  rewrite ?to_matrix_cis; cbn [inverse theta phi lam];
  replace (- theta g / 2) with (- (theta g / 2)) by field;
  replace (- lam g + - phi g) with (- (phi g + lam g)) by ring;
  cbn [dot _ct array2 item shape0 shape1 Csum eye Nat.eqb];
  unfold cis; rewrite ?cos_neg, ?sin_neg, ?cos_plus, ?sin_plus; Csimpl.

Ltac trig_solve g :=
  let Ht := fresh in let Hp := fresh in let Hl := fresh in
  pose proof (sin2_cos2 (theta g / 2)) as Ht;
  pose proof (sin2_cos2 (phi g)) as Hp;
  pose proof (sin2_cos2 (lam g)) as Hl;
  unfold Rsqr in Ht, Hp, Hl; revert Ht Hp Hl;
  generalize (cos (theta g / 2)) (sin (theta g / 2))
             (cos (phi g)) (sin (phi g)) (cos (lam g)) (sin (lam g));
  intros; f_equal; nsatz.

Lemma inverse_is_ct (g : UGate) :
  same_array (to_matrix (inverse g)) (_ct (to_matrix g)).
Proof.
  apply same_array_2_2; try reflexivity; trig_normal g; f_equal; ring.
Qed.

Lemma inverse_times_gate (g : UGate) :
  same_array (dot (to_matrix (inverse g)) (to_matrix g)) (eye 2 2).
Proof.
  apply same_array_2_2; try reflexivity; trig_normal g; trig_solve g.
Qed.

Lemma gate_times_inverse (g : UGate) :
  same_array (dot (to_matrix g) (to_matrix (inverse g))) (eye 2 2).
Proof.
  apply same_array_2_2; try reflexivity; trig_normal g; trig_solve g.
Qed.


Lemma isometry_error_to_matrix (g : UGate) : isometry_error (to_matrix g) = 0.
Proof.
  apply isometry_error_0. change (shape1 (to_matrix g)) with 2%nat.
  intros i j Hi Hj.
  destruct i as [|[|i]]; [| |lia]; destruct j as [|[|j]]; try lia;
    trig_normal g; trig_solve g.
Qed.


End UGate.

(** * The timeline drawer: [qiskit/visualization/timeline/events.py], the
      event table of [qiskit/visualization/timeline_visualization.py] and
      the container of [qiskit/visualization/timeline/core_drawer.py]

    The events of one register are the instructions of the scheduled circuit
    that act on it, each with the time at which it starts.  Times and
    durations are rationals.  The classes of instructions that the code
    tells apart with [isinstance] are [Barrier], [Delay] and the others. *)

Module Timeline.

Local Close Scope Q_scope.
Local Open Scope string_scope.
Local Open Scope list_scope.

(** [circuit.Qubit] and [circuit.Clbit]; two bits are equal when they are of
    the same class and at the same place. *)
Inductive bit : Type :=
| Qubit (index : nat)
| Clbit (index : nat).

Definition bit_eqb (a b : bit) : bool :=
  match a, b with
  | Qubit i, Qubit j => Nat.eqb i j
  | Clbit i, Clbit j => Nat.eqb i j
  | _, _ => false
  end.

Inductive op_class : Type := Barrier | Delay | Gate.

Definition op_class_eqb (a b : op_class) : bool :=
  match a, b with
  | Barrier, Barrier | Delay, Delay | Gate, Gate => true
  | _, _ => false
  end.

(** An instruction: its class, its [name] and its [duration] attribute,
    which is None unless it was set. *)
Record Instruction : Type := mkOp {
  class_of : op_class;
  name : string;
  op_duration : option Q
}.

Definition isinstance (operand : Instruction) (classes : list op_class) : bool :=
  existsb (op_class_eqb (class_of operand)) classes.

Record DAGNode : Type := mkNode {
  op : Instruction;
  qargs : list bit;
  cargs : list bit
}.

(** [InstData = namedtuple('InstData', 't0 operand duration regs')] *)
Record InstData : Type := mkInst {
  t0 : Q;
  operand : Instruction;
  duration : Q;
  regs : list bit
}.

Inductive exn : Type :=
| TranspilerError
| TypeError
| ValueError
| KeyError
| IndexError.

Definition E (A : Type) : Type := (exn + A)%type.

Definition ebind {A B : Type} (m : E A) (f : A -> E B) : E B :=
  match m with
  | inl e => inl e
  | inr a => f a
  end.

Notation "x <- m ;; k" := (ebind m (fun x => k))
  (at level 61, m at next level, right associativity).

(** [x in l] on a list of bits and on a list of strings. *)
Definition bit_in (x : bit) (l : list bit) : bool := existsb (bit_eqb x) l.

Definition str_in (x : string) (l : list string) : bool :=
  existsb (String.eqb x) l.

(** [l.index(x)]: the place of the first element equal to [x]; a
    [ValueError] when there is none. *)
Fixpoint index (x : bit) (l : list bit) : E nat :=
  match l with
  | [] => inl ValueError
  | y :: l' =>
      if bit_eqb y x then inr 0
      else n <- index x l' ;; inr (S n)
  end.

(** ** [RegisterEvents] *)

Record RegisterEvents : Type := mkEvents {
  reg : bit;
  instructions : list InstData
}.

Definition _auxiliary_type : list op_class := [Barrier].

Fixpoint is_empty_from (l : list InstData) : bool :=
  match l with
  | [] => true
  | inst_data :: l' =>
      if negb (isinstance (operand inst_data) (_auxiliary_type ++ [Delay]))
      then false
      else is_empty_from l'
  end.

Definition is_empty (self : RegisterEvents) : bool :=
  is_empty_from (instructions self).

Definition gates (self : RegisterEvents) : list InstData :=
  filter (fun inst_data => negb (isinstance (operand inst_data) _auxiliary_type))
         (instructions self).

(** The test of [barriers] on one instruction; [and] evaluates [index] only
    on a barrier. *)
Definition is_barrier_of (r : bit) (inst_data : InstData) : E bool :=
  if isinstance (operand inst_data) [Barrier]
  then i <- index r (regs inst_data) ;; inr (Nat.eqb i 0)
  else inr false.

Fixpoint barriers_from (r : bit) (l : list InstData) : E (list InstData) :=
  match l with
  | [] => inr []
  | inst_data :: l' =>
      keep <- is_barrier_of r inst_data ;;
      rest <- barriers_from r l' ;;
      inr (if keep : bool then inst_data :: rest else rest)
  end.

Definition barriers (self : RegisterEvents) : E (list InstData) :=
  barriers_from (reg self) (instructions self).

(** The test of [register_links] on one instruction. *)
Definition is_link_of (r : bit) (inst_data : InstData) : E bool :=
  if negb (isinstance (operand inst_data) _auxiliary_type)
  then if Nat.ltb 1 (List.length (regs inst_data))
       then i <- index r (regs inst_data) ;; inr (Nat.eqb i 0)
       else inr false
  else inr false.

Definition link_of (inst_data : InstData) : InstData :=
  let xpos := (t0 inst_data + (1 # 2) * duration inst_data)%Q in
  mkInst xpos (operand inst_data) (duration inst_data) (regs inst_data).

Fixpoint register_links_from (r : bit) (l : list InstData) : E (list InstData) :=
  match l with
  | [] => inr []
  | inst_data :: l' =>
      keep <- is_link_of r inst_data ;;
      rest <- register_links_from r l' ;;
      inr (if keep : bool then link_of inst_data :: rest else rest)
  end.

Definition register_links (self : RegisterEvents) : E (list InstData) :=
  register_links_from (reg self) (instructions self).

(** ** [DrawDataContainer]

    The container holds the position table, which gives a bit its row or
    None when the bit is not shown, the drawings and the number of rows; of
    the style the code embedded here reads the spacing
    [style.link_h_spacing].  A drawing is bound to one bit or to several,
    and its offset is the row of the bit or the list of the rows of the
    bits. *)

Inductive offset_value : Type :=
| Single (y : option Z)
| Several (ys : list (option Z)).

Record drawing : Type := mkDrawing {
  data_type : string;
  bind : list bit;
  offset : offset_value;
  visible : bool
}.

Record DrawDataContainer : Type := mkContainer {
  link_h_spacing : Q;
  position_table : list (bit * option Z);
  drawing_objs : list drawing;
  num_channel : nat
}.

(** [position_table[k]] *)
Fixpoint getitem (table : list (bit * option Z)) (k : bit) : E (option Z) :=
  match table with
  | [] => inl KeyError
  | (k', v) :: table' => if bit_eqb k' k then inr v else getitem table' k
  end.

(** [regs[0]] and [regs[-1]] *)
Definition first_of (l : list bit) : E bit :=
  match l with
  | [] => inl IndexError
  | x :: _ => inr x
  end.

Definition last_of (l : list bit) : E bit :=
  match rev l with
  | [] => inl IndexError
  | x :: _ => inr x
  end.

(** A row used as a number. *)
Definition int_of (v : option Z) : E Z :=
  match v with
  | Some z => inr z
  | None => inl TypeError
  end.

Definition Qltb (a b : Q) : bool := negb (Qle_bool b a).

(** [links[ind]] and [links.pop(ind)] *)
Definition getlink (links : list InstData) (ind : nat) : E InstData :=
  match nth_error links ind with
  | Some link => inr link
  | None => inl IndexError
  end.

Definition pop_at (links : list InstData) (ind : nat) : list InstData :=
  firstn ind links ++ skipn (S ind) links.

(** The test on the rows of two links that are close in time. *)
Definition rows_overlap (self : DrawDataContainer) (ref_link link : InstData)
  : E bool :=
  r <- first_of (regs ref_link) ;; y0_min <- getitem (position_table self) r ;;
  r <- last_of (regs ref_link) ;; y0_max <- getitem (position_table self) r ;;
  r <- first_of (regs link) ;; y1_min <- getitem (position_table self) r ;;
  r <- last_of (regs link) ;; y1_max <- getitem (position_table self) r ;;
  y0_min <- int_of y0_min ;; y1_min <- int_of y1_min ;;
  y0_max <- int_of y0_max ;; y1_max <- int_of y1_max ;;
  inr (negb (Z.ltb 0 ((y0_min - y1_min) * (y0_max - y1_max)) &&
             Z.ltb 0 ((y0_min - y1_max) * (y0_max - y1_min)))).

Definition close_in_time (self : DrawDataContainer) (ref_link link : InstData)
  : bool :=
  Qltb (Qabs (t0 ref_link - t0 link)) (link_h_spacing self).

(** The loop [for ind in reversed(range(len(links)))]. *)
Fixpoint collect (self : DrawDataContainer) (ref_link : InstData)
         (inds : list nat) (links group : list InstData)
  : E (list InstData * list InstData) :=
  match inds with
  | [] => inr (links, group)
  | ind :: inds' =>
      link <- getlink links ind ;;
      if close_in_time self ref_link link
      then
        o <- rows_overlap self ref_link link ;;
        if o : bool
        then collect self ref_link inds' (pop_at links ind) (group ++ [link])
        else collect self ref_link inds' links group
      else collect self ref_link inds' links group
  end.

(** The loop [while len(links) > 0], which pops a link at each turn and so
    takes at most [len(links)] turns. *)
Fixpoint group_links (turns : nat) (self : DrawDataContainer)
         (links : list InstData) : E (list (list InstData)) :=
  match turns with
  | O => inr []
  | S turns' =>
      match rev links with
      | [] => inr []
      | ref_link :: _ =>
          let links := removelast links in
          lg <- collect self ref_link (rev (seq 0 (List.length links)))
                        links [ref_link] ;;
          groups <- group_links turns' self (fst lg) ;;
          inr (snd lg :: groups)
      end
  end.

(** [np.mean] *)
Definition Qsum (l : list Q) : Q := fold_right Qplus 0%Q l.

(** A count used as a rational. *)
Definition Qnat (k : nat) : Q := inject_Z (Z.of_nat k).

Definition mean (l : list Q) : Q :=
  (Qsum l / Qnat (List.length l))%Q.

(** [sorted(group, key=..., reverse=True)]: the keys are computed first; the
    sort is stable, and with [reverse] the links come by decreasing key,
    those of equal key in their order in the group. *)
Fixpoint insert_desc (k : Z) (x : InstData) (l : list (Z * InstData))
  : list (Z * InstData) :=
  match l with
  | [] => [(k, x)]
  | (k', y) :: l' =>
      if Z.ltb k' k then (k, x) :: l else (k', y) :: insert_desc k x l'
  end.

Definition sorted_reverse (keyed : list (Z * InstData)) : list InstData :=
  map snd (fold_left (fun acc kx => insert_desc (fst kx) (snd kx) acc) keyed []).

Fixpoint keys_of (self : DrawDataContainer) (group : list InstData)
  : E (list (option Z)) :=
  match group with
  | [] => inr []
  | x :: group' =>
      r <- last_of (regs x) ;;
      k <- getitem (position_table self) r ;;
      ks <- keys_of self group' ;;
      inr (k :: ks)
  end.

(** Rows are compared when the links are sorted; a group that is sorted
    holds more than one link. *)
Fixpoint ints_of (l : list (option Z)) : E (list Z) :=
  match l with
  | [] => inr []
  | v :: l' => z <- int_of v ;; zs <- ints_of l' ;; inr (z :: zs)
  end.

Definition enumerate {A : Type} (l : list A) : list (nat * A) :=
  combine (seq 0 (List.length l)) l.

Definition shifted (x0 spacing : Q) (il : nat * InstData) : InstData :=
  let (ind, sorted_link) := il in
  mkInst (x0 + Qnat ind * spacing)%Q
         (operand sorted_link) (duration sorted_link) (regs sorted_link).

Definition align_group (self : DrawDataContainer) (group : list InstData)
  : E (list InstData) :=
  if Nat.ltb 1 (List.length group)
  then
    let xpos_mean := mean (map t0 group) in
    keys <- keys_of self group ;;
    keys <- ints_of keys ;;
    let sorted_links := sorted_reverse (combine keys group) in
    let x0 := (xpos_mean - (1 # 2) * link_h_spacing self *
                           (Qnat (List.length group) - 1))%Q in
    inr (map (shifted x0 (link_h_spacing self)) (enumerate sorted_links))
  else
    match group with
    | [] => inl IndexError
    | link :: _ => inr [link]
    end.

Fixpoint align_groups (self : DrawDataContainer) (groups : list (list InstData))
  : E (list InstData) :=
  match groups with
  | [] => inr []
  | group :: groups' =>
      aligned <- align_group self group ;;
      rest <- align_groups self groups' ;;
      inr (aligned ++ rest)
  end.

Definition _gate_link_overlap_check (self : DrawDataContainer)
           (links : list InstData) : E (list InstData) :=
  groups <- group_links (List.length links) self links ;;
  align_groups self groups.

(** ** [reset], [arrange_registers] and [remove_drawings] *)

Definition set_visible (d : drawing) (v : bool) : drawing :=
  mkDrawing (data_type d) (bind d) (offset d) v.

Definition set_offset (d : drawing) (o : offset_value) : drawing :=
  mkDrawing (data_type d) (bind d) o (visible d).

Definition reset (self : DrawDataContainer) : DrawDataContainer :=
  mkContainer (link_h_spacing self) (position_table self)
              (map (fun drawing_obj => set_visible drawing_obj true)
                   (drawing_objs self))
              (num_channel self).

Definition remove_drawings (self : DrawDataContainer) (removes : list string)
  : DrawDataContainer :=
  mkContainer (link_h_spacing self) (position_table self)
              (map (fun drawing_obj =>
                      if str_in (data_type drawing_obj) removes
                      then set_visible drawing_obj false
                      else drawing_obj)
                   (drawing_objs self))
              (num_channel self).

(** The first loop of [arrange_registers] overwrites the row of every bit of
    the table. *)
Fixpoint overwrite (registers : list bit) (table : list (bit * option Z))
  : E (list (bit * option Z)) :=
  match table with
  | [] => inr []
  | (r, _) :: table' =>
      v <- (if negb (bit_in r registers) then inr None
            else i <- index r registers ;; inr (Some (- Z.of_nat i)%Z)) ;;
      rest <- overwrite registers table' ;;
      inr ((r, v) :: rest)
  end.

Fixpoint getitems (table : list (bit * option Z)) (l : list bit)
  : E (list (option Z)) :=
  match l with
  | [] => inr []
  | r :: l' => v <- getitem table r ;; vs <- getitems table l' ;; inr (v :: vs)
  end.

Definition is_None (v : option Z) : bool :=
  match v with
  | None => true
  | Some _ => false
  end.

(** The body of the second loop of [arrange_registers]. *)
Definition rearrange (table : list (bit * option Z)) (drawing_obj : drawing)
  : E drawing :=
  if Nat.ltb 1 (List.length (bind drawing_obj))
  then
    new_ys <- getitems table (bind drawing_obj) ;;
    inr (if existsb is_None new_ys
         then set_visible drawing_obj false
         else set_offset drawing_obj (Several new_ys))
  else
    r <- first_of (bind drawing_obj) ;;
    new_y <- getitem table r ;;
    inr (if is_None new_y
         then set_visible drawing_obj false
         else set_offset drawing_obj (Single new_y)).

Fixpoint rearrange_all (table : list (bit * option Z)) (l : list drawing)
  : E (list drawing) :=
  match l with
  | [] => inr []
  | d :: l' =>
      d' <- rearrange table d ;;
      rest <- rearrange_all table l' ;;
      inr (d' :: rest)
  end.

Definition arrange_registers (self : DrawDataContainer) (registers : list bit)
  : E DrawDataContainer :=
  table <- overwrite registers (position_table self) ;;
  objs <- rearrange_all table (drawing_objs self) ;;
  inr (mkContainer (link_h_spacing self) table objs (List.length registers)).

(** What the properties of the three methods are stated with: a drawing is
    bound when it is bound to a bit at least and all its bits are in the
    table; it is shown when all its bits are among the registers; [row_in]
    is the row of a bit that is among the registers. *)
Definition bound (self : DrawDataContainer) (d : drawing) : Prop :=
  bind d <> [] /\
  forall r, In r (bind d) -> In r (map fst (position_table self)).

Definition shown (registers : list bit) (d : drawing) : bool :=
  forallb (fun r => bit_in r registers) (bind d).

Fixpoint place (r : bit) (registers : list bit) : nat :=
  match registers with
  | [] => 0
  | x :: registers' => if bit_eqb x r then 0 else S (place r registers')
  end.

Definition row_in (registers : list bit) (r : bit) : option Z :=
  Some (- Z.of_nat (place r registers))%Z.

Definition new_row (registers : list bit) (r : bit) : option Z :=
  if bit_in r registers then row_in registers r else None.

Definition rows_of (registers : list bit) (d : drawing) : offset_value :=
  match bind d with
  | [r] => Single (row_in registers r)
  | l => Several (map (row_in registers) l)
  end.

Definition arranged (registers : list bit) (d : drawing) : drawing :=
  if shown registers d then set_offset d (rows_of registers d)
  else set_visible d false.

(** What the properties of the check are stated with: a link is placed
    when its first and its last bit have a row; [same_gate] forgets the
    time of a link; [joins] is the test of the inner loop on one link. *)
Definition placed (self : DrawDataContainer) (link : InstData) : Prop :=
  exists r0 r1 y0 y1,
    first_of (regs link) = inr r0 /\
    getitem (position_table self) r0 = inr (Some y0) /\
    last_of (regs link) = inr r1 /\
    getitem (position_table self) r1 = inr (Some y1).

(** The rows of the first and of the last bit of a link. *)
Definition rows_are (self : DrawDataContainer) (link : InstData) (y_min y_max : Z)
  : Prop :=
  exists r0 r1,
    first_of (regs link) = inr r0 /\
    getitem (position_table self) r0 = inr (Some y_min) /\
    last_of (regs link) = inr r1 /\
    getitem (position_table self) r1 = inr (Some y_max).

(** Two ranges of rows, given by their ends in any order, have no row in
    common. *)
Definition apart (a c b d : Z) : bool :=
  Z.ltb (Z.max a c) (Z.min b d) || Z.ltb (Z.max b d) (Z.min a c).

Definition same_gate (link : InstData) : Instruction * Q * list bit :=
  (operand link, duration link, regs link).

Definition joins (self : DrawDataContainer) (ref_link link : InstData) : E bool :=
  if close_in_time self ref_link link
  then rows_overlap self ref_link link
  else inr false.

(** ** [RegisterEvents.parse_program] and the event table of
       [timeline_drawer]

    The scheduled circuit is used through its bits and the nodes of its
    graph in topological order; [inst_durations.get] raises when a duration
    is not known. *)

Section Program.

Variable QuantumCircuit : Type.
Variable qubits : QuantumCircuit -> list bit.
Variable clbits : QuantumCircuit -> list bit.
Variable topological_op_nodes : QuantumCircuit -> list DAGNode.
Variable inst_durations_get : string -> list bit -> E Q.

Definition associated_regs (node : DAGNode) : list bit :=
  qargs node ++ cargs node.

(** The duration read for a node; the sum [t0 += duration] raises a
    [TypeError] when a delay holds no duration. *)
Definition duration_of (node : DAGNode) : E Q :=
  if negb (str_in (name (op node)) ["delay"])
  then inst_durations_get (name (op node)) (qargs node)
  else match op_duration (op node) with
       | Some d => inr d
       | None => inl TypeError
       end.

Fixpoint parse_nodes (r : bit) (nodes : list DAGNode) (t : Q)
         (acc : list InstData) : E (list InstData) :=
  match nodes with
  | [] => inr acc
  | node :: nodes' =>
      if negb (bit_in r (associated_regs node))
      then parse_nodes r nodes' t acc
      else
        d <- duration_of node ;;
        parse_nodes r nodes' (t + d)%Q
                    (acc ++ [mkInst t (op node) d (associated_regs node)])
  end.

Definition parse_program (scheduled_circuit : QuantumCircuit) (r : bit)
  : E RegisterEvents :=
  let nodes := topological_op_nodes scheduled_circuit in
  insts <- parse_nodes r nodes 0%Q [] ;;
  inr (mkEvents r insts).

(** [timeline_drawer], the event table: an OrderedDict from the bits to
    their events. *)
Definition OrderedDict : Type := list (bit * RegisterEvents).

Fixpoint setitem (d : OrderedDict) (k : bit) (v : RegisterEvents) : OrderedDict :=
  match d with
  | [] => [(k, v)]
  | (k', v') :: d' =>
      if bit_eqb k' k then (k', v) :: d'
      else (k', v') :: setitem d' k v
  end.

Definition drawn_regs (circuit : QuantumCircuit) (reverse_bits : bool) : list bit :=
  if negb reverse_bits then qubits circuit ++ clbits circuit
  else rev (qubits circuit) ++ rev (clbits circuit).

Fixpoint register_events_from (circuit : QuantumCircuit) (rs : list bit)
         (register_events : OrderedDict) : E OrderedDict :=
  match rs with
  | [] => inr register_events
  | r :: rs' =>
      ev <- parse_program circuit r ;;
      register_events_from circuit rs' (setitem register_events r ev)
  end.

Fixpoint busy_registers (items : OrderedDict) : list bit :=
  match items with
  | [] => []
  | (r, register_event) :: items' =>
      if negb (is_empty register_event) then r :: busy_registers items'
      else busy_registers items'
  end.

(** The registers that [timeline_drawer] hands to [arrange_registers]. *)
Definition registers_to_show (circuit : QuantumCircuit)
           (reverse_bits idle_wires : bool) : E (list bit) :=
  let rs := drawn_regs circuit reverse_bits in
  register_events <- register_events_from circuit rs [] ;;
  inr (if negb idle_wires then busy_registers register_events else rs).

(** *** What the properties are stated with *)

Definition on_register (r : bit) (node : DAGNode) : bool :=
  bit_in r (associated_regs node).

(** A timeline without gap that starts at [t]. *)
Fixpoint gap_free (t : Q) (l : list InstData) : Prop :=
  match l with
  | [] => True
  | d :: l' => t0 d = t /\ gap_free (t + duration d)%Q l'
  end.

(** The instruction [d] was read from the node [n]. *)
Definition parsed_from (d : InstData) (n : DAGNode) : Prop :=
  operand d = op n /\ regs d = associated_regs n /\
  duration_of n = inr (duration d).

Definition first_is (r : bit) (l : list bit) : bool :=
  match l with
  | x :: _ => bit_eqb x r
  | [] => false
  end.

Definition lists (r : bit) (inst_data : InstData) : bool :=
  bit_in r (regs inst_data).

Definition is_barrier (o : Instruction) : bool := isinstance o [Barrier].

Definition linked (l : list bit) (o : Instruction) : bool :=
  negb (is_barrier o) && Nat.ltb 1 (List.length l).

Definition has_gate_on (circuit : QuantumCircuit) (r : bit) : bool :=
  existsb (fun n => on_register r n && negb (isinstance (op n) [Barrier; Delay]))
          (topological_op_nodes circuit).

Lemma bit_eqb_eq (a b : bit) : bit_eqb a b = true <-> a = b.
Proof.
  destruct a, b; simpl; rewrite ?Nat.eqb_eq; split; intros H;
    try discriminate; try congruence; injection H; auto.
Qed.

Lemma bit_eqb_refl (a : bit) : bit_eqb a a = true.
Proof. now apply bit_eqb_eq. Qed.

Lemma bit_eqb_sym (a b : bit) : bit_eqb a b = bit_eqb b a.
Proof.
  destruct (bit_eqb a b) eqn:H.
  - apply bit_eqb_eq in H. subst. now rewrite bit_eqb_refl.
  - destruct (bit_eqb b a) eqn:H'; [|reflexivity].
    apply bit_eqb_eq in H'. subst. now rewrite bit_eqb_refl in H.
Qed.

Lemma bit_in_In (r : bit) (l : list bit) : bit_in r l = true <-> In r l.
Proof.
  unfold bit_in. rewrite existsb_exists. split.
  - intros [x [Hx He]]. apply bit_eqb_eq in He. now subst.
  - intros H. exists r. split; [exact H | apply bit_eqb_refl].
Qed.

(** [index] finds every bit of the list, and finds it first exactly when the
    list starts with it. *)
Lemma index_first (r : bit) (l : list bit) :
  index r l =
  if bit_in r l then
    match index r l with
    | inr i => inr i
    | inl _ => inr 0
    end
  else inl ValueError.
Proof.
  induction l as [|y l IH]; [reflexivity|].
  simpl. rewrite (bit_eqb_sym r y).
  destruct (bit_eqb y r); [reflexivity|]. simpl.
  rewrite IH. destruct (bit_in r l); [|reflexivity].
  destruct (index r l); reflexivity.
Qed.

Lemma index_is_0 (r : bit) (l : list bit) :
  bit_in r l = true ->
  exists i, index r l = inr i /\ Nat.eqb i 0 = first_is r l.
Proof.
  destruct l as [|y l]; [discriminate|]. intros H.
  simpl. destruct (bit_eqb y r) eqn:Hy.
  - exists 0. split; reflexivity.
  - simpl in H. rewrite (bit_eqb_sym r y), Hy in H. simpl in H.
    rewrite index_first, H.
    destruct (index r l) as [e|i]; eexists; split; reflexivity.
Qed.

Lemma index_absent (r : bit) (l : list bit) :
  bit_in r l = false -> index r l = inl ValueError.
Proof. intros H. rewrite index_first, H. reflexivity. Qed.

(** [parse_nodes] on nodes whose durations are known. *)
Lemma parse_nodes_known (r : bit) (nodes : list DAGNode) :
  (forall node, In node nodes -> on_register r node = true ->
                exists d, duration_of node = inr d) ->
  forall t acc,
  exists insts,
    parse_nodes r nodes t acc = inr (acc ++ insts) /\
    Forall2 parsed_from insts (filter (on_register r) nodes) /\
    gap_free t insts.
Proof.
  induction nodes as [|node nodes IH]; intros H t acc.
  - exists []. rewrite app_nil_r. repeat split. constructor.
  - simpl. fold (on_register r node).
    destruct (on_register r node) eqn:Hon; simpl.
    + destruct (H node (or_introl eq_refl) Hon) as [d Hd]. rewrite Hd. simpl.
      destruct (IH (fun n Hn => H n (or_intror Hn)) (t + d)%Q
                   (acc ++ [mkInst t (op node) d (associated_regs node)]))
        as [insts [Hp [Hf Hg]]].
      exists (mkInst t (op node) d (associated_regs node) :: insts).
      rewrite Hp, <- app_assoc. split; [reflexivity|]. split.
      * constructor; [|exact Hf]. repeat split. exact Hd.
      * simpl. split; [reflexivity | exact Hg].
    + apply IH. intros n Hn. apply H. now right.
Qed.

(** [parse_nodes] stops at the first node of the register whose duration is
    not known. *)
Lemma parse_nodes_raises (r : bit) (pre : list DAGNode) (node : DAGNode)
      (post : list DAGNode) (e : exn) :
  (forall n, In n pre -> on_register r n = true ->
             exists d, duration_of n = inr d) ->
  on_register r node = true ->
  duration_of node = inl e ->
  forall t acc, parse_nodes r (pre ++ node :: post) t acc = inl e.
Proof.
  intros Hpre Hon He. induction pre as [|n pre IH]; intros t acc.
  - simpl. fold (on_register r node). rewrite Hon, He. reflexivity.
  - simpl. fold (on_register r n).
    destruct (on_register r n) eqn:Hn; simpl.
    + destruct (Hpre n (or_introl eq_refl) Hn) as [d Hd]. rewrite Hd. simpl.
      apply IH. intros m Hm. apply Hpre. now right.
    + apply IH. intros m Hm. apply Hpre. now right.
Qed.

(** The barriers and the links of any events. *)
Lemma barriers_from_eval (r : bit) (l : list InstData) :
  barriers_from r l =
  if forallb (fun d => implb (is_barrier (operand d)) (lists r d)) l
  then inr (filter (fun d => is_barrier (operand d) && first_is r (regs d)) l)
  else inl ValueError.
Proof.
  induction l as [|d l IH]; [reflexivity|].
  simpl. unfold is_barrier_of. fold (is_barrier (operand d)).
  destruct (is_barrier (operand d)); simpl.
  - unfold lists at 1. destruct (bit_in r (regs d)) eqn:Hin.
    + destruct (index_is_0 r (regs d) Hin) as [i [Hi H0]].
      rewrite Hi. simpl. rewrite H0, IH.
      destruct (forallb _ l); simpl; [|reflexivity].
      destruct (first_is r (regs d)); reflexivity.
    + rewrite (index_absent r (regs d) Hin). reflexivity.
  - rewrite IH. destruct (forallb _ l); reflexivity.
Qed.

Lemma register_links_from_eval (r : bit) (l : list InstData) :
  register_links_from r l =
  if forallb (fun d => implb (linked (regs d) (operand d)) (lists r d)) l
  then inr (map link_of
                (filter (fun d => linked (regs d) (operand d) &&
                                  first_is r (regs d)) l))
  else inl ValueError.
Proof.
  induction l as [|d l IH]; [reflexivity|].
  simpl. unfold is_link_of, linked at 1 3.
  change (isinstance (operand d) _auxiliary_type) with (is_barrier (operand d)).
  destruct (is_barrier (operand d)); simpl.
  - rewrite IH. destruct (forallb _ l); reflexivity.
  - destruct (Nat.ltb 1 (List.length (regs d))); simpl.
    + unfold lists at 1. destruct (bit_in r (regs d)) eqn:Hin.
      * destruct (index_is_0 r (regs d) Hin) as [i [Hi H0]].
        rewrite Hi. simpl. rewrite H0, IH.
        destruct (forallb _ l); simpl; [|reflexivity].
        destruct (first_is r (regs d)); reflexivity.
      * rewrite (index_absent r (regs d) Hin). reflexivity.
    + rewrite IH. destruct (forallb _ l); reflexivity.
Qed.

Lemma Forall2_filter {A B : Type} (R : A -> B -> Prop)
      (f : A -> bool) (g : B -> bool) (l1 : list A) (l2 : list B) :
  (forall a b, R a b -> f a = g b) ->
  Forall2 R l1 l2 -> Forall2 R (filter f l1) (filter g l2).
Proof.
  intros Hfg H. induction H as [|a b l1 l2 Hab H IH]; [constructor|].
  simpl. rewrite (Hfg a b Hab). destruct (g b); [constructor|]; assumption.
Qed.

Lemma filter_filter_implied {A : Type} (f g : A -> bool) (l : list A) :
  (forall a, f a = true -> g a = true) ->
  filter f (filter g l) = filter f l.
Proof.
  intros H. induction l as [|a l IH]; [reflexivity|]. simpl.
  destruct (g a) eqn:Hg; simpl.
  - rewrite IH. reflexivity.
  - destruct (f a) eqn:Hf; [|exact IH].
    apply H in Hf. congruence.
Qed.

Lemma first_is_in (r : bit) (l : list bit) :
  first_is r l = true -> bit_in r l = true.
Proof.
  destruct l as [|x l]; [discriminate|]. simpl. intros H.
  rewrite (bit_eqb_sym r x), H. reflexivity.
Qed.

(** Parsed instructions list the register they were parsed for. *)
Lemma parsed_lists (r : bit) (insts : list InstData) (nodes : list DAGNode) :
  Forall2 parsed_from insts (filter (on_register r) nodes) ->
  forallb (lists r) insts = true.
Proof.
  assert (Hon : forall n, In n (filter (on_register r) nodes) ->
                          on_register r n = true)
    by (intros n Hn; apply filter_In in Hn; apply Hn).
  revert Hon. generalize (filter (on_register r) nodes) as ns.
  intros ns Hon H. induction H as [|d n insts ns [_ [Hr _]] H IH]; [reflexivity|].
  simpl. unfold lists at 1. rewrite Hr.
  fold (on_register r n). rewrite (Hon n (or_introl eq_refl)). simpl.
  apply IH. intros m Hm. apply Hon. now right.
Qed.

Lemma forallb_implb {A : Type} (f g : A -> bool) (l : list A) :
  forallb g l = true -> forallb (fun a => implb (f a) (g a)) l = true.
Proof.
  induction l as [|a l IH]; [reflexivity|]. simpl.
  intros H. apply andb_true_iff in H. destruct H as [Ha Hl].
  rewrite Ha, (IH Hl). destruct (f a); reflexivity.
Qed.

Lemma is_empty_from_parsed (insts : list InstData) (ns : list DAGNode) :
  Forall2 parsed_from insts ns ->
  is_empty_from insts = forallb (fun n => isinstance (op n) [Barrier; Delay]) ns.
Proof.
  intros H. induction H as [|d n insts ns [Ho _] H IH]; [reflexivity|].
  cbn [is_empty_from forallb]. rewrite Ho, IH.
  change (_auxiliary_type ++ [Delay]) with [Barrier; Delay].
  destruct (isinstance (op n) [Barrier; Delay]); reflexivity.
Qed.

Lemma forallb_filter_existsb {A : Type} (f g : A -> bool) (l : list A) :
  forallb f (filter g l) = negb (existsb (fun a => g a && negb (f a)) l).
Proof.
  induction l as [|a l IH]; [reflexivity|]. simpl.
  destruct (g a); simpl; rewrite IH; [|reflexivity].
  destruct (f a); reflexivity.
Qed.

(** The table of events. *)
Lemma setitem_In (d : OrderedDict) (k : bit) (v : RegisterEvents)
      (a : bit) (b : RegisterEvents) :
  In (a, b) (setitem d k v) -> In (a, b) d \/ (a = k /\ b = v).
Proof.
  induction d as [|[k' v'] d IH]; simpl.
  - intros [H|[]]. injection H as <- <-. now right.
  - destruct (bit_eqb k' k) eqn:Hk.
    + apply bit_eqb_eq in Hk. subst k'. intros [H|H].
      * injection H as <- <-. now right.
      * left. now right.
    + intros [H|H]; [left; now left|].
      destruct (IH H) as [H'|H']; [left; now right | now right].
Qed.

Lemma setitem_keys (d : OrderedDict) (k : bit) (v : RegisterEvents) :
  map fst (setitem d k v) =
  if bit_in k (map fst d) then map fst d else map fst d ++ [k].
Proof.
  induction d as [|[k' v'] d IH]; [reflexivity|]. simpl.
  rewrite (bit_eqb_sym k k').
  destruct (bit_eqb k' k); simpl; [reflexivity|].
  rewrite IH. destruct (bit_in k (map fst d)); reflexivity.
Qed.

Lemma register_events_from_spec (circuit : QuantumCircuit) (rs : list bit) :
  (forall r, In r rs -> exists ev, parse_program circuit r = inr ev) ->
  forall d,
    (forall k v, In (k, v) d -> parse_program circuit k = inr v) ->
    NoDup (map fst d) ->
    exists d',
      register_events_from circuit rs d = inr d' /\
      (forall k v, In (k, v) d' -> parse_program circuit k = inr v) /\
      NoDup (map fst d') /\
      (forall k, In k (map fst d') <-> In k (map fst d) \/ In k rs) /\
      (NoDup rs -> (forall k, In k rs -> ~ In k (map fst d)) ->
       map fst d' = map fst d ++ rs).
Proof.
  induction rs as [|r rs IH]; intros Hp d Hd Hnd.
  - exists d. simpl. repeat split; try assumption.
    + intros H. now left.
    + intros [H|[]]. exact H.
    + intros _ _. now rewrite app_nil_r.
  - simpl. destruct (Hp r (or_introl eq_refl)) as [ev Hev]. rewrite Hev. simpl.
    assert (Hkeys := setitem_keys d r ev).
    destruct (IH (fun x Hx => Hp x (or_intror Hx)) (setitem d r ev))
      as [d' [Hr [Hv [Hn [Hk Ho]]]]].
    + intros k v H. destruct (setitem_In d r ev k v H) as [H'|[-> ->]];
        [apply Hd; exact H' | exact Hev].
    + rewrite Hkeys. destruct (bit_in r (map fst d)) eqn:Hin; [exact Hnd|].
      apply NoDup_app; [exact Hnd | repeat constructor; intros [] | ].
      intros x Hx [<-|[]]. apply bit_in_In in Hx. congruence.
    + exists d'. split; [exact Hr|]. split; [exact Hv|]. split; [exact Hn|].
      split.
      * intros k. rewrite Hk, Hkeys.
        destruct (bit_in r (map fst d)) eqn:Hin.
        -- apply bit_in_In in Hin. split.
           ++ intros [H|H]; [now left | right; now right].
           ++ intros [H|[<-|H]]; [now left | now left | now right].
        -- rewrite in_app_iff. simpl. tauto.
      * intros Hnr Hdis. inversion Hnr as [|x l Hx Hl]; subst.
        rewrite Ho.
        -- rewrite Hkeys.
           destruct (bit_in r (map fst d)) eqn:Hin.
           ++ apply bit_in_In in Hin. exfalso. apply (Hdis r); [now left | exact Hin].
           ++ rewrite <- app_assoc. reflexivity.
        -- exact Hl.
        -- intros k Hkin. rewrite Hkeys.
           destruct (bit_in r (map fst d)) eqn:Hin.
           ++ apply Hdis. now right.
           ++ rewrite in_app_iff. intros [H|[<-|[]]].
              ** apply (Hdis k); [now right | exact H].
              ** contradiction.
Qed.

Lemma busy_registers_eval (circuit : QuantumCircuit) (d : OrderedDict) :
  (forall k v, In (k, v) d ->
     is_empty v = negb (has_gate_on circuit k)) ->
  busy_registers d = filter (has_gate_on circuit) (map fst d).
Proof.
  induction d as [|[k v] d IH]; intros H; [reflexivity|].
  simpl. rewrite (H k v (or_introl eq_refl)), negb_involutive.
  rewrite IH by (intros k' v' Hin; apply H; now right).
  reflexivity.
Qed.

Lemma parse_program_known_aux (circuit : QuantumCircuit) (r : bit) :
  (forall node, In node (topological_op_nodes circuit) ->
                on_register r node = true ->
                exists d, duration_of node = inr d) ->
  exists insts,
    parse_program circuit r = inr (mkEvents r insts) /\
    Forall2 parsed_from insts
            (filter (on_register r) (topological_op_nodes circuit)).
Proof.
  intros H.
  destruct (parse_nodes_known r (topological_op_nodes circuit) H 0%Q [])
    as [insts [Hp [Hf _]]].
  exists insts. unfold parse_program. cbv zeta. rewrite Hp.
  split; [reflexivity | exact Hf].
Qed.

(** X19.  When the duration of every node on a register is known,
    [parse_program] returns the events of the register: one instruction per
    node that acts on it, in the order of the nodes, with the operation, the
    bits and the duration of the node; the first starts at time 0 and each
    of the others starts when the one before it ends.  The nodes on other
    registers are never asked for a duration. *)
Theorem parse_program_timeline_has_no_gap
        (circuit : QuantumCircuit) (r : bit)
        (H : forall node, In node (topological_op_nodes circuit) ->
                          on_register r node = true ->
                          exists d, duration_of node = inr d) :
  exists insts,
    parse_program circuit r = inr (mkEvents r insts) /\
    Forall2 parsed_from insts
            (filter (on_register r) (topological_op_nodes circuit)) /\
    gap_free 0%Q insts.
Proof.
  destruct (parse_nodes_known r (topological_op_nodes circuit) H 0%Q [])
    as [insts [Hp [Hf Hg]]].
  exists insts. unfold parse_program. cbv zeta. rewrite Hp.
  repeat split; assumption.
Qed.

(** X20.  [parse_program] raises as soon as a node on the register has no
    duration: the error of [inst_durations.get], or a [TypeError] for a
    delay that holds no duration, of the first such node. *)
Theorem parse_program_raises_without_duration
        (circuit : QuantumCircuit) (r : bit)
        (pre : list DAGNode) (node : DAGNode) (post : list DAGNode) (e : exn)
        (Hnodes : topological_op_nodes circuit = pre ++ node :: post)
        (Hpre : forall n, In n pre -> on_register r n = true ->
                          exists d, duration_of n = inr d)
        (Hon : on_register r node = true)
        (He : duration_of node = inl e) :
  parse_program circuit r = inl e /\
  (str_in (name (op node)) ["delay"] = true -> e = TypeError).
Proof.
  split.
  - unfold parse_program. cbv zeta. rewrite Hnodes.
    rewrite (parse_nodes_raises r pre node post e Hpre Hon He). reflexivity.
  - intros Hd. unfold duration_of in He. rewrite Hd in He. simpl in He.
    destruct (op_duration (op node)); congruence.
Qed.

(** X21.  [barriers] and [register_links] look for the register of the
    events in the bits of an instruction: [barriers] raises a [ValueError]
    exactly when a barrier does not list the register, [register_links]
    exactly when an instruction that is no barrier and acts on more than one
    bit does not list it.  Otherwise they return the barriers, and one link
    per instruction that is no barrier and acts on more than one bit, whose
    first bit is the register; the link stands at the middle of the
    instruction. *)
Theorem barriers_and_links_of_the_first_register (self : RegisterEvents) :
  barriers self =
    (if forallb (fun d => implb (is_barrier (operand d)) (lists (reg self) d))
                (instructions self)
     then inr (filter (fun d => is_barrier (operand d) &&
                                first_is (reg self) (regs d))
                      (instructions self))
     else inl ValueError) /\
  register_links self =
    (if forallb (fun d => implb (linked (regs d) (operand d)) (lists (reg self) d))
                (instructions self)
     then inr (map link_of
                   (filter (fun d => linked (regs d) (operand d) &&
                                     first_is (reg self) (regs d))
                           (instructions self)))
     else inl ValueError) /\
  (forall d, t0 (link_of d) == t0 d + duration d / 2 /\
             operand (link_of d) = operand d /\
             duration (link_of d) = duration d /\
             regs (link_of d) = regs d)%Q.
Proof.
  split; [apply barriers_from_eval|]. split; [apply register_links_from_eval|].
  intros d. repeat split. unfold link_of. cbn [t0]. field.
Qed.

(** X22.  On the events that [parse_program] returns, [barriers] and
    [register_links] never raise: every multi-bit gate of the program gives
    one link, in the events of its first bit and of no other register, and
    every barrier is listed in the events of its first bit. *)
Theorem one_link_per_gate
        (circuit : QuantumCircuit) (r : bit)
        (H : forall node, In node (topological_op_nodes circuit) ->
                          on_register r node = true ->
                          exists d, duration_of node = inr d) :
  exists ev links bars,
    parse_program circuit r = inr ev /\
    register_links ev = inr links /\
    barriers ev = inr bars /\
    Forall2 parsed_from links
      (filter (fun n => linked (associated_regs n) (op n) &&
                        first_is r (associated_regs n))
              (topological_op_nodes circuit)) /\
    Forall2 parsed_from bars
      (filter (fun n => is_barrier (op n) && first_is r (associated_regs n))
              (topological_op_nodes circuit)).
Proof.
  destruct (parse_nodes_known r (topological_op_nodes circuit) H 0%Q [])
    as [insts [Hp [Hf _]]].
  pose proof (parsed_lists r insts _ Hf) as Hl.
  exists (mkEvents r insts). unfold parse_program. cbv zeta. rewrite Hp.
  unfold register_links, barriers. cbn [ebind app reg instructions].
  rewrite register_links_from_eval, barriers_from_eval.
  rewrite !forallb_implb by exact Hl.
  eexists. eexists. split; [reflexivity|]. split; [reflexivity|].
  split; [reflexivity|]. split.
  - rewrite <- (filter_filter_implied _ (on_register r)
                  (topological_op_nodes circuit)).
    + assert (Hmap : forall l ns, Forall2 parsed_from l ns ->
                                  Forall2 parsed_from (map link_of l) ns).
      { intros l ns HF. induction HF as [|d n l ns Hd HF IH]; [constructor|].
        simpl. constructor; [exact Hd | exact IH]. }
      apply Hmap. apply Forall2_filter; [|exact Hf].
      intros d n [Ho [Hr _]]. now rewrite Ho, Hr.
    + intros n Hn. apply andb_true_iff in Hn. apply first_is_in, Hn.
  - rewrite <- (filter_filter_implied _ (on_register r)
                  (topological_op_nodes circuit)).
    + apply Forall2_filter; [|exact Hf].
      intros d n [Ho [Hr _]]. now rewrite Ho, Hr.
    + intros n Hn. apply andb_true_iff in Hn. apply first_is_in, Hn.
Qed.

(** X23.  With [idle_wires=False] the registers that [timeline_drawer] shows
    are the bits of the circuit on which some node other than a barrier or
    a delay acts, each once; when no bit of the circuit is repeated they
    come in the order of the bits. *)
Theorem idle_registers_are_hidden
        (circuit : QuantumCircuit) (reverse_bits : bool)
        (H : forall r node,
               In r (drawn_regs circuit reverse_bits) ->
               In node (topological_op_nodes circuit) ->
               on_register r node = true ->
               exists d, duration_of node = inr d) :
  exists shown,
    registers_to_show circuit reverse_bits false = inr shown /\
    (forall r, In r shown <->
               In r (drawn_regs circuit reverse_bits) /\
               has_gate_on circuit r = true) /\
    NoDup shown /\
    (NoDup (drawn_regs circuit reverse_bits) ->
     shown = filter (has_gate_on circuit) (drawn_regs circuit reverse_bits)).
Proof.
  unfold registers_to_show. cbv zeta.
  set (rs := drawn_regs circuit reverse_bits) in *.
  destruct (register_events_from_spec circuit rs) with (d := @nil (bit * RegisterEvents))
    as [d' [Hr [Hv [Hn [Hk Ho]]]]].
  - intros r Hin.
    destruct (parse_program_known_aux circuit r (fun node => H r node Hin)) as [insts [Hp _]].
    eexists. exact Hp.
  - intros k v [].
  - constructor.
  - rewrite Hr. cbn [ebind negb].
    assert (Hb : busy_registers d' = filter (has_gate_on circuit) (map fst d')).
    { apply busy_registers_eval. intros k v Hin.
      assert (Hkin : In k rs).
      { destruct (Hk k) as [Hk1 _]. destruct Hk1 as [[]|Hk1]; [|exact Hk1].
        apply in_map_iff. exists (k, v). split; [reflexivity | exact Hin]. }
      destruct (parse_program_known_aux circuit k (fun node => H k node Hkin)) as [insts [Hp Hf]].
      rewrite (Hv k v Hin) in Hp. injection Hp as ->.
      unfold is_empty. cbn [instructions].
      rewrite (is_empty_from_parsed _ _ Hf).
      unfold has_gate_on. apply forallb_filter_existsb. }
    eexists. split; [reflexivity|]. rewrite Hb. split; [|split].
    + intros r. rewrite filter_In, Hk. simpl. tauto.
    + apply NoDup_filter. exact Hn.
    + intros Hnd. rewrite (Ho Hnd); [reflexivity | intros k _ []].
Qed.

End Program.

(** ** The overlap check *)

Lemma collect_step (self : DrawDataContainer) (ref_link : InstData)
      (ind : nat) (inds : list nat) (links group : list InstData)
      (link : InstData) (o : bool) :
  getlink links ind = inr link ->
  joins self ref_link link = inr o ->
  collect self ref_link (ind :: inds) links group =
  if o then collect self ref_link inds (pop_at links ind) (group ++ [link])
  else collect self ref_link inds links group.
Proof.
  intros Hl Hj. cbn [collect]. rewrite Hl. cbn [ebind].
  unfold joins in Hj. destruct (close_in_time self ref_link link).
  - rewrite Hj. reflexivity.
  - injection Hj as <-. reflexivity.
Qed.

Lemma getlink_middle (l : list InstData) (x : InstData) (suf : list InstData) :
  getlink ((l ++ [x]) ++ suf) (List.length l) = inr x.
Proof.
  unfold getlink. rewrite <- app_assoc. rewrite nth_error_app2 by lia.
  rewrite Nat.sub_diag. reflexivity.
Qed.

Lemma pop_at_middle (l : list InstData) (x : InstData) (suf : list InstData) :
  pop_at ((l ++ [x]) ++ suf) (List.length l) = l ++ suf.
Proof.
  unfold pop_at. rewrite <- app_assoc.
  rewrite firstn_app, Nat.sub_diag, firstn_all, app_nil_r.
  change (l ++ [x] ++ suf) with (l ++ x :: suf).
  rewrite skipn_app.
  rewrite (skipn_all2 l) by lia.
  replace (S (List.length l) - List.length l) with 1 by lia.
  reflexivity.
Qed.

(** The inner loop moves the links that join the group, from the last to
    the first, and keeps the others where they are. *)
Lemma collect_eval (self : DrawDataContainer) (ref_link : InstData)
      (f : InstData -> bool) (l : list InstData) :
  (forall x, In x l -> joins self ref_link x = inr (f x)) ->
  forall suf group,
    collect self ref_link (rev (seq 0 (List.length l))) (l ++ suf) group =
    inr (filter (fun x => negb (f x)) l ++ suf, group ++ rev (filter f l)).
Proof.
  induction l as [|x l IH] using rev_ind; intros Hj suf group.
  - simpl. rewrite app_nil_r. reflexivity.
  - rewrite length_app. cbn [List.length]. rewrite seq_app, rev_app_distr.
    cbn [seq rev app Nat.add].
    assert (Hx : joins self ref_link x = inr (f x))
      by (apply Hj, in_or_app; right; now left).
    rewrite (collect_step self ref_link (List.length l) _ _ group x (f x)
               (getlink_middle l x suf) Hx).
    rewrite !filter_app. cbn [filter].
    assert (Hl : forall y, In y l -> joins self ref_link y = inr (f y))
      by (intros y Hy; apply Hj, in_or_app; now left).
    destruct (f x); cbn [negb].
    + rewrite pop_at_middle, (IH Hl). rewrite app_nil_r, rev_app_distr.
      cbn [rev app]. rewrite <- app_assoc. reflexivity.
    + rewrite <- app_assoc. rewrite (IH Hl). rewrite app_nil_r.
      rewrite <- app_assoc. reflexivity.
Qed.

Lemma rows_overlap_placed (self : DrawDataContainer) (a b : InstData) :
  placed self a -> placed self b -> exists o, rows_overlap self a b = inr o.
Proof.
  intros [r0 [r1 [y0 [y1 [H1 [H2 [H3 H4]]]]]]]
         [s0 [s1 [z0 [z1 [G1 [G2 [G3 G4]]]]]]].
  unfold rows_overlap. rewrite H1. cbn [ebind]. rewrite H2. cbn [ebind].
  rewrite H3. cbn [ebind]. rewrite H4. cbn [ebind].
  rewrite G1. cbn [ebind]. rewrite G2. cbn [ebind].
  rewrite G3. cbn [ebind]. rewrite G4. cbn [ebind int_of].
  eexists. reflexivity.
Qed.

Lemma joins_placed (self : DrawDataContainer) (a b : InstData) :
  placed self a -> placed self b -> exists o, joins self a b = inr o.
Proof.
  intros Ha Hb. unfold joins. destruct (close_in_time self a b).
  - apply rows_overlap_placed; assumption.
  - exists false. reflexivity.
Qed.

Lemma rev_cons_inv {A : Type} (l : list A) (x : A) (rl : list A) :
  rev l = x :: rl -> l = rev rl ++ [x] /\ removelast l = rev rl.
Proof.
  intros H. assert (Hl : l = rev rl ++ [x]).
  { rewrite <- (rev_involutive l), H. reflexivity. }
  split; [exact Hl|]. rewrite Hl. apply removelast_last.
Qed.

Lemma filter_length_le {A : Type} (f : A -> bool) (l : list A) :
  List.length (filter f l) <= List.length l.
Proof.
  induction l as [|a l IH]; [apply Nat.le_refl|].
  simpl. destruct (f a); simpl; lia.
Qed.

Lemma filter_partition_perm {A : Type} (f : A -> bool) (l : list A) :
  Permutation (filter f l ++ filter (fun x => negb (f x)) l) l.
Proof.
  induction l as [|a l IH]; [constructor|].
  simpl. destruct (f a); simpl.
  - now constructor.
  - apply Permutation_sym. apply Permutation_cons_app.
    apply Permutation_sym. exact IH.
Qed.

(** The groups that the outer loop makes: every link is in one group, no
    group is empty. *)
Lemma group_links_placed (self : DrawDataContainer) (turns : nat) :
  forall links,
    List.length links <= turns ->
    Forall (placed self) links ->
    exists groups,
      group_links turns self links = inr groups /\
      Permutation (List.concat groups) links /\
      Forall (fun g => g <> []) groups.
Proof.
  induction turns as [|turns IH]; intros links Hlen Hp.
  - destruct links; [|simpl in Hlen; lia].
    exists []. repeat split; constructor.
  - cbn [group_links]. destruct (rev links) as [|ref_link rl] eqn:Hrev.
    + assert (links = []) by (rewrite <- (rev_involutive links), Hrev; reflexivity).
      subst. exists []. repeat split; constructor.
    + destruct (rev_cons_inv links ref_link rl Hrev) as [Hl Hr].
      cbv zeta. rewrite Hr. set (l := rev rl) in *.
      assert (Hpl : Forall (placed self) l /\ placed self ref_link).
      { rewrite Hl in Hp. apply Forall_app in Hp. destruct Hp as [H1 H2].
        split; [exact H1|]. now inversion H2. }
      destruct Hpl as [Hpl Hpr].
      set (f := fun x => match joins self ref_link x with
                         | inr o => o
                         | inl _ => false
                         end).
      assert (Hj : forall x, In x l -> joins self ref_link x = inr (f x)).
      { intros x Hx. unfold f.
        destruct (joins_placed self ref_link x Hpr) as [o Ho].
        - rewrite Forall_forall in Hpl. apply Hpl, Hx.
        - rewrite Ho. reflexivity. }
      pose proof (collect_eval self ref_link f l Hj [] [ref_link]) as Hc.
      rewrite !app_nil_r in Hc. rewrite Hc. cbn [ebind fst snd].
      destruct (IH (filter (fun x => negb (f x)) l)) as [groups [Hg [Hperm Hne]]].
      * pose proof (filter_length_le (fun x => negb (f x)) l).
        rewrite Hl, length_app in Hlen. simpl in Hlen. lia.
      * apply Forall_forall. intros x Hx. apply filter_In in Hx.
        rewrite Forall_forall in Hpl. apply Hpl, Hx.
      * rewrite Hg. cbn [ebind].
        eexists. split; [reflexivity|]. split.
        -- cbn [List.concat app]. rewrite Hl.
           transitivity (ref_link :: l); [|apply Permutation_cons_append].
           apply perm_skip.
           transitivity (filter f l ++ filter (fun x => negb (f x)) l);
             [|apply filter_partition_perm].
           apply Permutation_app; [|exact Hperm].
           apply Permutation_sym, Permutation_rev.
        -- constructor; [discriminate | exact Hne].
Qed.

Lemma keys_of_placed (self : DrawDataContainer) (group : list InstData) :
  Forall (placed self) group ->
  exists ys, keys_of self group = inr (map Some ys) /\
             List.length ys = List.length group.
Proof.
  induction 1 as [|x group [r0 [r1 [y0 [y1 [_ [_ [H3 H4]]]]]]] _ [ys [IH Hlen]]].
  - exists []. split; reflexivity.
  - exists (y1 :: ys). cbn [keys_of]. rewrite H3. cbn [ebind].
    rewrite H4. cbn [ebind]. rewrite IH. cbn [ebind map List.length].
    split; [reflexivity | now rewrite Hlen].
Qed.

Lemma ints_of_some (ys : list Z) : ints_of (map Some ys) = inr ys.
Proof.
  induction ys as [|y ys IH]; [reflexivity|].
  cbn [map ints_of int_of ebind]. rewrite IH. reflexivity.
Qed.

Lemma insert_desc_perm (k : Z) (x : InstData) (l : list (Z * InstData)) :
  Permutation (insert_desc k x l) ((k, x) :: l).
Proof.
  induction l as [|[k' y] l IH]; [apply Permutation_refl|].
  cbn [insert_desc]. destruct (Z.ltb k' k); [apply Permutation_refl|].
  transitivity ((k', y) :: (k, x) :: l); [now apply perm_skip | apply perm_swap].
Qed.

Lemma sorted_reverse_perm (ys : list Z) (group : list InstData) :
  List.length ys = List.length group ->
  Permutation (sorted_reverse (combine ys group)) group.
Proof.
  intros Hlen. unfold sorted_reverse.
  assert (H : forall keyed acc,
             Permutation
               (fold_left (fun acc kx => insert_desc (fst kx) (snd kx) acc)
                          keyed acc)
               (keyed ++ acc)).
  { induction keyed as [|[k x] keyed IH]; intros acc; [apply Permutation_refl|].
    cbn [fold_left fst snd]. rewrite IH.
    rewrite insert_desc_perm. symmetry. apply Permutation_middle. }
  rewrite (H (combine ys group) []), app_nil_r.
  assert (Hs : map snd (combine ys group) = group).
  { revert ys Hlen. induction group as [|x group IH]; intros [|y ys] Hlen;
      try discriminate; [reflexivity|].
    cbn [combine map snd]. rewrite IH; [reflexivity|].
    simpl in Hlen. lia. }
  rewrite Hs. apply Permutation_refl.
Qed.

Lemma shifted_same_gate (x0 s : Q) (l : list InstData) (start : nat) :
  map same_gate (map (shifted x0 s) (combine (seq start (List.length l)) l)) =
  map same_gate l.
Proof.
  revert start. induction l as [|x l IH]; intros start; [reflexivity|].
  cbn [List.length seq combine map]. rewrite IH. reflexivity.
Qed.

Lemma Qnat_S (k : nat) : (Qnat (S k) == Qnat k + 1)%Q.
Proof.
  unfold Qnat. rewrite Nat2Z.inj_succ. unfold Z.succ.
  rewrite inject_Z_plus. reflexivity.
Qed.

Lemma shifted_sum (x0 s : Q) (l : list InstData) (start : nat) :
  (Qsum (map t0 (map (shifted x0 s) (combine (seq start (List.length l)) l))) ==
   Qnat (List.length l) * x0 +
   s * (Qnat (List.length l) * Qnat start +
        Qnat (List.length l) * (Qnat (List.length l) - 1) / 2))%Q.
Proof.
  revert start. induction l as [|x l IH]; intros start.
  - cbn [List.length seq combine map Qsum fold_right].
    change (Qnat 0) with 0%Q. field.
  - cbn [List.length seq combine map Qsum fold_right shifted t0].
    fold (Qsum (map t0 (map (shifted x0 s)
                           (combine (seq (S start) (List.length l)) l)))).
    rewrite IH. fold (Qnat start). rewrite !Qnat_S. field.
Qed.

Lemma Qsum_app (a b : list Q) : (Qsum (a ++ b) == Qsum a + Qsum b)%Q.
Proof.
  unfold Qsum. induction a as [|x a IH]; cbn [app fold_right].
  - ring.
  - rewrite IH. ring.
Qed.

Lemma Qsum_perm (a b : list Q) : Permutation a b -> (Qsum a == Qsum b)%Q.
Proof.
  unfold Qsum.
  induction 1 as [|x a b _ IH|x y a|a b c _ IH1 _ IH2]; cbn [fold_right].
  - reflexivity.
  - rewrite IH. reflexivity.
  - ring.
  - rewrite IH1. exact IH2.
Qed.

(** A group keeps its links and the sum of their positions. *)
Lemma align_group_placed (self : DrawDataContainer) (group : list InstData) :
  group <> [] ->
  Forall (placed self) group ->
  exists aligned,
    align_group self group = inr aligned /\
    Permutation (map same_gate aligned) (map same_gate group) /\
    (Qsum (map t0 aligned) == Qsum (map t0 group))%Q.
Proof.
  intros Hne Hp. unfold align_group.
  destruct (Nat.ltb 1 (List.length group)) eqn:Hlt.
  - apply Nat.ltb_lt in Hlt.
    destruct (keys_of_placed self group Hp) as [ys [Hk Hlen]].
    cbv zeta. rewrite Hk. cbn [ebind]. rewrite ints_of_some. cbn [ebind].
    pose proof (sorted_reverse_perm ys group Hlen) as Hs.
    set (sorted_links := sorted_reverse (combine ys group)) in *.
    eexists. split; [reflexivity|]. unfold enumerate. split.
    + rewrite shifted_same_gate. apply Permutation_map. exact Hs.
    + rewrite shifted_sum.
      rewrite (Permutation_length Hs).
      unfold mean. rewrite length_map. fold (Qnat (List.length group)).
      change (Qnat 0) with 0%Q.
      assert (Hn : ~ (Qnat (List.length group) == 0)%Q).
      { unfold Qnat. intros H0. unfold Qeq in H0. simpl in H0. lia. }
      field. exact Hn.
  - apply Nat.ltb_ge in Hlt.
    destruct group as [|x [|y group]]; [contradiction| |simpl in Hlt; lia].
    exists [x]. repeat split. reflexivity.
Qed.

Lemma align_groups_placed (self : DrawDataContainer)
      (groups : list (list InstData)) :
  Forall (fun g => g <> []) groups ->
  Forall (placed self) (List.concat groups) ->
  exists aligned,
    align_groups self groups = inr aligned /\
    Permutation (map same_gate aligned) (map same_gate (List.concat groups)) /\
    (Qsum (map t0 aligned) == Qsum (map t0 (List.concat groups)))%Q.
Proof.
  induction groups as [|g groups IH]; intros Hne Hp.
  - exists []. split; [reflexivity|]. split; [constructor | reflexivity].
  - cbn [List.concat] in *. apply Forall_app in Hp. destruct Hp as [Hg Hgs].
    inversion Hne as [|? ? Hg0 Hne']; subst.
    destruct (align_group_placed self g Hg0 Hg) as [a [Ha [Hpa Hsa]]].
    destruct (IH Hne' Hgs) as [rest [Hr [Hpr Hsr]]].
    cbn [align_groups]. rewrite Ha. cbn [ebind]. rewrite Hr. cbn [ebind].
    eexists. split; [reflexivity|]. rewrite !map_app. split.
    + apply Permutation_app; assumption.
    + rewrite !Qsum_app, Hsa, Hsr. reflexivity.
Qed.


Lemma filter_none {A : Type} (l : list A) : filter (fun _ => false) l = [].
Proof. induction l; [reflexivity | assumption]. Qed.

Lemma filter_every {A : Type} (l : list A) : filter (fun _ => true) l = l.
Proof. induction l as [|a l IH]; [reflexivity | simpl; now rewrite IH]. Qed.

Lemma group_links_distant (self : DrawDataContainer) (turns : nat) :
  forall links,
    List.length links <= turns ->
    (forall l1 a l2 b l3, links = l1 ++ a :: l2 ++ b :: l3 ->
                          close_in_time self b a = false) ->
    group_links turns self links = inr (map (fun x => [x]) (rev links)).
Proof.
  induction turns as [|turns IH]; intros links Hlen Hfar.
  - destruct links; [reflexivity | simpl in Hlen; lia].
  - cbn [group_links]. destruct (rev links) as [|ref_link rl] eqn:Hrev;
      [reflexivity|].
    destruct (rev_cons_inv links ref_link rl Hrev) as [Hl Hr].
    cbv zeta. rewrite Hr. set (l := rev rl) in *.
    assert (Hj : forall x, In x l -> joins self ref_link x = inr false).
    { intros x Hx. apply in_split in Hx. destruct Hx as [l1 [l2 Hx]].
      unfold joins. rewrite (Hfar l1 x l2 ref_link []); [reflexivity|].
      rewrite Hl, Hx, <- app_assoc. reflexivity. }
    pose proof (collect_eval self ref_link (fun _ => false) l Hj [] [ref_link])
      as Hc.
    cbn [negb] in Hc. rewrite filter_none, filter_every, !app_nil_r in Hc.
    rewrite Hc. cbn [ebind fst snd rev app].
    rewrite IH.
    + cbn [ebind map]. unfold l. rewrite rev_involutive. reflexivity.
    + rewrite Hl, length_app in Hlen. simpl in Hlen. lia.
    + intros l1 a l2 b l3 Heq. apply (Hfar l1 a l2 b (l3 ++ [ref_link])).
      rewrite Hl, Heq. rewrite <- !app_assoc. cbn [app].
      rewrite <- !app_assoc. reflexivity.
Qed.

Lemma align_groups_singletons (self : DrawDataContainer) (l : list InstData) :
  align_groups self (map (fun x => [x]) l) = inr l.
Proof.
  induction l as [|x l IH]; [reflexivity|].
  cbn [map align_groups]. unfold align_group at 1. cbn [List.length Nat.ltb Nat.leb ebind].
  rewrite IH. reflexivity.
Qed.

(** X25.  When no link is closer than [link_h_spacing] to a link that comes
    after it in the list, the overlap check moves nothing and never reads
    the position table: it returns the links as they are, in the reverse
    order. *)
Theorem distant_links_are_not_moved
        (self : DrawDataContainer) (links : list InstData)
        (H : forall l1 a l2 b l3, links = l1 ++ a :: l2 ++ b :: l3 ->
                                  close_in_time self b a = false) :
  _gate_link_overlap_check self links = inr (rev links) /\
  (forall table,
      _gate_link_overlap_check
        (mkContainer (link_h_spacing self) table (drawing_objs self)
                     (num_channel self)) links =
      inr (rev links)).
Proof.
  assert (Hany : forall c, link_h_spacing c = link_h_spacing self ->
                           _gate_link_overlap_check c links = inr (rev links)).
  { intros c Hc. unfold _gate_link_overlap_check.
    rewrite (group_links_distant c (List.length links) links (Nat.le_refl _)).
    - cbn [ebind]. apply align_groups_singletons.
    - intros l1 a l2 b l3 Heq. unfold close_in_time. rewrite Hc.
      apply (H l1 a l2 b l3 Heq). }
  split; [apply Hany; reflexivity|].
  intros table. apply Hany. reflexivity.
Qed.

(** X26.  Two links that are close in time are put in one group exactly
    when their ranges of rows, from the row of the first bit to the row of
    the last bit, have a row in common; the test does not depend on which
    of the two links is the reference. *)
Theorem rows_overlap_when_ranges_meet
        (self : DrawDataContainer) (ref_link link : InstData)
        (y0_min y0_max y1_min y1_max : Z)
        (H0 : rows_are self ref_link y0_min y0_max)
        (H1 : rows_are self link y1_min y1_max) :
  rows_overlap self ref_link link =
    inr (negb (apart y0_min y0_max y1_min y1_max)) /\
  rows_overlap self link ref_link = rows_overlap self ref_link link.
Proof.
  assert (Hgen : forall a b ya yc yb yd,
             rows_are self a ya yc -> rows_are self b yb yd ->
             rows_overlap self a b = inr (negb (apart ya yc yb yd))).
  { intros a b ya yc yb yd [r0 [r1 [G1 [G2 [G3 G4]]]]] [s0 [s1 [K1 [K2 [K3 K4]]]]].
    unfold rows_overlap. rewrite G1. cbn [ebind]. rewrite G2. cbn [ebind].
    rewrite G3. cbn [ebind]. rewrite G4. cbn [ebind].
    rewrite K1. cbn [ebind]. rewrite K2. cbn [ebind].
    rewrite K3. cbn [ebind]. rewrite K4. cbn [ebind int_of].
    f_equal. f_equal. unfold apart.
    destruct (Z.ltb_spec 0 ((ya - yb) * (yc - yd)));
      destruct (Z.ltb_spec 0 ((ya - yd) * (yc - yb)));
      destruct (Z.ltb_spec (Z.max ya yc) (Z.min yb yd));
      destruct (Z.ltb_spec (Z.max yb yd) (Z.min ya yc));
      try reflexivity; exfalso; nia. }
  rewrite (Hgen _ _ _ _ _ _ H0 H1), (Hgen _ _ _ _ _ _ H1 H0).
  split; [reflexivity|]. f_equal. f_equal. unfold apart.
  apply orb_comm.
Qed.

(** ** The drawings of the container *)

Lemma index_place (r : bit) (registers : list bit) :
  bit_in r registers = true -> index r registers = inr (place r registers).
Proof.
  induction registers as [|x registers IH]; [discriminate|].
  cbn [bit_in existsb index place]. rewrite (bit_eqb_sym r x).
  destruct (bit_eqb x r); [reflexivity|]. cbn [orb]. intros H.
  fold (bit_in r registers) in H. rewrite (IH H). reflexivity.
Qed.

Lemma overwrite_eval (registers : list bit) (table : list (bit * option Z)) :
  overwrite registers table =
  inr (map (fun kv => (fst kv, new_row registers (fst kv))) table).
Proof.
  induction table as [|[r v] table IH]; [reflexivity|].
  cbn [overwrite map fst]. unfold new_row at 1.
  destruct (bit_in r registers) eqn:Hin; cbn [negb].
  - rewrite (index_place r registers Hin). cbn [ebind]. rewrite IH. reflexivity.
  - cbn [ebind]. rewrite IH. reflexivity.
Qed.

Lemma getitem_overwritten (registers : list bit) (table : list (bit * option Z))
      (r : bit) :
  In r (map fst table) ->
  getitem (map (fun kv => (fst kv, new_row registers (fst kv))) table) r =
  inr (new_row registers r).
Proof.
  induction table as [|[k v] table IH]; [intros []|].
  cbn [map fst getitem]. destruct (bit_eqb k r) eqn:Hk.
  - apply bit_eqb_eq in Hk. subst. reflexivity.
  - intros [H|H]; [|apply IH, H].
    subst. now rewrite bit_eqb_refl in Hk.
Qed.

Lemma getitems_overwritten (registers : list bit) (table : list (bit * option Z))
      (l : list bit) :
  (forall r, In r l -> In r (map fst table)) ->
  getitems (map (fun kv => (fst kv, new_row registers (fst kv))) table) l =
  inr (map (new_row registers) l).
Proof.
  induction l as [|r l IH]; intros H; [reflexivity|].
  cbn [getitems map]. rewrite getitem_overwritten by (apply H; now left).
  cbn [ebind]. rewrite IH by (intros x Hx; apply H; now right).
  reflexivity.
Qed.

Lemma new_rows_shown (registers : list bit) (l : list bit) :
  existsb is_None (map (new_row registers) l) =
  negb (forallb (fun r => bit_in r registers) l) /\
  (forallb (fun r => bit_in r registers) l = true ->
   map (new_row registers) l = map (row_in registers) l).
Proof.
  induction l as [|r l [IH1 IH2]]; [split; reflexivity|].
  cbn [map existsb forallb]. unfold new_row at 1 3.
  destruct (bit_in r registers); cbn [is_None row_in orb andb negb].
  - split; [exact IH1|]. intros H. now rewrite (IH2 H).
  - split; [reflexivity | discriminate].
Qed.

Lemma rearrange_bound (self : DrawDataContainer) (registers : list bit)
      (d : drawing) :
  bound self d ->
  rearrange (map (fun kv => (fst kv, new_row registers (fst kv)))
                 (position_table self)) d =
  inr (arranged registers d).
Proof.
  intros [Hne Hin]. unfold rearrange, arranged, shown, rows_of.
  destruct (new_rows_shown registers (bind d)) as [Hex Hrows].
  destruct (bind d) as [|r [|r' l]] eqn:Hb; [contradiction| |].
  - cbn [List.length Nat.ltb Nat.leb first_of ebind].
    rewrite getitem_overwritten by (apply Hin; now left). cbn [ebind].
    cbn [forallb]. rewrite andb_true_r. unfold new_row.
    destruct (bit_in r registers); reflexivity.
  - cbn [List.length Nat.ltb Nat.leb].
    rewrite getitems_overwritten by exact Hin. cbn [ebind].
    rewrite Hex.
    destruct (forallb (fun r0 => bit_in r0 registers) (r :: r' :: l)) eqn:Hs;
      cbn [negb]; [|reflexivity].
    rewrite (Hrows eq_refl). reflexivity.
Qed.

Lemma rearrange_all_bound (self : DrawDataContainer) (registers : list bit)
      (l : list drawing) :
  Forall (bound self) l ->
  rearrange_all (map (fun kv => (fst kv, new_row registers (fst kv)))
                     (position_table self)) l =
  inr (map (arranged registers) l).
Proof.
  induction 1 as [|d l Hd _ IH]; [reflexivity|].
  cbn [rearrange_all map]. rewrite (rearrange_bound self registers d Hd).
  cbn [ebind]. rewrite IH. reflexivity.
Qed.

Lemma arrange_registers_eval (self : DrawDataContainer) (registers : list bit) :
  Forall (bound self) (drawing_objs self) ->
  arrange_registers self registers =
  inr (mkContainer (link_h_spacing self)
                   (map (fun kv => (fst kv, new_row registers (fst kv)))
                        (position_table self))
                   (map (arranged registers) (drawing_objs self))
                   (List.length registers)).
Proof.
  intros H. unfold arrange_registers. rewrite overwrite_eval. cbn [ebind].
  rewrite (rearrange_all_bound self registers _ H). reflexivity.
Qed.

Lemma arranged_visible (registers : list bit) (d : drawing) :
  visible (arranged registers d) = visible d && shown registers d.
Proof.
  unfold arranged. destruct (shown registers d); cbn [set_offset set_visible visible].
  - now rewrite andb_true_r.
  - now rewrite andb_false_r.
Qed.

(** X27.  [arrange_registers] only hides: on drawings bound to bits of the
    position table it returns, keeps every bit of the table and gives it
    the row [-registers.index(bit)], or None when the bit is not among the
    registers; a drawing all of whose bits are among the registers gets the
    rows of its bits as offset and keeps its visibility, any other drawing
    is hidden and keeps its offset; no drawing that was hidden becomes
    visible. *)
Theorem arrange_registers_only_hides
        (self : DrawDataContainer) (registers : list bit)
        (H : Forall (bound self) (drawing_objs self)) :
  exists c,
    arrange_registers self registers = inr c /\
    num_channel c = List.length registers /\
    map fst (position_table c) = map fst (position_table self) /\
    (forall r, In r (map fst (position_table self)) ->
               getitem (position_table c) r = inr (new_row registers r)) /\
    drawing_objs c = map (arranged registers) (drawing_objs self) /\
    map visible (drawing_objs c) =
      map (fun d => visible d && shown registers d) (drawing_objs self).
Proof.
  eexists. split; [apply (arrange_registers_eval self registers H)|].
  cbn [num_channel position_table drawing_objs].
  split; [reflexivity|]. split.
  - rewrite map_map. reflexivity.
  - split; [intros r Hr; apply getitem_overwritten, Hr|].
    split; [reflexivity|]. rewrite map_map.
    apply map_ext. intros d. apply arranged_visible.
Qed.

Lemma bound_map (self c : DrawDataContainer) (f : drawing -> drawing) :
  position_table c = position_table self ->
  (forall d, bind (f d) = bind d) ->
  Forall (bound self) (drawing_objs self) ->
  drawing_objs c = map f (drawing_objs self) ->
  Forall (bound c) (drawing_objs c).
Proof.
  intros Ht Hb H Ho. rewrite Ho. apply Forall_forall. intros d' Hd'.
  apply in_map_iff in Hd'. destruct Hd' as [d [<- Hd]].
  rewrite Forall_forall in H. destruct (H d Hd) as [Hne Hin].
  unfold bound. rewrite Hb, Ht. split; assumption.
Qed.

(** X28.  What is visible after the registers are arranged and drawings
    are removed: a drawing is visible exactly when it was visible, all its
    bits are among the registers and its type is not removed, whether the
    drawings are removed after or before the registers are arranged; after
    [reset] it no longer matters what was hidden before. *)
Theorem visible_after_arrange_and_remove
        (self : DrawDataContainer) (registers : list bit) (removes : list string)
        (H : Forall (bound self) (drawing_objs self)) :
  exists c1 c2 c3,
    arrange_registers self registers = inr c1 /\
    arrange_registers (remove_drawings self removes) registers = inr c2 /\
    arrange_registers (reset self) registers = inr c3 /\
    map visible (drawing_objs (remove_drawings c1 removes)) =
      map (fun d => visible d && shown registers d &&
                    negb (str_in (data_type d) removes)) (drawing_objs self) /\
    map visible (drawing_objs c2) =
      map visible (drawing_objs (remove_drawings c1 removes)) /\
    map visible (drawing_objs (remove_drawings c3 removes)) =
      map (fun d => shown registers d && negb (str_in (data_type d) removes))
          (drawing_objs self).
Proof.
  assert (Hrem : Forall (bound (remove_drawings self removes))
                        (drawing_objs (remove_drawings self removes))).
  { apply (bound_map self _ (fun d => if str_in (data_type d) removes
                                      then set_visible d false else d));
      try reflexivity; [|exact H].
    intros d. destruct (str_in (data_type d) removes); reflexivity. }
  assert (Hres : Forall (bound (reset self)) (drawing_objs (reset self))).
  { apply (bound_map self _ (fun d => set_visible d true));
      try reflexivity; exact H. }
  eexists. eexists. eexists.
  split; [apply (arrange_registers_eval self registers H)|].
  split; [apply (arrange_registers_eval _ registers Hrem)|].
  split; [apply (arrange_registers_eval _ registers Hres)|].
  cbn [remove_drawings reset drawing_objs]. rewrite !map_map.
  assert (Hd : forall d,
             data_type (arranged registers d) = data_type d /\
             shown registers (if str_in (data_type d) removes
                              then set_visible d false else d) =
             shown registers d /\
             shown registers (set_visible d true) = shown registers d).
  { intros d. split.
    - unfold arranged. destruct (shown registers d); reflexivity.
    - split; [|reflexivity].
      destruct (str_in (data_type d) removes); reflexivity. }
  split; [|split].
  - apply map_ext. intros d. destruct (Hd d) as [-> _].
    destruct (str_in (data_type d) removes); cbn [negb].
    + cbn [set_visible visible]. now rewrite andb_false_r.
    + rewrite arranged_visible. now rewrite andb_true_r.
  - apply map_ext. intros d. destruct (Hd d) as [-> [Hs _]].
    rewrite arranged_visible, Hs.
    destruct (str_in (data_type d) removes).
    + reflexivity.
    + now rewrite arranged_visible.
  - apply map_ext. intros d. destruct (Hd (set_visible d true)) as [-> _].
    destruct (Hd d) as [_ [_ Hs]]. cbn [set_visible data_type].
    destruct (str_in (data_type d) removes); cbn [negb].
    + cbn [set_visible visible]. now rewrite andb_false_r.
    + rewrite arranged_visible, Hs. cbn [set_visible visible].
      now rewrite andb_true_r.
Qed.

(** ** The properties on a circuit of two qubits and on three links

    The circuit delays qubit 1, applies [h] to qubit 0 and [cx] to both,
    and ends with a barrier; the durations of [h], [cx] and of the barrier
    are known, no other is. *)

Record Circuit : Type := mkCircuit {
  circuit_qubits : list bit;
  circuit_clbits : list bit;
  circuit_nodes : list DAGNode
}.

Definition delay_op : Instruction := mkOp Delay "delay" (Some 500%Q).
Definition h_op : Instruction := mkOp Gate "h" None.
Definition cx_op : Instruction := mkOp Gate "cx" None.
Definition barrier_op : Instruction := mkOp Barrier "barrier" None.
Definition unknown_op : Instruction := mkOp Gate "u9" None.

Definition known_durations (name : string) (qargs : list bit) : E Q :=
  if String.eqb name "h" then inr 160%Q
  else if String.eqb name "cx" then inr 800%Q
  else if String.eqb name "barrier" then inr 0%Q
  else inl TranspilerError.

Definition two_qubits : Circuit :=
  mkCircuit [Qubit 0; Qubit 1] []
            [mkNode delay_op [Qubit 1] [];
             mkNode h_op [Qubit 0] [];
             mkNode cx_op [Qubit 0; Qubit 1] [];
             mkNode barrier_op [Qubit 0; Qubit 1] []].

Definition with_unknown_gate : Circuit :=
  mkCircuit [Qubit 0; Qubit 1] []
            [mkNode h_op [Qubit 0] [];
             mkNode unknown_op [Qubit 0] [];
             mkNode cx_op [Qubit 0; Qubit 1] []].

Definition three_rows : DrawDataContainer :=
  mkContainer 100%Q
              [(Qubit 0, Some 0%Z); (Qubit 1, Some (-1)%Z); (Qubit 2, Some (-2)%Z)]
              [mkDrawing "Gate" [Qubit 0] (Single (Some 0%Z)) true;
               mkDrawing "Delay" [Qubit 1] (Single (Some (-1)%Z)) true;
               mkDrawing "Timeline" [Qubit 2] (Single (Some (-2)%Z)) false;
               mkDrawing "RegisterLink" [Qubit 0; Qubit 1]
                         (Several [Some 0%Z; Some (-1)%Z]) true]
              3.

Definition link_01 : InstData := mkInst 400%Q cx_op 800%Q [Qubit 0; Qubit 1].
Definition link_12 : InstData := mkInst 420%Q cx_op 800%Q [Qubit 1; Qubit 2].
Definition link_late : InstData := mkInst 900%Q cx_op 800%Q [Qubit 0; Qubit 1].

Lemma parse_program_timeline_has_no_gap_witness :
  exists insts,
    parse_program Circuit circuit_nodes known_durations two_qubits (Qubit 0) =
      inr (mkEvents (Qubit 0) insts) /\
    Forall2 (parsed_from known_durations) insts
            (filter (on_register (Qubit 0)) (circuit_nodes two_qubits)) /\
    gap_free 0%Q insts.
Proof.
  apply (parse_program_timeline_has_no_gap
           Circuit circuit_nodes known_durations two_qubits (Qubit 0)).
  intros node [<-|[<-|[<-|[<-|[]]]]] _; eexists; reflexivity.
Defined.

Lemma parse_program_raises_without_duration_witness :
  parse_program Circuit circuit_nodes known_durations with_unknown_gate (Qubit 0) =
    inl TranspilerError /\
  (str_in (name unknown_op) ["delay"] = true -> TranspilerError = TypeError).
Proof.
  apply (parse_program_raises_without_duration
           Circuit circuit_nodes known_durations with_unknown_gate (Qubit 0)
           [mkNode h_op [Qubit 0] []] (mkNode unknown_op [Qubit 0] [])
           [mkNode cx_op [Qubit 0; Qubit 1] []] TranspilerError).
  - reflexivity.
  - intros n [<-|[]] _. eexists. reflexivity.
  - reflexivity.
  - reflexivity.
Defined.

Lemma one_link_per_gate_witness :
  exists ev links bars,
    parse_program Circuit circuit_nodes known_durations two_qubits (Qubit 0) =
      inr ev /\
    register_links ev = inr links /\
    barriers ev = inr bars /\
    Forall2 (parsed_from known_durations) links
      (filter (fun n => linked (associated_regs n) (op n) &&
                        first_is (Qubit 0) (associated_regs n))
              (circuit_nodes two_qubits)) /\
    Forall2 (parsed_from known_durations) bars
      (filter (fun n => is_barrier (op n) &&
                        first_is (Qubit 0) (associated_regs n))
              (circuit_nodes two_qubits)).
Proof.
  apply (one_link_per_gate
           Circuit circuit_nodes known_durations two_qubits (Qubit 0)).
  intros node [<-|[<-|[<-|[<-|[]]]]] _; eexists; reflexivity.
Defined.

Lemma idle_registers_are_hidden_witness :
  exists shown,
    registers_to_show Circuit circuit_qubits circuit_clbits circuit_nodes
                      known_durations two_qubits false false = inr shown /\
    (forall r, In r shown <->
               In r (drawn_regs Circuit circuit_qubits circuit_clbits
                                two_qubits false) /\
               has_gate_on Circuit circuit_nodes two_qubits r = true) /\
    NoDup shown /\
    (NoDup (drawn_regs Circuit circuit_qubits circuit_clbits two_qubits false) ->
     shown = filter (has_gate_on Circuit circuit_nodes two_qubits)
                    (drawn_regs Circuit circuit_qubits circuit_clbits
                                two_qubits false)).
Proof.
  apply (idle_registers_are_hidden
           Circuit circuit_qubits circuit_clbits circuit_nodes known_durations
           two_qubits false).
  intros r node _ [<-|[<-|[<-|[<-|[]]]]] _; eexists; reflexivity.
Defined.

Lemma link_01_rows : rows_are three_rows link_01 0 (-1).
Proof. exists (Qubit 0), (Qubit 1). repeat split. Defined.

Lemma link_12_rows : rows_are three_rows link_12 (-1) (-2).
Proof. exists (Qubit 1), (Qubit 2). repeat split. Defined.

Lemma link_01_placed : placed three_rows link_01.
Proof. exists (Qubit 0), (Qubit 1), 0%Z, (-1)%Z. repeat split. Defined.

Lemma link_12_placed : placed three_rows link_12.
Proof. exists (Qubit 1), (Qubit 2), (-1)%Z, (-2)%Z. repeat split. Defined.


Lemma distant_links_are_not_moved_witness :
  _gate_link_overlap_check three_rows [link_01; link_late] =
    inr [link_late; link_01] /\
  (forall table,
      _gate_link_overlap_check
        (mkContainer 100%Q table (drawing_objs three_rows) 3)
        [link_01; link_late] =
      inr [link_late; link_01]).
Proof.
  apply (distant_links_are_not_moved three_rows [link_01; link_late]).
  intros l1 a l2 b l3 Heq.
  destruct l1 as [|x [|y l1]]; destruct l2 as [|z l2];
    try (destruct l2; discriminate Heq);
    try (destruct l1; discriminate Heq);
    try discriminate Heq.
  injection Heq as <- <- _. reflexivity.
Defined.

Lemma rows_overlap_when_ranges_meet_witness :
  rows_overlap three_rows link_01 link_12 = inr true /\
  rows_overlap three_rows link_12 link_01 =
  rows_overlap three_rows link_01 link_12.
Proof.
  apply (rows_overlap_when_ranges_meet three_rows link_01 link_12
           0 (-1) (-1) (-2) link_01_rows link_12_rows).
Defined.

Lemma three_rows_bound : Forall (bound three_rows) (drawing_objs three_rows).
Proof.
  unfold three_rows. cbn [drawing_objs].
  repeat (apply Forall_cons;
          [split; [discriminate|]; intros r Hr; simpl in Hr; simpl; tauto|]).
  apply Forall_nil.
Defined.

Lemma arrange_registers_only_hides_witness :
  exists c,
    arrange_registers three_rows [Qubit 1; Qubit 0] = inr c /\
    num_channel c = 2 /\
    map fst (position_table c) = map fst (position_table three_rows) /\
    (forall r, In r (map fst (position_table three_rows)) ->
               getitem (position_table c) r =
               inr (new_row [Qubit 1; Qubit 0] r)) /\
    drawing_objs c =
      map (arranged [Qubit 1; Qubit 0]) (drawing_objs three_rows) /\
    map visible (drawing_objs c) =
      map (fun d => visible d && shown [Qubit 1; Qubit 0] d)
          (drawing_objs three_rows).
Proof.
  apply (arrange_registers_only_hides three_rows [Qubit 1; Qubit 0]
                                      three_rows_bound).
Defined.

Lemma visible_after_arrange_and_remove_witness :
  exists c1 c2 c3,
    arrange_registers three_rows [Qubit 1; Qubit 0] = inr c1 /\
    arrange_registers (remove_drawings three_rows ["Delay"]) [Qubit 1; Qubit 0] =
      inr c2 /\
    arrange_registers (reset three_rows) [Qubit 1; Qubit 0] = inr c3 /\
    map visible (drawing_objs (remove_drawings c1 ["Delay"])) =
      map (fun d => visible d && shown [Qubit 1; Qubit 0] d &&
                    negb (str_in (data_type d) ["Delay"]))
          (drawing_objs three_rows) /\
    map visible (drawing_objs c2) =
      map visible (drawing_objs (remove_drawings c1 ["Delay"])) /\
    map visible (drawing_objs (remove_drawings c3 ["Delay"])) =
      map (fun d => shown [Qubit 1; Qubit 0] d &&
                    negb (str_in (data_type d) ["Delay"]))
          (drawing_objs three_rows).
Proof.
  apply (visible_after_arrange_and_remove three_rows [Qubit 1; Qubit 0]
                                          ["Delay"] three_rows_bound).
Defined.

End Timeline.
